(** * The grouping engine of [src/store/lib/grouping.ts]

    A shallow embedding of the partitioner ([applyGrouping] and the
    [groupBy...] strategies), of the hierarchy builder ([getGroupedCards])
    and of label resolution ([getGroupingKeyLabel]), followed by the
    properties of the engine.

    Conventions of the embedding.
    - A JS object used as a map ([Record<K, V>]) is a [gmap string V]: the
      property names are strings, a numeric key is filed under its decimal
      spelling.
    - A call that throws a [TypeError] returns [None]; [x ← m; k] is the
      bind of the option monad.
    - Numbers that the engine handles (experience, cost, positions) are
      integers, embedded as [Z]; counts are [nat]. The decimal spelling of
      a number key is that of [Number.prototype.toString] for the safe
      integers, of magnitude below 2^53; what is stated of the spelling of
      a key is stated for these.
    - [Array.prototype.sort] is embedded as a stable insertion sort that,
      as the engines do, acts on the negative results of the comparator. On
      a consistent comparator, one that tells a total preorder, every stable
      sort returns the same array; on another comparator the order is the
      engine's own, and what is stated of the order of a sorted array is
      stated for consistent comparators.
    - The strategies read the metadata at the pack code of a card and at
      the cycle code of a pack, which are codes of packs and cycles; a code
      that names an inherited property instead is outside the embedding.
      Label resolution, which is handed any segment, reads the metadata as
      the objects they are. *)

From stdpp Require Import base option list strings gmap pretty sorting.
From Stdlib Require Import ZArith Ascii.

Set Default Proof Using "Type".

(** ** Data model *)

(** Modelled from the spec: the [Card] type of [services/queries.types] is
    not part of the sources; the record holds the fields that the engine
    reads. Optional fields are [option]s. *)
Module Card.
Record t := mk {
  code : string;
  type_code : string;
  faction_code : string;
  faction2_code : option string;
  subtype_code : option string;
  xp : option Z;
  cost : option Z;
  encounter_code : option string;
  pack_code : string;
  permanent : bool;
  real_slot : option string;
}.
End Card.
Abbreviation Card := Card.t.

(** Modelled from the spec: the [Pack], [Cycle] and [EncounterSet] types of
    [slices/metadata.types] are not part of the sources. [reprint] is the
    truth value of the [reprint] property of a pack. *)
Module Pack.
Record t := mk {
  code : string;
  cycle_code : string;
  position : Z;
  reprint : bool;
}.
End Pack.
Abbreviation Pack := Pack.t.

Module Cycle.
Record t := mk {
  code : string;
  position : Z;
}.
End Cycle.
Abbreviation Cycle := Cycle.t.

Module EncounterSet.
Record t := mk {
  name : string;
}.
End EncounterSet.
Abbreviation EncounterSet := EncounterSet.t.

(** Modelled from the spec: the [Metadata] type of [slices/metadata.types],
    three indexes by code. *)
Module Metadata.
Record t := mk {
  packs : gmap string Pack;
  cycles : gmap string Cycle;
  encounterSets : gmap string EncounterSet;
}.
End Metadata.
Abbreviation Metadata := Metadata.t.

(** Modelled from the spec: the [GroupingType] union of [slices/lists.types],
    with the eleven members that [applyGrouping] dispatches on. *)
Inductive GroupingType :=
  | G_none | G_subtype | G_type | G_slot | G_level | G_base_upgrades
  | G_faction | G_encounter_set | G_cost | G_cycle | G_pack.

Global Instance GroupingType_eq_dec : EqDecision GroupingType.
Proof. solve_decision. Defined.

(** The string literal that a [GroupingType] is at run time. *)
Definition grouping_name (g : GroupingType) : string :=
  match g with
  | G_none => "none"
  | G_subtype => "subtype"
  | G_type => "type"
  | G_slot => "slot"
  | G_level => "level"
  | G_base_upgrades => "base_upgrades"
  | G_faction => "faction"
  | G_encounter_set => "encounter_set"
  | G_cost => "cost"
  | G_cycle => "cycle"
  | G_pack => "pack"
  end.

Definition NONE : string := "none".
Definition LEVEL_0 : string := "level0".
Definition UPGRADE : string := "upgrade".

Definition PLAYER_GROUPING_TYPES : list GroupingType :=
  [G_base_upgrades; G_cost; G_cycle; G_faction; G_level; G_pack; G_slot;
   G_subtype; G_type].

Definition ENCOUNTER_GROUPING_TYPES : list GroupingType :=
  [G_cycle; G_encounter_set; G_pack; G_subtype; G_type].

(** [type Key = string | number]. A grouping is generic in its key type
    [K extends Key]; what the engine needs of a key is its spelling, both as
    a property name ([data[key]]) and in [toGroupingResult]
    ([key.toString()] for a number, the key itself for a string). *)
Class Key (K : Type) := key_string : K → string.
Global Hint Mode Key ! : typeclass_instances.

Global Instance string_Key : Key string := λ s, s.

(** The instance [number | string] of the level and cost groupings. *)
Inductive NumOrString :=
  | Num (n : Z)
  | Str (s : string).

Global Instance NumOrString_eq_dec : EqDecision NumOrString.
Proof. solve_decision. Defined.

(** The spelling of a number is its decimal digits, with a sign in front
    when it is negative: what [toString] gives for a safe integer. From
    1e21 on [toString] writes an exponent, which this instance does not
    follow; statements on the spelling of a number key are made for safe
    integers. *)
Global Instance NumOrString_Key : Key NumOrString := λ k,
  match k with
  | Num n => pretty n
  | Str s => s
  end.

Module Grouping.
Record t (K : Type) := mk {
  data : gmap string (list Card);
  groupings : list K;
  type : GroupingType;
}.
Global Arguments mk {K} _ _ _.
Global Arguments data {K} _.
Global Arguments groupings {K} _.
Global Arguments type {K} _.
End Grouping.
Abbreviation Grouping := Grouping.t.

Module GroupingResult.
Record t := mk {
  cards : list Card;
  key : string;
  type : string;
}.
End GroupingResult.
Abbreviation GroupingResult := GroupingResult.t.

Module GroupTreeEntry.
Record t := mk {
  key : string;
  type : string;
  count : nat;
  parent : option string;
}.
End GroupTreeEntry.
Abbreviation GroupTreeEntry := GroupTreeEntry.t.

Module GroupedCards.
Record t := mk {
  data : list GroupingResult;
  hierarchy : gmap string GroupTreeEntry;
}.
End GroupedCards.
Abbreviation GroupedCards := GroupedCards.t.

(** ** JavaScript primitives used by the engine *)

(** Truthiness of an optional string ([card.encounter_code ? .. : ..]): absent
    and the empty string are falsy. *)
Definition truthy_string (o : option string) : bool :=
  match o with
  | Some s => negb (bool_decide (s = ""))
  | None => false
  end.

(** Truthiness of an optional number ([!card.xp]): absent and zero are
    falsy. *)
Definition truthy_number (o : option Z) : bool :=
  match o with
  | Some n => negb (bool_decide (n = 0%Z))
  | None => false
  end.

(** [Array.prototype.reduce] with a callback that may throw. *)
Fixpoint reduce {A B} (f : B → A → option B) (l : list A) (init : B)
    : option B :=
  match l with
  | [] => Some init
  | x :: l' => acc ← f init x; reduce f l' acc
  end.

(** [Array.prototype.sort] with a comparator that may throw. The engine
    calls the comparator with an element and one in front of it, and acts
    on a negative result alone: a stable insertion sort, in which [x] stays
    in front of an element [y] behind it unless [cmp y x < 0]. The
    comparator is not called on arrays of fewer than two elements, and on a
    longer array every element is compared at least once. *)
Fixpoint sort_insert {A} (cmp : A → A → option Z) (x : A) (l : list A)
    : option (list A) :=
  match l with
  | [] => Some [x]
  | y :: l' =>
      c ← cmp y x;
      if bool_decide (c < 0)%Z
      then l'' ← sort_insert cmp x l'; Some (y :: l'')
      else Some (x :: y :: l')
  end.

Fixpoint sort {A} (cmp : A → A → option Z) (l : list A) : option (list A) :=
  match l with
  | [] => Some []
  | x :: l' => s ← sort cmp l'; sort_insert cmp x s
  end.

(** The same sort for a comparator that cannot throw. *)
Fixpoint sort_insert_total {A} (cmp : A → A → Z) (x : A) (l : list A)
    : list A :=
  match l with
  | [] => [x]
  | y :: l' =>
      if bool_decide (cmp y x < 0)%Z
      then y :: sort_insert_total cmp x l'
      else x :: y :: l'
  end.

Fixpoint sort_total {A} (cmp : A → A → Z) (l : list A) : list A :=
  match l with
  | [] => []
  | x :: l' => sort_insert_total cmp x (sort_total cmp l')
  end.

(** A comparator that cannot throw, seen as one that may. *)
Definition pure_cmp {A} (cmp : A → A → Z) : A → A → option Z :=
  λ a b, Some (cmp a b).

(** [String.prototype.split("|")]: the segments between the bars. *)
Definition bar : ascii := "|"%char.

Fixpoint split_bar (s : string) : list string :=
  match s with
  | EmptyString => [""]
  | String c s' =>
      if bool_decide (c = bar) then "" :: split_bar s'
      else match split_bar s' with
           | [] => [String c ""]
           | seg :: segs => String c seg :: segs
           end
  end.

(** [Array.prototype.join("|")]. *)
Fixpoint join_bar (l : list string) : string :=
  match l with
  | [] => ""
  | [s] => s
  | s :: l' => s +:+ "|" +:+ join_bar l'
  end.

(** [String.prototype.includes("|")]. *)
Fixpoint includes_bar (s : string) : bool :=
  match s with
  | EmptyString => false
  | String c s' => bool_decide (c = bar) || includes_bar s'
  end.

(** [slice(0, -1)]: all elements but the last. *)
Definition slice_init {A} (l : list A) : list A := take (length l - 1) l.

(** ** The partitioner *)

(** What reading [data[name]] on an object literal gives: a value of the
    object's own, a value inherited from [Object.prototype] (for a name such
    as [constructor]), or [undefined]. *)
Inductive PropertyRead (V : Type) :=
  | Own (v : V)
  | Inherited
  | Undefined.
Global Arguments Own {V} _.
Global Arguments Inherited {V}.
Global Arguments Undefined {V}.

(** What the module imports, and the host it runs on. None of it is part of
    the sources; the engine is verified for every choice of it. *)
Class Host := {
  (** The property names that an object literal inherits from
      [Object.prototype]. *)
  inherited : string → bool;
  (** [Intl.Collator] is opaque to the engine. *)
  Collator : Type;
  (** The comparators of [./sorting]. The casts [a as number] of the level
      and cost comparators are erased at run time: [sortNumerical] receives
      the keys as they are. *)
  sortTypesByOrder : string → string → Z;
  sortByFactionOrder : string → string → Z;
  sortBySlots : Collator → string → string → Z;
  sortByEncounterSet : Metadata → Collator → string → string → Z;
  sortNumerical : NumOrString → NumOrString → Z;
  (** [i18n.t] of [utils/i18n], with its interpolation parameters as name
      and value pairs, and the helpers of [utils/formatting]. *)
  i18n_t : string → list (string * string) → string;
  displayPackName : option Cycle → option string;
  shortenPackName : option Pack → option string;
  formatSlots : string → string;
  (** Label resolution reads the metadata at any segment, also at one that
      names an inherited property. [inherited_name] is the [name] property
      of the value inherited under a name (the name of the function for a
      method, nothing for [__proto__]); the two others are what
      [displayPackName] and [shortenPackName] make of that value. *)
  inherited_name : string → option string;
  displayPackName_inherited : string → option string;
  shortenPackName_inherited : string → option string;
}.

(** The caller's [SortFunction] on cards. *)
Definition SortFunction : Type := Card → Card → Z.

Section Engine.
Context `{Host}.

Definition get_property {V} (data : gmap string V) (name : string)
    : PropertyRead V :=
  match data !! name with
  | Some v => Own v
  | None => if inherited name then Inherited else Undefined
  end.

Definition toGroupingResult {K} `{Key K} (grouping : Grouping K)
    : option (list GroupingResult) :=
  mapM (λ key,
    cards ← Grouping.data grouping !! key_string key;
    Some (GroupingResult.mk cards (key_string key)
            (grouping_name (Grouping.type grouping))))
    (Grouping.groupings grouping).

(** The loop of [omitEmptyGroupings], from index [i] on. The [for] header
    increments [i] after every iteration, and so does the [else] branch.
    [fuel] bounds the number of iterations; [None] when it runs out. *)
Fixpoint omitEmptyGroupings_from {K} `{Key K} (fuel : nat)
    (grouping : Grouping K) (i : nat) : option (Grouping K) :=
  if bool_decide (i < length (Grouping.groupings grouping)) then
    match fuel with
    | 0 => None
    | S fuel' =>
        key ← Grouping.groupings grouping !! i;
        cards ← Grouping.data grouping !! key_string key;
        if bool_decide (length cards = 0) then
          omitEmptyGroupings_from fuel'
            (Grouping.mk (delete (key_string key) (Grouping.data grouping))
               (delete i (Grouping.groupings grouping))
               (Grouping.type grouping))
            (i + 1)
        else
          omitEmptyGroupings_from fuel' grouping (i + 1 + 1)
    end
  else Some grouping.

Definition omitEmptyGroupings {K} `{Key K} (grouping : Grouping K)
    : option (Grouping K) :=
  omitEmptyGroupings_from (length (Grouping.groupings grouping)) grouping 0.

(** The body shared by the reducers of the dimensions that create their
    buckets on demand:
    [if (!acc.data[code]) { acc.data[code] = [card]; acc.groupings.push(code) }
     else { acc.data[code].push(card) }].
    An inherited value is truthy and has no [push]. *)
Definition push_or_create {K} `{Key K} (acc : Grouping K) (code : K)
    (card : Card) : option (Grouping K) :=
  match get_property (Grouping.data acc) (key_string code) with
  | Undefined =>
      Some (Grouping.mk (<[key_string code := [card]]> (Grouping.data acc))
              (Grouping.groupings acc ++ [code]) (Grouping.type acc))
  | Own cards =>
      Some (Grouping.mk
              (<[key_string code := cards ++ [card]]> (Grouping.data acc))
              (Grouping.groupings acc) (Grouping.type acc))
  | Inherited => None
  end.

(** [acc.data[code].push(card)] on a bucket that has to be there. *)
Definition push_existing {K} `{Key K} (acc : Grouping K) (code : K)
    (card : Card) : option (Grouping K) :=
  match get_property (Grouping.data acc) (key_string code) with
  | Own cards =>
      Some (Grouping.mk
              (<[key_string code := cards ++ [card]]> (Grouping.data acc))
              (Grouping.groupings acc) (Grouping.type acc))
  | Inherited | Undefined => None
  end.

(** [result.groupings.sort(cmp)], in place. *)
Definition sort_groupings {K} (cmp : K → K → option Z) (grouping : Grouping K)
    : option (Grouping K) :=
  groupings ← sort cmp (Grouping.groupings grouping);
  Some (Grouping.mk (Grouping.data grouping) groupings
          (Grouping.type grouping)).

Definition groupByTypeCode (cards : list Card)
    : option (list GroupingResult) :=
  result ← reduce (λ acc card,
      let code := Card.type_code card in
      push_or_create acc code card)
    cards (Grouping.mk (K:=string) ∅ [] G_type);
  result ← omitEmptyGroupings result;
  result ← sort_groupings (pure_cmp sortTypesByOrder) result;
  toGroupingResult result.

Definition groupBySlots (cards : list Card) (collator : Collator)
    : option (list GroupingResult) :=
  result ← reduce (λ acc card,
      let slot :=
        if Card.permanent card then "permanent"
        else default NONE (Card.real_slot card) in
      push_or_create acc slot card)
    cards (Grouping.mk (K:=string) ∅ [] G_slot);
  result ← omitEmptyGroupings result;
  result ← sort_groupings (pure_cmp (sortBySlots collator)) result;
  toGroupingResult result.

(** [a === NONE ? -1 : b === NONE ? 1 : sortNumerical(a, b)]. *)
Definition compare_none_first (a b : NumOrString) : Z :=
  if bool_decide (a = Str NONE) then (-1)%Z
  else if bool_decide (b = Str NONE) then 1%Z
  else sortNumerical a b.

Definition groupByLevel (cards : list Card) : option (list GroupingResult) :=
  results ← reduce (λ acc card,
      let level := from_option Num (Str NONE) (Card.xp card) in
      push_or_create acc level card)
    cards (Grouping.mk (K:=NumOrString) ∅ [] G_level);
  results ← omitEmptyGroupings results;
  results ← sort_groupings (pure_cmp compare_none_first) results;
  toGroupingResult results.

Definition groupByLevel0VsUpgrade (cards : list Card)
    : option (list GroupingResult) :=
  results ← reduce (λ acc card,
      if negb (truthy_number (Card.xp card))
      then push_existing acc LEVEL_0 card
      else push_existing acc UPGRADE card)
    cards
    (Grouping.mk (K:=string) (<[UPGRADE := []]> (<[LEVEL_0 := []]> ∅))
       [LEVEL_0; UPGRADE] G_base_upgrades);
  results ← omitEmptyGroupings results;
  toGroupingResult results.

Definition groupByFaction (cards : list Card)
    : option (list GroupingResult) :=
  results ← reduce (λ acc card,
      let faction :=
        if truthy_string (Card.faction2_code card) then "multiclass"
        else Card.faction_code card in
      push_or_create acc faction card)
    cards (Grouping.mk (K:=string) ∅ [] G_faction);
  results ← omitEmptyGroupings results;
  results ← sort_groupings (pure_cmp sortByFactionOrder) results;
  toGroupingResult results.

Definition groupByEncounterSet (cards : list Card) (metadata : Metadata)
    (collator : Collator) : option (list GroupingResult) :=
  results ← reduce (λ acc card,
      let code := default NONE (Card.encounter_code card) in
      push_or_create acc code card)
    cards (Grouping.mk (K:=string) ∅ [] G_encounter_set);
  results ← omitEmptyGroupings results;
  results ← sort_groupings
    (pure_cmp (sortByEncounterSet metadata collator)) results;
  toGroupingResult results.

Definition groupByCost (cards : list Card) : option (list GroupingResult) :=
  results ← reduce (λ acc card,
      let cost := from_option Num (Str NONE) (Card.cost card) in
      push_or_create acc cost card)
    cards (Grouping.mk (K:=NumOrString) ∅ [] G_cost);
  results ← omitEmptyGroupings results;
  results ← sort_groupings (pure_cmp compare_none_first) results;
  toGroupingResult results.

(** [metadata.cycles[a].position - metadata.cycles[b].position]; reading
    [position] of a cycle that is not there throws. *)
Definition compare_cycles (metadata : Metadata) (a b : string) : option Z :=
  ca ← Metadata.cycles metadata !! a;
  cb ← Metadata.cycles metadata !! b;
  Some (Cycle.position ca - Cycle.position cb)%Z.

Definition groupByCycle (cards : list Card) (metadata : Metadata)
    : option (list GroupingResult) :=
  results ← reduce (λ acc card,
      pack ← Metadata.packs metadata !! Card.pack_code card;
      cycle ← Cycle.code <$>
        (Metadata.cycles metadata !! Pack.cycle_code pack);
      push_or_create acc cycle card)
    cards (Grouping.mk (K:=string) ∅ [] G_cycle);
  results ← omitEmptyGroupings results;
  results ← sort_groupings (compare_cycles metadata) results;
  toGroupingResult results.

(** The bucket of a card under the pack dimension: the code of the reprint
    pack of its cycle when there is one, of its own pack otherwise. *)
Definition pack_bucket (metadata : Metadata) (card : Card) : option string :=
  let cardType :=
    if truthy_string (Card.encounter_code card) then "encounter"
    else "player" in
  pack ← Metadata.packs metadata !! Card.pack_code card;
  let reprintPackCode :=
    Pack.cycle_code pack +:+
    (if bool_decide (cardType = "encounter") then "c" else "p") in
  let reprintPack := Metadata.packs metadata !! reprintPackCode in
  let pack :=
    match reprintPack with
    | Some reprintPack =>
        if Pack.reprint reprintPack then reprintPack else pack
    | None => pack
    end in
  Some (Pack.code pack).

(** The comparator of the pack dimension: cycle position, then pack
    position. *)
Definition compare_packs (metadata : Metadata) (a b : string) : option Z :=
  pa ← Metadata.packs metadata !! a;
  aCycle ← Metadata.cycles metadata !! Pack.cycle_code pa;
  pb ← Metadata.packs metadata !! b;
  bCycle ← Metadata.cycles metadata !! Pack.cycle_code pb;
  if bool_decide (Cycle.position aCycle ≠ Cycle.position bCycle)
  then Some (Cycle.position aCycle - Cycle.position bCycle)%Z
  else Some (Pack.position pa - Pack.position pb)%Z.

Definition groupByPack (cards : list Card) (metadata : Metadata)
    : option (list GroupingResult) :=
  results ← reduce (λ acc card,
      code ← pack_bucket metadata card;
      push_or_create acc code card)
    cards (Grouping.mk (K:=string) ∅ [] G_pack);
  results ← omitEmptyGroupings results;
  results ← sort_groupings (compare_packs metadata) results;
  toGroupingResult results.

(** The reducer of the subtype dimension pushes to a bucket that is there
    and ignores the card otherwise. *)
Definition groupBySubtypeCode (cards : list Card)
    : option (list GroupingResult) :=
  results ← reduce (λ acc card,
      let subtype := default NONE (Card.subtype_code card) in
      match get_property (Grouping.data acc) subtype with
      | Own _ => push_existing acc subtype card
      | Inherited => None
      | Undefined => Some acc
      end)
    cards
    (Grouping.mk (K:=string)
       (<["basicweakness" := []]> (<["weakness" := []]> (<[NONE := []]> ∅)))
       [NONE; "weakness"; "basicweakness"] G_subtype);
  results ← omitEmptyGroupings results;
  toGroupingResult results.

Definition applyGrouping (cards : list Card) (grouping : GroupingType)
    (metadata : Metadata) (collator : Collator)
    : option (list GroupingResult) :=
  match grouping with
  | G_none => Some [GroupingResult.mk cards "all" "none"]
  | G_subtype => groupBySubtypeCode cards
  | G_type => groupByTypeCode cards
  | G_slot => groupBySlots cards collator
  | G_level => groupByLevel cards
  | G_base_upgrades => groupByLevel0VsUpgrade cards
  | G_faction => groupByFaction cards
  | G_encounter_set => groupByEncounterSet cards metadata collator
  | G_cost => groupByCost cards
  | G_cycle => groupByCycle cards metadata
  | G_pack => groupByPack cards metadata
  end.

(** ** The hierarchy builder *)

(** [key.includes("|") ? key.split("|").slice(0, -1).join("|") : null]. *)
Definition parent_key (key : string) : option string :=
  if includes_bar key then Some (join_bar (slice_init (split_bar key)))
  else None.

(** [hierarchy[group.key] = { key, type, count: group.cards.length, parent }]. *)
Definition register (hierarchy : gmap string GroupTreeEntry)
    (group : GroupingResult) (parent : option string)
    : gmap string GroupTreeEntry :=
  <[GroupingResult.key group :=
      GroupTreeEntry.mk (GroupingResult.key group) (GroupingResult.type group)
        (length (GroupingResult.cards group)) parent]> hierarchy.

(** What the [for (const g of expanded)] loop makes of a child [g] of
    [group]: its key and type are prefixed with those of [group]. *)
Definition prefixed (group g : GroupingResult) : GroupingResult :=
  GroupingResult.mk (GroupingResult.cards g)
    (GroupingResult.key group +:+ "|" +:+ GroupingResult.key g)
    (GroupingResult.type group +:+ "|" +:+ GroupingResult.type g).

(** [data.splice(j, 1, ...expanded)]. *)
Definition splice_one {A} (data : list A) (j : nat) (expanded : list A)
    : list A :=
  take j data ++ expanded ++ drop (j + 1) data.

(** The [while (j < data.length)] loop of one expansion pass, from index [j]
    on. [fuel] bounds the number of iterations; [None] when it runs out, or
    when [applyGrouping] throws. *)
Fixpoint expand_from (fuel : nat) (grouping : GroupingType)
    (metadata : Metadata) (collator : Collator)
    (data : list GroupingResult) (hierarchy : gmap string GroupTreeEntry)
    (j : nat) : option (list GroupingResult * gmap string GroupTreeEntry) :=
  if bool_decide (j < length data) then
    match fuel with
    | 0 => None
    | S fuel' =>
        group ← data !! j;
        let parent := parent_key (GroupingResult.key group) in
        let hierarchy := register hierarchy group parent in
        expanded ← applyGrouping (GroupingResult.cards group) grouping
                      metadata collator;
        let expanded := map (prefixed group) expanded in
        let hierarchy :=
          foldl (λ h g, register h g (Some (GroupingResult.key group)))
            hierarchy expanded in
        let data := splice_one data j expanded in
        expand_from fuel' grouping metadata collator data hierarchy
          (j + length expanded)
    end
  else Some (data, hierarchy).

(** One pass of the [for (let i = 1; ...)] loop. *)
Definition expand_pass (metadata : Metadata) (collator : Collator)
    (state : list GroupingResult * gmap string GroupTreeEntry)
    (grouping : GroupingType)
    : option (list GroupingResult * gmap string GroupTreeEntry) :=
  expand_from (length state.1) grouping metadata collator state.1 state.2 0.

(** [group.cards.sort(sortFunction)], seen on the values. *)
Definition sort_cards (sortFunction : SortFunction) (group : GroupingResult)
    : GroupingResult :=
  GroupingResult.mk (sort_total sortFunction (GroupingResult.cards group))
    (GroupingResult.key group) (GroupingResult.type group).

(** [getGroupedCards], seen on the values it returns. (Whether the card
    arrays of the result are the caller's is the matter of the section on
    the caller's array below.) *)
Definition getGroupedCards (_groupings : list GroupingType)
    (cards : list Card) (sortFunction : SortFunction) (metadata : Metadata)
    (collator : Collator) : option GroupedCards :=
  let groupings :=
    if bool_decide (length _groupings ≠ 0) then _groupings else [G_none] in
  first ← groupings !! 0;
  data ← applyGrouping cards first metadata collator;
  state ←
    (if bool_decide (1 < length groupings) then
       reduce (expand_pass metadata collator) (drop 1 groupings) (data, ∅)
     else
       Some (data, foldl (λ h group, register h group None) ∅ data));
  let data := map (sort_cards sortFunction) state.1 in
  Some (GroupedCards.mk data state.2).

(** ** Label resolution *)

(** [metadata.cycles[segment]], [metadata.encounterSets[segment]?.name] and
    [metadata.packs[segment]] are reads of plain objects at a segment that
    the caller chooses: a segment that names no entry but an inherited
    property reads the inherited value. *)
Definition getGroupingKeyLabel (type segment : string) (metadata : Metadata)
    : string :=
  if bool_decide (type = "none") then i18n_t "lists.all_cards" []
  else if bool_decide (type = "subtype") then
    if bool_decide (segment = NONE) then ""
    else i18n_t ("common.subtype." +:+ segment) []
  else if bool_decide (type = "type") then
    i18n_t ("common.type." +:+ segment) [("count", "1")]
  else if bool_decide (type = "cycle") then
    match get_property (Metadata.cycles metadata) segment with
    | Own cycle => default "" (displayPackName (Some cycle))
    | Inherited => default "" (displayPackName_inherited segment)
    | Undefined => default "" (displayPackName None)
    end
  else if bool_decide (type = "encounter_set") then
    match get_property (Metadata.encounterSets metadata) segment with
    | Own set => EncounterSet.name set
    | Inherited => default "" (inherited_name segment)
    | Undefined => ""
    end
  else if bool_decide (type = "slot") then
    if bool_decide (segment = NONE) then i18n_t "common.slot.none" []
    else if bool_decide (segment = "permanent")
    then i18n_t "common.permanent" []
    else formatSlots segment
  else if bool_decide (type = "level") then
    if bool_decide (segment = NONE) then i18n_t "common.level.none" []
    else i18n_t "common.level.value" [("level", segment)]
  else if bool_decide (type = "cost") then
    if bool_decide (segment = NONE) then i18n_t "common.cost.none" []
    else if bool_decide (segment = "-2") then i18n_t "common.cost.x" []
    else i18n_t "common.cost.value" [("cost", segment)]
  else if bool_decide (type = "faction") then
    i18n_t ("common.factions." +:+ segment) []
  else if bool_decide (type = "base_upgrades") then
    if bool_decide (segment = LEVEL_0) then i18n_t "common.level.base" []
    else if bool_decide (segment = UPGRADE)
    then i18n_t "common.level.upgrades" []
    else ""
  else if bool_decide (type = "pack") then
    match get_property (Metadata.packs metadata) segment with
    | Own pack => default "" (shortenPackName (Some pack))
    | Inherited => default "" (shortenPackName_inherited segment)
    | Undefined => default "" (shortenPackName None)
    end
  else if bool_decide (type = "default") then segment
  else "".

End Engine.

(** ** The caller's array *)

(** The values above do not tell whose array a card list is. An array that
    a result refers to is one that the engine created during the call, and
    that no other group refers to, or it is the array that the caller passed
    as [cards]. *)
Inductive CardArray :=
  | Created (cards : list Card)
  | Passed.

(** The cards in an array, [passed] being those of the caller's. *)
Definition contents (passed : list Card) (array : CardArray) : list Card :=
  match array with
  | Created cards => cards
  | Passed => passed
  end.

Module GroupRef.
Record t := mk {
  cards : CardArray;
  key : string;
  type : string;
}.
End GroupRef.
Abbreviation GroupRef := GroupRef.t.

Module GroupedRefs.
Record t := mk {
  data : list GroupRef;
  hierarchy : gmap string GroupTreeEntry;
}.
End GroupedRefs.
Abbreviation GroupedRefs := GroupedRefs.t.

Section InPlace.
Context `{Host}.

(** A group of a strategy: its array is of the strategy's making
    ([[card]], [[]] and [push]). *)
Definition created (group : GroupingResult) : GroupRef :=
  GroupRef.mk (Created (GroupingResult.cards group))
    (GroupingResult.key group) (GroupingResult.type group).

(** [applyGrouping] on an array: the strategies read it and return arrays
    of their own; the case ["none"] returns the array itself. *)
Definition applyGrouping_ref (passed : list Card) (cards : CardArray)
    (grouping : GroupingType) (metadata : Metadata) (collator : Collator)
    : option (list GroupRef) :=
  match grouping with
  | G_none => Some [GroupRef.mk cards "all" "none"]
  | _ =>
      map created
        <$> applyGrouping (contents passed cards) grouping metadata collator
  end.

Definition register_ref (passed : list Card)
    (hierarchy : gmap string GroupTreeEntry) (group : GroupRef)
    (parent : option string) : gmap string GroupTreeEntry :=
  <[GroupRef.key group :=
      GroupTreeEntry.mk (GroupRef.key group) (GroupRef.type group)
        (length (contents passed (GroupRef.cards group))) parent]> hierarchy.

Definition prefixed_ref (group g : GroupRef) : GroupRef :=
  GroupRef.mk (GroupRef.cards g)
    (GroupRef.key group +:+ "|" +:+ GroupRef.key g)
    (GroupRef.type group +:+ "|" +:+ GroupRef.type g).

Fixpoint expand_from_ref (fuel : nat) (passed : list Card)
    (grouping : GroupingType) (metadata : Metadata) (collator : Collator)
    (data : list GroupRef) (hierarchy : gmap string GroupTreeEntry)
    (j : nat) : option (list GroupRef * gmap string GroupTreeEntry) :=
  if bool_decide (j < length data) then
    match fuel with
    | 0 => None
    | S fuel' =>
        group ← data !! j;
        let parent := parent_key (GroupRef.key group) in
        let hierarchy := register_ref passed hierarchy group parent in
        expanded ← applyGrouping_ref passed (GroupRef.cards group) grouping
                      metadata collator;
        let expanded := map (prefixed_ref group) expanded in
        let hierarchy :=
          foldl (λ h g, register_ref passed h g (Some (GroupRef.key group)))
            hierarchy expanded in
        let data := splice_one data j expanded in
        expand_from_ref fuel' passed grouping metadata collator data
          hierarchy (j + length expanded)
    end
  else Some (data, hierarchy).

Definition expand_pass_ref (passed : list Card) (metadata : Metadata)
    (collator : Collator)
    (state : list GroupRef * gmap string GroupTreeEntry)
    (grouping : GroupingType)
    : option (list GroupRef * gmap string GroupTreeEntry) :=
  expand_from_ref (length state.1) passed grouping metadata collator
    state.1 state.2 0.

(** [group.cards.sort(sortFunction)]: the sort is in place, on the array
    that the group refers to. *)
Definition sort_in_place (sortFunction : SortFunction)
    (state : list GroupRef * list Card) (group : GroupRef)
    : list GroupRef * list Card :=
  match GroupRef.cards group with
  | Created cards =>
      (state.1 ++ [GroupRef.mk (Created (sort_total sortFunction cards))
                     (GroupRef.key group) (GroupRef.type group)],
       state.2)
  | Passed => (state.1 ++ [group], sort_total sortFunction state.2)
  end.

(** [getGroupedCards] with the caller's array: the result, and the cards
    that the caller finds in the array after the call. *)
Definition getGroupedCards_ref (_groupings : list GroupingType)
    (passed : list Card) (sortFunction : SortFunction) (metadata : Metadata)
    (collator : Collator) : option (GroupedRefs * list Card) :=
  let groupings :=
    if bool_decide (length _groupings ≠ 0) then _groupings else [G_none] in
  first ← groupings !! 0;
  data ← applyGrouping_ref passed Passed first metadata collator;
  state ←
    (if bool_decide (1 < length groupings) then
       reduce (expand_pass_ref passed metadata collator) (drop 1 groupings)
         (data, ∅)
     else
       Some (data, foldl (λ h group, register_ref passed h group None) ∅ data));
  let sorted := foldl (sort_in_place sortFunction) ([], passed) state.1 in
  Some (GroupedRefs.mk sorted.1 state.2, sorted.2).

(** What the caller reads in a result after the call. *)
Definition read_group (passed : list Card) (group : GroupRef)
    : GroupingResult :=
  GroupingResult.mk (contents passed (GroupRef.cards group))
    (GroupRef.key group) (GroupRef.type group).

Definition read_result (outcome : GroupedRefs * list Card) : GroupedCards :=
  GroupedCards.mk (map (read_group outcome.2) (GroupedRefs.data outcome.1))
    (GroupedRefs.hierarchy outcome.1).

End InPlace.

Section Specification.
Context `{Host}.

(** ** Specification of the partitioner *)

(** The body of the reducers on demand, for a bucket function. *)
Definition bucket_name {K} `{Key K} (bucket : Card → option K) (card : Card)
    : option string :=
  key_string <$> bucket card.

Definition bucket_step {K} `{Key K} (bucket : Card → option K)
    (acc : Grouping K) (card : Card) : option (Grouping K) :=
  code ← bucket card; push_or_create acc code card.

(** What holds of the accumulator after the cards [processed]. *)
Record bucketed {K} `{Key K} (bucket : Card → option K)
    (processed : list Card) (g : Grouping K) : Prop := {
  bucketed_NoDup : NoDup (key_string <$> Grouping.groupings g);
  bucketed_dom name :
    name ∈ key_string <$> Grouping.groupings g
    ↔ is_Some (Grouping.data g !! name);
  bucketed_data name cs :
    Grouping.data g !! name = Some cs →
    cs ≠ [] ∧ cs = filter (λ c, bucket_name bucket c = Some name) processed;
  bucketed_all c :
    c ∈ processed →
    ∃ name, bucket_name bucket c = Some name
            ∧ is_Some (Grouping.data g !! name);
}.

(** [res] is the stable partition of [cards] by [name]: one group for each
    name that occurs, holding the cards of that name in the order of
    [cards]. *)
Record partitions_by (name : Card → option string) (cards : list Card)
    (res : list GroupingResult) : Prop := {
  partitions_NoDup : NoDup (GroupingResult.key <$> res);
  partitions_cards g :
    g ∈ res →
    GroupingResult.cards g
    = filter (λ c, name c = Some (GroupingResult.key g)) cards;
  partitions_all c :
    c ∈ cards → ∃ g, g ∈ res ∧ name c = Some (GroupingResult.key g);
}.

(** The shape of the strategies that create their buckets on demand. *)
Definition group_by_key {K} `{Key K} (bucket : Card → option K)
    (cmp : K → K → option Z) (ty : GroupingType) (cards : list Card)
    : option (list GroupingResult) :=
  results ← reduce (bucket_step bucket) cards (Grouping.mk ∅ [] ty);
  results ← omitEmptyGroupings results;
  results ← sort_groupings cmp results;
  toGroupingResult results.

Definition level0 (card : Card) : Prop := truthy_number (Card.xp card) = false.

Definition subtype_of (card : Card) : string :=
  default NONE (Card.subtype_code card).

Definition fixed_subtypes : list string := [NONE; "weakness"; "basicweakness"].

(** The cards on which the reducer of the subtype dimension throws: their
    subtype is not a bucket and names an inherited property. *)
Definition subtype_throws (card : Card) : bool :=
  bool_decide (subtype_of card ∉ fixed_subtypes) && inherited (subtype_of card).

Definition subtype_data (n w b : list Card) : gmap string (list Card) :=
  <["basicweakness" := b]> (<["weakness" := w]> (<[NONE := n]> ∅)).

Definition subtype_step (acc : Grouping string) (card : Card)
    : option (Grouping string) :=
  let subtype := default NONE (Card.subtype_code card) in
  match get_property (Grouping.data acc) subtype with
  | Own _ => push_existing acc subtype card
  | Inherited => None
  | Undefined => Some acc
  end.

(** The key under which the strategy of a dimension files a card; [None]
    when the card is filed nowhere (the subtype dimension) or the metadata
    lookup fails (the cycle and pack dimensions). *)
Definition dimension_key (grouping : GroupingType) (metadata : Metadata)
    (card : Card) : option string :=
  match grouping with
  | G_none => Some "all"
  | G_subtype =>
      if bool_decide (subtype_of card ∈ fixed_subtypes)
      then Some (subtype_of card) else None
  | G_type => Some (Card.type_code card)
  | G_slot =>
      Some (if Card.permanent card then "permanent"
            else default NONE (Card.real_slot card))
  | G_level => Some (from_option pretty NONE (Card.xp card))
  | G_base_upgrades =>
      Some (if truthy_number (Card.xp card) then UPGRADE else LEVEL_0)
  | G_faction =>
      Some (if truthy_string (Card.faction2_code card) then "multiclass"
            else Card.faction_code card)
  | G_encounter_set => Some (default NONE (Card.encounter_code card))
  | G_cost => Some (from_option pretty NONE (Card.cost card))
  | G_cycle =>
      pack ← Metadata.packs metadata !! Card.pack_code card;
      Cycle.code <$> (Metadata.cycles metadata !! Pack.cycle_code pack)
  | G_pack => pack_bucket metadata card
  end.

(** The dimensions whose strategy creates its buckets on demand. *)
Definition on_demand (grouping : GroupingType) : Prop :=
  grouping ∉ [G_none; G_subtype; G_base_upgrades].

(** The metadata files every pack under its own code. *)
Definition packs_keyed (metadata : Metadata) : Prop :=
  ∀ code pack,
    Metadata.packs metadata !! code = Some pack → Pack.code pack = code.

(** The synthetic code of the reprint pack that a card of [pack] is looked
    up under: [c] for a card with an encounter code, [p] otherwise. *)
Definition reprint_code (pack : Pack) (card : Card) : string :=
  Pack.cycle_code pack +:+
  (if truthy_string (Card.encounter_code card) then "c" else "p").

(** A pack with this code exists and is marked reprint. *)
Definition is_reprint_pack (metadata : Metadata) (code : string) : bool :=
  match Metadata.packs metadata !! code with
  | Some pack => Pack.reprint pack
  | None => false
  end.

(** ** Specification of the hierarchy builder *)

(** The children of a group under a dimension, as the expansion loop leaves
    them: keys and types prefixed with those of the group. *)
Definition expand (grouping : GroupingType) (metadata : Metadata)
    (collator : Collator) (group : GroupingResult)
    : option (list GroupingResult) :=
  map (prefixed group) <$>
    applyGrouping (GroupingResult.cards group) grouping metadata collator.

(** The entries that one iteration of the loop writes: the group, then its
    children. *)
Definition register_expansion (hierarchy : gmap string GroupTreeEntry)
    (expansion : GroupingResult * list GroupingResult)
    : gmap string GroupTreeEntry :=
  foldl (λ h g, register h g (Some (GroupingResult.key expansion.1)))
    (register hierarchy expansion.1
       (parent_key (GroupingResult.key expansion.1)))
    expansion.2.

(** The groups that remain after expanding [data] along [groupings], one
    dimension after the other. *)
Fixpoint descend (groupings : list GroupingType) (metadata : Metadata)
    (collator : Collator) (data : list GroupingResult)
    : option (list GroupingResult) :=
  match groupings with
  | [] => Some data
  | grouping :: groupings' =>
      expanded ← mapM (expand grouping metadata collator) data;
      descend groupings' metadata collator (concat expanded)
  end.

(** The tree that the builder implies: a group, and under it the trees of
    its children along the remaining dimensions. *)
Local Unset Elimination Schemes.
Inductive GroupTree :=
  | Node (group : GroupingResult) (children : list GroupTree).
Local Set Elimination Schemes.

Fixpoint implied_tree (groupings : list GroupingType) (metadata : Metadata)
    (collator : Collator) (group : GroupingResult) : option GroupTree :=
  match groupings with
  | [] => Some (Node group [])
  | grouping :: groupings' =>
      expanded ← expand grouping metadata collator group;
      children ← mapM (implied_tree groupings' metadata collator) expanded;
      Some (Node group children)
  end.

(** The dimensions that the builder works with. *)
Definition effective (_groupings : list GroupingType) : list GroupingType :=
  if bool_decide (length _groupings ≠ 0) then _groupings else [G_none].

Definition implied_forest (_groupings : list GroupingType)
    (cards : list Card) (metadata : Metadata) (collator : Collator)
    : option (list GroupTree) :=
  first ← effective _groupings !! 0;
  data ← applyGrouping cards first metadata collator;
  mapM (implied_tree (drop 1 (effective _groupings)) metadata collator) data.

(** Pre-order traversal: a node, tagged with its depth, before its
    children, the children from left to right. *)
Fixpoint preorder (depth : nat) (tree : GroupTree)
    : list (nat * GroupingResult) :=
  match tree with
  | Node group children =>
      (depth, group) :: concat (map (preorder (S depth)) children)
  end.

(** The groups at a depth, in the order of the pre-order traversal. *)
Definition at_depth (depth : nat) (forest : list GroupTree)
    : list GroupingResult :=
  snd <$> filter (λ node, node.1 = depth) (concat (map (preorder 0) forest)).

(** The state after the passes along [groupings], written as a recursion
    on the dimensions. *)
Fixpoint build (groupings : list GroupingType) (metadata : Metadata)
    (collator : Collator)
    (state : list GroupingResult * gmap string GroupTreeEntry)
    : option (list GroupingResult * gmap string GroupTreeEntry) :=
  match groupings with
  | [] => Some state
  | grouping :: groupings' =>
      expanded ← mapM (expand grouping metadata collator) state.1;
      build groupings' metadata collator
        (concat expanded,
         foldl register_expansion state.2 (zip state.1 expanded))
  end.

(** The number of bars of a key: the depth of its group, less one, when no
    segment has a bar of its own. *)
Fixpoint bars (s : string) : nat :=
  match s with
  | EmptyString => 0
  | String c s' => (if bool_decide (c = bar) then 1 else 0) + bars s'
  end.

(** The entries of a hierarchy whose parent is [parent]. *)
Definition direct_children (hierarchy : gmap string GroupTreeEntry)
    (parent : string) : list GroupTreeEntry :=
  filter (λ entry, GroupTreeEntry.parent entry = Some parent)
    (map_to_list hierarchy).*2.

(** The sum of the counts of the direct children. *)
Definition children_count (hierarchy : gmap string GroupTreeEntry)
    (parent : string) : nat :=
  sum_list (GroupTreeEntry.count <$> direct_children hierarchy parent).

(** The entry of a group whose parent is the one that its key tells. *)
Definition entry_of (group : GroupingResult) : GroupTreeEntry :=
  GroupTreeEntry.mk (GroupingResult.key group) (GroupingResult.type group)
    (length (GroupingResult.cards group))
    (parent_key (GroupingResult.key group)).

Definition keyed_entry (group : GroupingResult) : string * GroupTreeEntry :=
  (GroupingResult.key group, entry_of group).

(** An expansion whose children carry the key of the group in front of a
    segment of their own, under keys that differ, and with the cards of the
    group shared out among them. *)
Definition good_expansion (expansion : GroupingResult * list GroupingResult)
    : Prop :=
  Forall (λ kid, ∃ segment,
            GroupingResult.key kid
            = GroupingResult.key expansion.1 +:+ "|" +:+ segment
            ∧ includes_bar segment = false) expansion.2
  ∧ NoDup (GroupingResult.key <$> expansion.2)
  ∧ sum_list ((λ kid, length (GroupingResult.cards kid)) <$> expansion.2)
    = length (GroupingResult.cards expansion.1).

(** The passes of a run from the groups [level]: every pass expands the
    groups that the pass before it left. *)
Fixpoint chained (level : list GroupingResult)
    (passes : list (list (GroupingResult * list GroupingResult))) : Prop :=
  match passes with
  | [] => True
  | pass :: passes' =>
      pass.*1 = level ∧ Forall good_expansion pass
      ∧ chained (concat pass.*2) passes'
  end.

(** The groups that the last pass leaves. *)
Fixpoint last_level (level : list GroupingResult)
    (passes : list (list (GroupingResult * list GroupingResult)))
    : list GroupingResult :=
  match passes with
  | [] => level
  | pass :: passes' => last_level (concat pass.*2) passes'
  end.

(** All the groups of a run. *)
Definition all_groups (level : list GroupingResult)
    (passes : list (list (GroupingResult * list GroupingResult)))
    : list GroupingResult :=
  level ++ concat ((λ pass, concat pass.*2) <$> passes).

(** Keys of one depth, all different. *)
Definition at_level (depth : nat) (level : list GroupingResult) : Prop :=
  NoDup (GroupingResult.key <$> level)
  ∧ Forall (λ g, bars (GroupingResult.key g) = depth) level.

Definition write {V} (m : gmap string V) (p : string * V) : gmap string V :=
  <[p.1 := p.2]> m.

(** The groups hold cards of the input [cards]. *)
Definition sound (cards : list Card) (group : GroupingResult) : Prop :=
  GroupingResult.cards group ⊆ cards.

(** [passes] are the passes of the builder along [groupings], from the
    groups [level]. *)
Fixpoint run_of (metadata : Metadata) (collator : Collator)
    (groupings : list GroupingType) (level : list GroupingResult)
    (passes : list (list (GroupingResult * list GroupingResult))) : Prop :=
  match groupings, passes with
  | [], [] => True
  | grouping :: groupings', pass :: passes' =>
      pass.*1 = level
      ∧ Forall (λ expansion,
          expand grouping metadata collator expansion.1 = Some expansion.2)
          pass
      ∧ run_of metadata collator groupings' (concat pass.*2) passes'
  | _, _ => False
  end.

(** The dimension types that label resolution has a case for. *)
Definition recognized (type : string) : Prop :=
  ∃ grouping, grouping_name grouping = type.

(** No group refers to the caller's array. *)
Definition owned (data : list GroupRef) : Prop :=
  Forall (λ g, GroupRef.cards g ≠ Passed) data.

(** The one group refers to the caller's array. *)
Definition aliased (data : list GroupRef) : Prop :=
  ∃ g, data = [g] ∧ GroupRef.cards g = Passed.

(** The groups that refer to the caller's array after the passes: the one
    group that there is, when every dimension is ["none"]. *)
Definition all_none (groupings : list GroupingType) : bool :=
  forallb (λ grouping, bool_decide (grouping = G_none)) groupings.

(** The state of the builder on arrays before the final sort. *)
Definition passes_ref (_groupings : list GroupingType) (passed : list Card)
    (metadata : Metadata) (collator : Collator)
    : option (list GroupRef * gmap string GroupTreeEntry) :=
  first ← effective _groupings !! 0;
  data ← applyGrouping_ref passed Passed first metadata collator;
  if bool_decide (1 < length (effective _groupings)) then
    reduce (expand_pass_ref passed metadata collator)
      (drop 1 (effective _groupings)) (data, ∅)
  else
    Some (data, foldl (λ h group, register_ref passed h group None) ∅ data).

(** The metadata that the specification asks of the caller: packs and
    cycles are filed under their own codes, the cycle of every pack is
    there, and so is the pack of every card. *)
Definition referential_integrity (metadata : Metadata) (cards : list Card)
    : Prop :=
  packs_keyed metadata
  ∧ (∀ code cycle,
       Metadata.cycles metadata !! code = Some cycle →
       Cycle.code cycle = code)
  ∧ (∀ code pack,
       Metadata.packs metadata !! code = Some pack →
       is_Some (Metadata.cycles metadata !! Pack.cycle_code pack))
  ∧ (∀ card, card ∈ cards →
       is_Some (Metadata.packs metadata !! Card.pack_code card)).

(** The strategy of the dimension reads, for the card, a property that the
    bucket object inherits. *)
Definition reads_inherited (grouping : GroupingType) (metadata : Metadata)
    (card : Card) : bool :=
  match grouping with
  | G_none | G_base_upgrades => false
  | G_subtype => subtype_throws card
  | _ => from_option inherited false (dimension_key grouping metadata card)
  end.

(** ** Specification of [omitEmptyGroupings] *)

(** The keys that the loop leaves: it looks at a key, takes it out when
    [keep] says no, and steps over the key after it without a look. *)
Fixpoint every_other {A} (keep : A → bool) (l : list A) : list A :=
  match l with
  | [] => []
  | a :: l' =>
      (if keep a then [a] else [])
      ++ match l' with
         | [] => []
         | b :: l'' => b :: every_other keep l''
         end
  end.

(** The keys that the loop takes out. *)
Fixpoint taken_out {A} (keep : A → bool) (l : list A) : list A :=
  match l with
  | [] => []
  | a :: l' =>
      (if keep a then [] else [a])
      ++ match l' with
         | [] => []
         | _ :: l'' => taken_out keep l''
         end
  end.

(** The bucket of the key holds a card. *)
Definition has_cards {K} `{Key K} (data : gmap string (list Card)) (key : K)
    : bool :=
  match data !! key_string key with
  | Some (_ :: _) => true
  | _ => false
  end.

(** [delete data[key]] for each of the keys. *)
Definition delete_keys {K} `{Key K} (data : gmap string (list Card))
    (keys : list K) : gmap string (list Card) :=
  foldl (λ d key, delete (key_string key) d) data keys.

(** ** Specification of the order of the groups *)

(** The position of the cycle of a code; 0 for a code without cycle. *)
Definition cycle_position (metadata : Metadata) (code : string) : Z :=
  from_option Cycle.position 0%Z (Metadata.cycles metadata !! code).

(** The position of the cycle of a pack, then its own. *)
Definition pack_rank (metadata : Metadata) (code : string) : Z * Z :=
  match Metadata.packs metadata !! code with
  | Some pack =>
      (cycle_position metadata (Pack.cycle_code pack), Pack.position pack)
  | None => (0%Z, 0%Z)
  end.

(** The order of pairs: by the first component, then by the second. *)
Definition lex_le (p q : Z * Z) : Prop :=
  (p.1 < q.1)%Z ∨ (p.1 = q.1 ∧ (p.2 ≤ q.2)%Z).

(** [sortNumerical] orders numbers as numbers: its result is negative
    when the first number is the smaller one, positive when it is the
    larger one, and 0 when the two are the same. *)
Definition numeric_order : Prop :=
  ∀ a b : Z,
    ((sortNumerical (Num a) (Num b) < 0)%Z ↔ (a < b)%Z)
    ∧ ((0 < sortNumerical (Num a) (Num b))%Z ↔ (b < a)%Z).

(** The integers that a number of the engine holds exactly, and that
    [toString] spells in decimal digits: those of magnitude below 2^53. *)
Definition safe_integer (n : Z) : Prop :=
  (-9007199254740991 ≤ n ≤ 9007199254740991)%Z.

(** The comparator is consistent: it tells the total preorder [R], a result
    that is not positive saying that the first argument may come first, and
    the results for a pair in its two orders have opposite signs. *)
Definition consistent_comparator {A} (R : relation A) (cmp : A → A → Z)
    : Prop :=
  (∀ a b, (cmp a b ≤ 0)%Z ↔ R a b)
  ∧ (∀ a b, (0 < cmp a b)%Z ↔ (cmp b a < 0)%Z).

(** The order of the keys of the level and cost dimensions: [none] in
    front, then the numbers as they grow. *)
Definition none_first (a b : string) : Prop :=
  a = NONE ∨ ∃ n m : Z, a = pretty n ∧ b = pretty m ∧ (n ≤ m)%Z.

(** The same order on the keys as the reducer has them. *)
Definition none_first_key (a b : NumOrString) : Prop :=
  a = Str NONE ∨ ∃ n m : Z, a = Num n ∧ b = Num m ∧ (n ≤ m)%Z.

(** The type of a group after the expansions along [groupings]. *)
Definition extended (type : string) (groupings : list GroupingType)
    : string :=
  foldl (λ t grouping, t +:+ "|" +:+ grouping_name grouping) type groupings.

(** Every entry is filed under the key that it records, and counts cards
    of the input. *)
Definition well_keyed (cards : list Card)
    (hierarchy : gmap string GroupTreeEntry) : Prop :=
  ∀ k entry, hierarchy !! k = Some entry →
    GroupTreeEntry.key entry = k
    ∧ GroupTreeEntry.count entry ≤ length cards.

(** The group lists cards of the input in the order of the input. *)
Definition within (cards : list Card) (group : GroupingResult) : Prop :=
  GroupingResult.cards group `sublist_of` cards.

(** Every group has an entry under its key. *)
Definition covers (data : list GroupingResult)
    (hierarchy : gmap string GroupTreeEntry) : Prop :=
  ∀ g, g ∈ data → is_Some (hierarchy !! GroupingResult.key g).

(** The segments of a card along the dimensions: its key under each. *)
Definition segments_along (metadata : Metadata) (card : Card)
    (groupings : list GroupingType) (segments : list string) : Prop :=
  Forall2 (λ grouping segment,
             dimension_key grouping metadata card = Some segment)
    groupings segments.

(** The cards of every group have the key of the group as the join of
    their segments along [groupings]. *)
Definition keyed_along (metadata : Metadata) (groupings : list GroupingType)
    (level : list GroupingResult) : Prop :=
  ∀ g c, g ∈ level → c ∈ GroupingResult.cards g →
    ∃ segments,
      segments_along metadata c groupings segments
      ∧ GroupingResult.key g = join_bar segments.

End Specification.

(** ** A host to evaluate the engine on *)

(** The property names of [Object.prototype]. *)
Definition object_prototype (name : string) : bool :=
  bool_decide (name ∈
    ["constructor"; "__proto__"; "hasOwnProperty"; "isPrototypeOf";
     "propertyIsEnumerable"; "toLocaleString"; "toString"; "valueOf";
     "__defineGetter__"; "__defineSetter__"; "__lookupGetter__";
     "__lookupSetter__"]).

(** A comparator that keeps the order it finds. *)
Definition keep_order {A} (a b : A) : Z := 0%Z.

(** A resolver that answers a key with the key, as [i18n.t] does for a key
    without translation. *)
Definition echo_key (key : string) (params : list (string * string))
    : string := key.

(** A [SortFunction]: by the code of the cards. *)
Definition by_code (a b : Card) : Z :=
  match String.compare (Card.code a) (Card.code b) with
  | Lt => (-1)%Z
  | Eq => 0%Z
  | Gt => 1%Z
  end.

(** The [name] of the values of [Object.prototype]: [Object] for the
    constructor, the name of the property for the other methods, and none
    for [__proto__], which reads the prototype itself. *)
Definition function_name (name : string) : option string :=
  if bool_decide (name = "constructor") then Some "Object"
  else if bool_decide (name = "__proto__") then None
  else Some name.

Definition plain_host : Host := {|
  inherited := object_prototype;
  Collator := unit;
  sortTypesByOrder := keep_order;
  sortByFactionOrder := keep_order;
  sortBySlots := λ _, keep_order;
  sortByEncounterSet := λ _ _, keep_order;
  sortNumerical := keep_order;
  i18n_t := echo_key;
  displayPackName := λ cycle, Cycle.code <$> cycle;
  shortenPackName := λ pack, Pack.code <$> pack;
  formatSlots := λ slots, slots;
  inherited_name := function_name;
  displayPackName_inherited := λ _, None;
  shortenPackName_inherited := λ _, None;
|}.

Definition empty_metadata : Metadata := Metadata.mk ∅ ∅ ∅.

(** A player card of the pack [core]. *)
Definition player_card (code type_code : string)
    (subtype_code : option string) (xp cost : option Z) : Card :=
  Card.mk code type_code "guardian" None subtype_code xp cost None "core"
    false None.

(** Two assets and an event, as in scenario A of the specification. *)
Definition asset_2 : Card := player_card "01001" "asset" None (Some 0%Z) (Some 2%Z).
Definition event_2 : Card := player_card "01002" "event" None (Some 3%Z) (Some 2%Z).
Definition asset_free : Card := player_card "01003" "asset" None None None.

Definition scenario_A : list Card := [asset_2; event_2; asset_free].

Definition scenario_A_by_type : list GroupingResult :=
  [GroupingResult.mk [asset_2; asset_free] "asset" "type";
   GroupingResult.mk [event_2] "event" "type"].

Definition scenario_A_by_level0 : list GroupingResult :=
  [GroupingResult.mk [asset_2; asset_free] "level0" "base_upgrades";
   GroupingResult.mk [event_2] "upgrade" "base_upgrades"].

Definition scenario_A_result : GroupedCards :=
  GroupedCards.mk
    [GroupingResult.mk [asset_free] "asset|none" "type|cost";
     GroupingResult.mk [asset_2] "asset|2" "type|cost";
     GroupingResult.mk [event_2] "event|2" "type|cost"]
    (list_to_map
       [("asset", GroupTreeEntry.mk "asset" "type" 2 None);
        ("asset|none",
         GroupTreeEntry.mk "asset|none" "type|cost" 1 (Some "asset"));
        ("asset|2", GroupTreeEntry.mk "asset|2" "type|cost" 1 (Some "asset"));
        ("event", GroupTreeEntry.mk "event" "type" 1 None);
        ("event|2", GroupTreeEntry.mk "event|2" "type|cost" 1 (Some "event"))]).

(** Three assets: without subtype, a weakness, and of a subtype that is no
    bucket, as in scenario D of the specification. *)
Definition plain_asset : Card := player_card "02001" "asset" None None None.
Definition weakness_asset : Card :=
  player_card "02002" "asset" (Some "weakness") None None.
Definition rare_asset : Card :=
  player_card "02003" "asset" (Some "ultra-rare") None None.

Definition scenario_D : list Card := [plain_asset; weakness_asset; rare_asset].

Definition scenario_D_by_subtype : list GroupingResult :=
  [GroupingResult.mk [plain_asset] "none" "subtype";
   GroupingResult.mk [weakness_asset] "weakness" "subtype"].

(** An encounter card of the pack [abc], and metadata with the reprint pack
    [abcc] of its cycle, as in scenario C of the specification. *)
Definition encounter_card : Card :=
  Card.mk "03001" "enemy" "mythos" None None None None (Some "rats") "abc"
    false None.

Definition scenario_C_metadata : Metadata :=
  Metadata.mk
    (<["abcc" := Pack.mk "abcc" "abc" 2 true]>
       (<["abc" := Pack.mk "abc" "abc" 1 false]> ∅))
    (<["abc" := Cycle.mk "abc" 1]> ∅)
    ∅.

(** Two cards, out of the order of their codes. *)
Definition card_b : Card := player_card "b" "asset" None None None.
Definition card_a : Card := player_card "a" "event" None None None.

(** [sortNumerical] as the difference of two numbers. *)
Definition numerical (a b : NumOrString) : Z :=
  match a, b with
  | Num n, Num m => (n - m)%Z
  | _, _ => 0%Z
  end.

(** The plain host, with that [sortNumerical]. *)
Definition numeric_host : Host := {|
  inherited := object_prototype;
  Collator := unit;
  sortTypesByOrder := keep_order;
  sortByFactionOrder := keep_order;
  sortBySlots := λ _, keep_order;
  sortByEncounterSet := λ _ _, keep_order;
  sortNumerical := numerical;
  i18n_t := echo_key;
  displayPackName := λ cycle, Cycle.code <$> cycle;
  shortenPackName := λ pack, Pack.code <$> pack;
  formatSlots := λ slots, slots;
  inherited_name := function_name;
  displayPackName_inherited := λ _, None;
  shortenPackName_inherited := λ _, None;
|}.

(** A grouping of three keys: [a] and [b] without cards, [c] with one. *)
Definition three_keys : Grouping string :=
  Grouping.mk (<["c" := [asset_2]]> (<["b" := []]> (<["a" := []]> ∅)))
    ["a"; "b"; "c"] G_type.

(** An asset for a hand, and a permanent asset of two factions. *)
Definition hand_asset : Card :=
  Card.mk "06001" "asset" "seeker" None None None None None "core" false
    (Some "Hand").
Definition permanent_asset : Card :=
  Card.mk "06002" "asset" "rogue" (Some "seeker") None None None None "core"
    true (Some "Hand").

(** Metadata with the packs and cycles [core] and [abc], [core] in front. *)
Definition scenario_E_metadata : Metadata :=
  Metadata.mk
    (<["abc" := Pack.mk "abc" "abc" 1 false]>
       (<["core" := Pack.mk "core" "core" 1 false]> ∅))
    (<["abc" := Cycle.mk "abc" 2]> (<["core" := Cycle.mk "core" 1]> ∅))
    ∅.

(** The cards of scenario A by type alone. *)
Definition scenario_A_flat : GroupedCards :=
  GroupedCards.mk scenario_A_by_type
    (list_to_map
       [("asset", GroupTreeEntry.mk "asset" "type" 2 None);
        ("event", GroupTreeEntry.mk "event" "type" 1 None)]).

(** A [SortFunction]: by the cost of the cards, a card without cost in
    front. *)
Definition cost_of (card : Card) : Z := default 0%Z (Card.cost card).
Definition by_cost (a b : Card) : Z := (cost_of a - cost_of b)%Z.

(** The cards of scenario A by type alone, the cards of a leaf by cost. *)
Definition scenario_A_by_cost : GroupedCards :=
  GroupedCards.mk
    [GroupingResult.mk [asset_free; asset_2] "asset" "type";
     GroupingResult.mk [event_2] "event" "type"]
    (list_to_map
       [("asset", GroupTreeEntry.mk "asset" "type" 2 None);
        ("event", GroupTreeEntry.mk "event" "type" 1 None)]).

(** ** Sorting *)

Lemma sort_insert_Permutation {A} (cmp : A → A → option Z) x l l' :
  sort_insert cmp x l = Some l' → l' ≡ₚ x :: l.
Proof.
  revert l'. induction l as [|y l IH]; intros l' Hs; simpl in Hs.
  - by simplify_eq.
  - destruct (cmp y x) as [c|]; simplify_option_eq; [|done].
    rewrite (IH _ eq_refl). apply Permutation_swap.
Qed.

Lemma sort_Permutation {A} (cmp : A → A → option Z) l l' :
  sort cmp l = Some l' → l' ≡ₚ l.
Proof.
  revert l'. induction l as [|x l IH]; intros l' Hs; simpl in Hs.
  - by simplify_eq.
  - destruct (sort cmp l) as [s|]; simplify_option_eq.
    apply sort_insert_Permutation in Hs. rewrite Hs. by rewrite (IH _ eq_refl).
Qed.

Lemma sort_insert_pure {A} (cmp : A → A → Z) x l :
  sort_insert (pure_cmp cmp) x l = Some (sort_insert_total cmp x l).
Proof.
  induction l as [|y l IH]; simpl; [done|].
  case_bool_decide; [|done]. by rewrite IH.
Qed.

Lemma sort_pure {A} (cmp : A → A → Z) l :
  sort (pure_cmp cmp) l = Some (sort_total cmp l).
Proof.
  induction l as [|x l IH]; simpl; [done|].
  rewrite IH. simpl. apply sort_insert_pure.
Qed.

Lemma sort_total_Permutation {A} (cmp : A → A → Z) l : sort_total cmp l ≡ₚ l.
Proof. apply (sort_Permutation (pure_cmp cmp)), sort_pure. Qed.

Lemma sort_total_length {A} (cmp : A → A → Z) l :
  length (sort_total cmp l) = length l.
Proof. by rewrite sort_total_Permutation. Qed.

(** ** Partitions by a key *)

(** The cards of a list fall apart into the sublists of the cards of each
    key, when the keys are listed once each. *)
Lemma partition_Permutation {A} (name : A → option string) (names : list string)
    (l : list A) :
  NoDup names →
  (∀ x, x ∈ l → ∃ n, name x = Some n ∧ n ∈ names) →
  concat (map (λ n, filter (λ x, name x = Some n) l) names) ≡ₚ l.
Proof.
  intros Hnd. revert l. induction Hnd as [|n names Hn Hnd IH]; intros l Hl.
  - destruct l as [|x l]; [done|].
    destruct (Hl x) as (n & _ & Hn); [left|]. by apply elem_of_nil in Hn.
  - simpl. trans (filter (λ x, name x = Some n) l
                   ++ filter (λ x, ¬ name x = Some n) l);
      [|apply filter_app_complement].
    apply Permutation_app; [done|].
    rewrite <-(IH (filter (λ x, ¬ name x = Some n) l)).
    + apply reflexive_eq. f_equal. apply map_ext_in. intros n' Hn'%list_elem_of_In.
      rewrite list_filter_filter. apply list_filter_iff. intros x. split; [|tauto].
      intros Hx. split; [done|]. intros ?. congruence.
    + intros x [Hx1 Hx2]%list_elem_of_filter.
      destruct (Hl x Hx2) as (n' & Hn1 & Hn2). exists n'. split; [done|].
      apply elem_of_cons in Hn2 as [->|]; [done|done].
Qed.

Section Properties.
Context `{Host}.

(** ** [omitEmptyGroupings] *)

(** On a grouping without an empty bucket the loop changes nothing. *)
Lemma omitEmptyGroupings_from_nonempty {K} `{Key K} (g : Grouping K) fuel i :
  (∀ k, k ∈ Grouping.groupings g →
     ∃ cs, Grouping.data g !! key_string k = Some cs ∧ cs ≠ []) →
  length (Grouping.groupings g) - i ≤ fuel →
  omitEmptyGroupings_from fuel g i = Some g.
Proof.
  intros Hg. revert i. induction fuel as [|fuel IH]; intros i Hi; simpl.
  - rewrite bool_decide_eq_false_2; [done|lia].
  - case_bool_decide as Hlt; [|done].
    destruct (lookup_lt_is_Some_2 _ _ Hlt) as [k Hk]. rewrite Hk. simpl.
    destruct (Hg k) as (cs & -> & Hcs); [by eapply list_elem_of_lookup_2|].
    simpl. rewrite bool_decide_eq_false_2; [|by destruct cs].
    apply IH. lia.
Qed.

Lemma omitEmptyGroupings_nonempty {K} `{Key K} (g : Grouping K) :
  (∀ k, k ∈ Grouping.groupings g →
     ∃ cs, Grouping.data g !! key_string k = Some cs ∧ cs ≠ []) →
  omitEmptyGroupings g = Some g.
Proof. intros. apply omitEmptyGroupings_from_nonempty; [done|lia]. Qed.

(** ** The reducers that create their buckets on demand *)

Section bucket_reducer.
Context {K} `{Key K}.
Variable bucket : Card → option K.

Lemma bucketed_init ty : bucketed bucket [] (Grouping.mk ∅ [] ty).
Proof.
  split; simpl.
  - constructor.
  - intros name. rewrite lookup_empty. split; [by intros ?%elem_of_nil|].
    by intros [? ?].
  - intros name cs. by rewrite lookup_empty.
  - by intros c ?%elem_of_nil.
Qed.

Lemma bucketed_step processed g card g' :
  bucketed bucket processed g →
  bucket_step bucket g card = Some g' →
  bucketed bucket (processed ++ [card]) g' ∧ Grouping.type g' = Grouping.type g.
Proof.
  intros [Hnd Hdom Hdata Hall]. unfold bucket_step, push_or_create, get_property.
  destruct (bucket card) as [code|] eqn:Hcode; [simpl|done].
  assert (bucket_name bucket card = Some (key_string code)) as Hname.
  { unfold bucket_name. by rewrite Hcode. }
  destruct (Grouping.data g !! key_string code) as [cs|] eqn:Hcs.
  - (* the bucket is there *)
    intros [= <-]. split; [|done]. split; simpl.
    + done.
    + intros name. rewrite Hdom. destruct (decide (name = key_string code)) as [->|].
      * rewrite lookup_insert_eq, Hcs. by split.
      * by rewrite lookup_insert_ne.
    + intros name cs'. destruct (decide (name = key_string code)) as [->|Hne].
      * rewrite lookup_insert_eq. intros [= <-].
        destruct (Hdata _ _ Hcs) as [_ ->]. split; [by destruct (filter _ _)|].
        rewrite filter_app. f_equal. rewrite filter_cons_True; done.
      * rewrite lookup_insert_ne by done. intros [? ->]%Hdata. split; [done|].
        rewrite filter_app, filter_cons_False, filter_nil, app_nil_r; [done|].
        rewrite Hname. congruence.
    + intros c [Hc|Hc%list_elem_of_singleton]%elem_of_app; [|subst c].
      * destruct (Hall c Hc) as (name & Hn & Hs). exists name. split; [done|].
        destruct (decide (name = key_string code)) as [->|].
        -- by rewrite lookup_insert_eq.
        -- by rewrite lookup_insert_ne.
      * exists (key_string code). by rewrite lookup_insert_eq.
  - (* the bucket is created *)
    destruct (inherited (key_string code)); [done|].
    intros [= <-]. split; [|done].
    assert (key_string code ∉ key_string <$> Grouping.groupings g) as Hfresh.
    { rewrite Hdom, Hcs. by intros [? ?]. }
    split; simpl.
    + rewrite fmap_app. apply NoDup_app. split_and!; [done| |apply NoDup_singleton].
      intros name Hn Hn'%list_elem_of_singleton. by subst name.
    + intros name. rewrite fmap_app, elem_of_app, Hdom. simpl.
      rewrite list_elem_of_singleton.
      destruct (decide (name = key_string code)) as [->|].
      * rewrite lookup_insert_eq. split; [done|]. by right.
      * rewrite lookup_insert_ne by done. split; [by intros [|]|by left].
    + intros name cs'. destruct (decide (name = key_string code)) as [->|Hne].
      * rewrite lookup_insert_eq. intros [= <-]. split; [done|].
        rewrite filter_app, filter_cons_True, filter_nil by done.
        assert (filter (λ c, bucket_name bucket c = Some (key_string code)) processed = [])
          as ->; [|done].
        destruct (filter _ processed) as [|c l] eqn:Hf; [done|].
        assert (c ∈ filter (λ c, bucket_name bucket c = Some (key_string code)) processed)
          as [Hc1 Hc2]%list_elem_of_filter by (rewrite Hf; left).
        destruct (Hall c Hc2) as (name & Hn & Hs).
        rewrite Hc1 in Hn. simplify_eq. rewrite Hcs in Hs. by destruct Hs.
      * rewrite lookup_insert_ne by done. intros [? ->]%Hdata. split; [done|].
        rewrite filter_app, filter_cons_False, filter_nil, app_nil_r; [done|].
        rewrite Hname. congruence.
    + intros c [Hc|Hc%list_elem_of_singleton]%elem_of_app; [|subst c].
      * destruct (Hall c Hc) as (name & Hn & Hs). exists name. split; [done|].
        destruct (decide (name = key_string code)) as [->|].
        -- by rewrite lookup_insert_eq.
        -- by rewrite lookup_insert_ne.
      * exists (key_string code). by rewrite lookup_insert_eq.
Qed.

Lemma bucketed_reduce cards processed g g' :
  bucketed bucket processed g →
  reduce (bucket_step bucket) cards g = Some g' →
  bucketed bucket (processed ++ cards) g' ∧ Grouping.type g' = Grouping.type g.
Proof.
  revert processed g. induction cards as [|card cards IH]; intros processed g Hg; simpl.
  - intros [= <-]. by rewrite app_nil_r.
  - destruct (bucket_step bucket g card) as [g1|] eqn:Hstep; [simpl|done].
    destruct (bucketed_step _ _ _ _ Hg Hstep) as [Hg1 <-].
    intros Hred. destruct (IH _ _ Hg1 Hred) as [Hg' ->].
    by rewrite <-app_assoc in Hg'.
Qed.

(** The reducer throws exactly when some card has no bucket or a bucket
    whose name is inherited. *)
Lemma bucketed_reduce_is_Some cards processed g :
  bucketed bucket processed g →
  (∀ c, c ∈ cards → ∃ k, bucket c = Some k ∧ inherited (key_string k) = false) →
  is_Some (reduce (bucket_step bucket) cards g).
Proof.
  revert processed g. induction cards as [|card cards IH]; intros processed g Hg Hc; simpl.
  - done.
  - destruct (Hc card) as (k & Hk & Hi); [left|].
    assert (is_Some (bucket_step bucket g card)) as [g1 Hstep].
    { unfold bucket_step, push_or_create, get_property. rewrite Hk. simpl.
      destruct (Grouping.data g !! key_string k); [done|]. by rewrite Hi. }
    rewrite Hstep. simpl. destruct (bucketed_step _ _ _ _ Hg Hstep) as [Hg1 _].
    eapply IH; [done|]. intros c Hin. apply Hc. by right.
Qed.

End bucket_reducer.

Lemma reduce_ext {A B} (f g : B → A → option B) l init :
  (∀ acc x, f acc x = g acc x) → reduce f l init = reduce g l init.
Proof.
  intros Hfg. revert init. induction l as [|x l IH]; intros init; simpl; [done|].
  rewrite Hfg. destruct (g init x); simpl; [apply IH|done].
Qed.

(** ** [toGroupingResult] *)

Lemma toGroupingResult_Some {K} `{Key K} (g : Grouping K) res :
  toGroupingResult g = Some res →
  GroupingResult.key <$> res = key_string <$> Grouping.groupings g
  ∧ ∀ r, r ∈ res →
      Grouping.data g !! GroupingResult.key r = Some (GroupingResult.cards r)
      ∧ GroupingResult.type r = grouping_name (Grouping.type g).
Proof.
  unfold toGroupingResult. intros Hm%mapM_Some.
  induction Hm as [|k r ks res' Hk _ [IH1 IH2]]; [split; [done|]|].
  { by intros r ?%elem_of_nil. }
  destruct (Grouping.data g !! key_string k) as [cs|] eqn:Hcs;
    simplify_option_eq.
  split; [by rewrite IH1|].
  intros r [->|Hr]%elem_of_cons; [done|by apply IH2].
Qed.

Lemma toGroupingResult_is_Some {K} `{Key K} (g : Grouping K) :
  (∀ k, k ∈ Grouping.groupings g → is_Some (Grouping.data g !! key_string k)) →
  is_Some (toGroupingResult g).
Proof.
  intros Hg. unfold toGroupingResult. apply mapM_is_Some, Forall_forall.
  intros k Hk. destruct (Hg k Hk) as [cs Hcs]. simpl. by rewrite Hcs.
Qed.

(** ** Stable partitions *)

Lemma partitions_by_Permutation name cards res :
  partitions_by name cards res →
  concat (GroupingResult.cards <$> res) ≡ₚ cards.
Proof.
  intros [Hnd Hcards Hall].
  rewrite <-(partition_Permutation name (GroupingResult.key <$> res) cards).
  - apply reflexive_eq. f_equal. rewrite <-list_fmap_compose.
    apply list_fmap_ext. intros i g Hg. simpl. apply Hcards.
    by eapply list_elem_of_lookup_2.
  - done.
  - intros c Hc. destruct (Hall c Hc) as (g & Hg & Hn).
    exists (GroupingResult.key g). split; [done|]. by apply list_elem_of_fmap_2.
Qed.

Lemma group_by_key_partitions {K} `{Key K} (bucket : Card → option K) cmp ty
    cards res :
  group_by_key bucket cmp ty cards = Some res →
  partitions_by (bucket_name bucket) cards res
  ∧ Forall (λ g, GroupingResult.cards g ≠ []) res
  ∧ Forall (λ g, GroupingResult.type g = grouping_name ty) res.
Proof.
  unfold group_by_key.
  destruct (reduce _ cards _) as [g1|] eqn:Hred; [simpl|done].
  destruct (bucketed_reduce bucket cards [] _ _ (bucketed_init bucket ty) Hred)
    as [[Hnd Hdom Hdata Hall] Hty]. simpl in *.
  rewrite omitEmptyGroupings_nonempty; last first.
  { intros k Hk.
    destruct (proj1 (Hdom (key_string k))) as [cs Hcs];
      [by apply list_elem_of_fmap_2|].
    exists cs. split; [done|]. by apply (Hdata _ _ Hcs). }
  simpl. unfold sort_groupings.
  destruct (sort cmp _) as [ks|] eqn:Hsort; [simpl|done].
  apply sort_Permutation in Hsort.
  intros [Hkeys Hg]%toGroupingResult_Some. simpl in Hkeys, Hg.
  split_and!; [split|..].
  - rewrite Hkeys, Hsort. done.
  - intros g [Hd _]%Hg. by apply (Hdata _ _ Hd).
  - intros c Hc. destruct (Hall c Hc) as (name & Hn & Hs).
    apply Hdom in Hs. rewrite <-Hsort, <-Hkeys in Hs.
    apply list_elem_of_fmap in Hs as (g & -> & Hg'). by exists g.
  - apply Forall_forall. intros g [Hd _]%Hg. by apply (Hdata _ _ Hd).
  - apply Forall_forall. intros g Hg'. rewrite <-Hty. by apply Hg.
Qed.

(** ** The two strategies with fixed buckets *)

Lemma base_upgrades_reduce cards l0 l1 ty :
  reduce (λ acc card,
      if negb (truthy_number (Card.xp card))
      then push_existing acc LEVEL_0 card
      else push_existing acc UPGRADE card)
    cards
    (Grouping.mk (K:=string) (<[UPGRADE := l1]> (<[LEVEL_0 := l0]> ∅))
       [LEVEL_0; UPGRADE] ty)
  = Some (Grouping.mk
       (<[UPGRADE := l1 ++ filter (λ c, ¬ level0 c) cards]>
          (<[LEVEL_0 := l0 ++ filter level0 cards]> ∅))
       [LEVEL_0; UPGRADE] ty).
Proof.
  revert l0 l1. induction cards as [|card cards IH]; intros l0 l1; simpl.
  - by rewrite !filter_nil, !app_nil_r.
  - unfold push_existing, get_property. simpl.
    destruct (truthy_number (Card.xp card)) eqn:Hxp; simpl.
    + rewrite lookup_insert_eq. simpl. rewrite insert_insert_eq.
      rewrite IH. rewrite (filter_cons_False level0) by (unfold level0; congruence).
      rewrite (filter_cons_True (λ c, ¬ level0 c)) by (unfold level0; congruence).
      by rewrite <-app_assoc.
    + rewrite lookup_insert_ne, lookup_insert_eq by done. simpl.
      rewrite (insert_insert_ne _ LEVEL_0 UPGRADE) by done.
      rewrite insert_insert_eq. rewrite IH.
      rewrite (filter_cons_True level0) by done.
      rewrite (filter_cons_False (λ c, ¬ level0 c)) by (unfold level0; tauto).
      by rewrite <-app_assoc.
Qed.

(** The closed form of [groupByLevel0VsUpgrade]: the [level0] bucket is
    dropped when it is empty, the [upgrade] bucket is never looked at. *)
Lemma groupByLevel0VsUpgrade_eq cards :
  groupByLevel0VsUpgrade cards
  = Some (
      (if decide (filter level0 cards = []) then []
       else [GroupingResult.mk (filter level0 cards) LEVEL_0 "base_upgrades"])
      ++ [GroupingResult.mk (filter (λ c, ¬ level0 c) cards) UPGRADE
            "base_upgrades"]).
Proof.
  unfold groupByLevel0VsUpgrade. rewrite base_upgrades_reduce. simpl.
  unfold omitEmptyGroupings. simpl.
  rewrite lookup_insert_ne, lookup_insert_eq by done. simpl.
  destruct (decide (filter level0 cards = [])) as [->|Hne]; simpl.
  - unfold toGroupingResult. simpl.
    rewrite lookup_delete_ne, lookup_insert_eq by done. reflexivity.
  - rewrite bool_decide_eq_false_2 by (by destruct (filter level0 cards)).
    simpl. unfold toGroupingResult. simpl.
    unfold key_string, string_Key.
    rewrite (lookup_insert_ne _ UPGRADE LEVEL_0), !lookup_insert_eq by done.
    reflexivity.
Qed.

Section subtype_buckets.

Local Arguments subtype_data : simpl never.
Local Arguments subtype_of : simpl never.

Lemma subtype_data_lookup n w b name :
  subtype_data n w b !! name =
    if decide (name = NONE) then Some n
    else if decide (name = "weakness") then Some w
    else if decide (name = "basicweakness") then Some b
    else None.
Proof.
  unfold subtype_data, NONE. repeat case_decide; by simplify_map_eq.
Qed.

Lemma subtype_data_insert_NONE n w b n' :
  <[NONE := n']> (subtype_data n w b) = subtype_data n' w b.
Proof.
  unfold subtype_data, NONE.
  rewrite (insert_insert_ne _ "none" "basicweakness") by done.
  rewrite (insert_insert_ne _ "none" "weakness") by done.
  by rewrite insert_insert_eq.
Qed.

Lemma subtype_data_insert_weakness n w b w' :
  <["weakness" := w']> (subtype_data n w b) = subtype_data n w' b.
Proof.
  unfold subtype_data, NONE.
  rewrite (insert_insert_ne _ "weakness" "basicweakness") by done.
  by rewrite insert_insert_eq.
Qed.

Lemma subtype_data_insert_basicweakness n w b b' :
  <["basicweakness" := b']> (subtype_data n w b) = subtype_data n w b'.
Proof. unfold subtype_data. by rewrite insert_insert_eq. Qed.

Lemma subtype_step_eq card n w b ty :
  subtype_step (Grouping.mk (subtype_data n w b) fixed_subtypes ty) card
  = if subtype_throws card then None
    else Some (Grouping.mk
      (subtype_data
         (n ++ filter (λ c, subtype_of c = NONE) [card])
         (w ++ filter (λ c, subtype_of c = "weakness") [card])
         (b ++ filter (λ c, subtype_of c = "basicweakness") [card]))
      fixed_subtypes ty).
Proof.
  unfold subtype_step, push_existing, get_property, subtype_throws.
  fold (subtype_of card). unfold key_string, string_Key. cbn [Grouping.data].
  rewrite subtype_data_lookup.
  destruct (decide (subtype_of card = NONE)) as [Hs|Hn].
  { rewrite bool_decide_eq_false_2; last first.
    { rewrite Hs. intros Hx. apply Hx. unfold fixed_subtypes.
      rewrite !elem_of_cons. auto. }
    simpl. rewrite Hs, subtype_data_insert_NONE.
    rewrite (filter_cons_True (λ c, subtype_of c = NONE)) by done.
    rewrite !filter_cons_False by (rewrite Hs; done).
    by rewrite !filter_nil, !app_nil_r. }
  destruct (decide (subtype_of card = "weakness")) as [Hs|Hw].
  { rewrite bool_decide_eq_false_2; last first.
    { rewrite Hs. intros Hx. apply Hx. unfold fixed_subtypes.
      rewrite !elem_of_cons. auto. }
    simpl. rewrite Hs, subtype_data_insert_weakness.
    rewrite (filter_cons_True (λ c, subtype_of c = "weakness")) by done.
    rewrite !filter_cons_False by (rewrite Hs; done).
    by rewrite !filter_nil, !app_nil_r. }
  destruct (decide (subtype_of card = "basicweakness")) as [Hs|Hb].
  { rewrite bool_decide_eq_false_2; last first.
    { rewrite Hs. intros Hx. apply Hx. unfold fixed_subtypes.
      rewrite !elem_of_cons. auto. }
    simpl. rewrite Hs, subtype_data_insert_basicweakness.
    rewrite (filter_cons_True (λ c, subtype_of c = "basicweakness")) by done.
    rewrite !filter_cons_False by (rewrite Hs; done).
    by rewrite !filter_nil, !app_nil_r. }
  rewrite bool_decide_eq_true_2; last first.
  { unfold fixed_subtypes. rewrite !not_elem_of_cons.
    split_and!; [done..|apply not_elem_of_nil]. }
  simpl. destruct (inherited (subtype_of card)); simpl; [done|].
  rewrite !filter_cons_False by done. by rewrite !filter_nil, !app_nil_r.
Qed.

Lemma subtype_reduce cards n w b ty :
  reduce subtype_step cards
    (Grouping.mk (subtype_data n w b) fixed_subtypes ty)
  = if existsb subtype_throws cards then None
    else Some (Grouping.mk
      (subtype_data
         (n ++ filter (λ c, subtype_of c = NONE) cards)
         (w ++ filter (λ c, subtype_of c = "weakness") cards)
         (b ++ filter (λ c, subtype_of c = "basicweakness") cards))
      fixed_subtypes ty).
Proof.
  revert n w b.
  induction cards as [|card cards IH]; intros n w b; cbn [reduce existsb].
  - by rewrite !filter_nil, !app_nil_r.
  - rewrite subtype_step_eq. destruct (subtype_throws card); [done|].
    cbn [mbind option_bind orb]. rewrite IH.
    destruct (existsb subtype_throws cards); [done|].
    rewrite <-!app_assoc, <-!filter_app. done.
Qed.

(** The closed form of [groupBySubtypeCode]: the [NONE] and [basicweakness]
    buckets are dropped when they are empty, the [weakness] bucket is never
    looked at; the cards of any other subtype are in no bucket. *)
Lemma groupBySubtypeCode_eq cards :
  groupBySubtypeCode cards
  = if existsb subtype_throws cards then None
    else Some (
      (if decide (filter (λ c, subtype_of c = NONE) cards = []) then []
       else [GroupingResult.mk (filter (λ c, subtype_of c = NONE) cards)
               NONE "subtype"])
      ++ [GroupingResult.mk (filter (λ c, subtype_of c = "weakness") cards)
            "weakness" "subtype"]
      ++ (if decide (filter (λ c, subtype_of c = "basicweakness") cards = [])
          then []
          else [GroupingResult.mk
                  (filter (λ c, subtype_of c = "basicweakness") cards)
                  "basicweakness" "subtype"])).
Proof.
  unfold groupBySubtypeCode.
  change (reduce _ cards _) with
    (reduce subtype_step cards
       (Grouping.mk (subtype_data [] [] []) fixed_subtypes G_subtype)).
  rewrite subtype_reduce. destruct (existsb subtype_throws cards); [done|].
  rewrite !app_nil_l. cbn [mbind option_bind].
  generalize (filter (λ c, subtype_of c = NONE) cards) as n.
  generalize (filter (λ c, subtype_of c = "weakness") cards) as w.
  generalize (filter (λ c, subtype_of c = "basicweakness") cards) as b.
  intros [|cb b] w [|cn n]; vm_compute; reflexivity.
Qed.

End subtype_buckets.

(** ** The partition that [applyGrouping] returns *)

Lemma partitions_by_ext name name' cards res :
  (∀ c, name c = name' c) →
  partitions_by name cards res → partitions_by name' cards res.
Proof.
  intros Hn [Hnd Hcards Hall]. split; [done|..].
  - intros g Hg. rewrite (Hcards g Hg). apply list_filter_iff.
    intros c. by rewrite Hn.
  - intros c Hc. destruct (Hall c Hc) as (g & ? & ?). exists g.
    by rewrite <-Hn.
Qed.

Lemma filter_all {A} (P : A → Prop) `{∀ x, Decision (P x)} (l : list A) :
  (∀ x, x ∈ l → P x) → filter P l = l.
Proof.
  induction l as [|x l IH]; intros Hl; [done|].
  rewrite filter_cons_True by (apply Hl; left).
  f_equal. apply IH. intros y Hy. apply Hl. by right.
Qed.

(** The strategies on demand are instances of [group_by_key]. *)
Lemma groupByTypeCode_eq cards :
  groupByTypeCode cards
  = group_by_key (λ c, Some (Card.type_code c)) (pure_cmp sortTypesByOrder)
      G_type cards.
Proof. reflexivity. Qed.

Lemma groupBySlots_eq cards collator :
  groupBySlots cards collator
  = group_by_key
      (λ c, Some (if Card.permanent c then "permanent"
                  else default NONE (Card.real_slot c)))
      (pure_cmp (sortBySlots collator)) G_slot cards.
Proof. reflexivity. Qed.

Lemma groupByLevel_eq cards :
  groupByLevel cards
  = group_by_key (λ c, Some (from_option Num (Str NONE) (Card.xp c)))
      (pure_cmp compare_none_first) G_level cards.
Proof. reflexivity. Qed.

Lemma groupByFaction_eq cards :
  groupByFaction cards
  = group_by_key
      (λ c, Some (if truthy_string (Card.faction2_code c) then "multiclass"
                  else Card.faction_code c))
      (pure_cmp sortByFactionOrder) G_faction cards.
Proof. reflexivity. Qed.

Lemma groupByEncounterSet_eq cards metadata collator :
  groupByEncounterSet cards metadata collator
  = group_by_key (λ c, Some (default NONE (Card.encounter_code c)))
      (pure_cmp (sortByEncounterSet metadata collator)) G_encounter_set cards.
Proof. reflexivity. Qed.

Lemma groupByCost_eq cards :
  groupByCost cards
  = group_by_key (λ c, Some (from_option Num (Str NONE) (Card.cost c)))
      (pure_cmp compare_none_first) G_cost cards.
Proof. reflexivity. Qed.

Lemma groupByCycle_eq cards metadata :
  groupByCycle cards metadata
  = group_by_key (dimension_key G_cycle metadata) (compare_cycles metadata)
      G_cycle cards.
Proof.
  unfold groupByCycle, group_by_key. f_equal.
  apply reduce_ext. intros acc card. unfold bucket_step. simpl.
  destruct (Metadata.packs metadata !! Card.pack_code card) as [pack|];
    [simpl|done].
  by destruct (Metadata.cycles metadata !! Pack.cycle_code pack).
Qed.

Lemma groupByPack_eq cards metadata :
  groupByPack cards metadata
  = group_by_key (pack_bucket metadata) (compare_packs metadata) G_pack cards.
Proof. reflexivity. Qed.

Lemma applyGrouping_on_demand cards grouping metadata collator res :
  on_demand grouping →
  applyGrouping cards grouping metadata collator = Some res →
  partitions_by (dimension_key grouping metadata) cards res
  ∧ Forall (λ g, GroupingResult.cards g ≠ []) res
  ∧ Forall (λ g, GroupingResult.type g = grouping_name grouping) res.
Proof.
  intros Hd Hres. unfold on_demand in Hd. rewrite !not_elem_of_cons in Hd.
  destruct grouping; simpl in Hres; try (by destruct Hd as (? & ? & ? & _)).
  - rewrite groupByTypeCode_eq in Hres.
    by apply group_by_key_partitions in Hres.
  - rewrite groupBySlots_eq in Hres.
    by apply group_by_key_partitions in Hres.
  - rewrite groupByLevel_eq in Hres.
    apply group_by_key_partitions in Hres as (Hp & ? & ?). split; [|done].
    eapply partitions_by_ext; [|done]. intros c. unfold bucket_name. simpl.
    by destruct (Card.xp c).
  - rewrite groupByFaction_eq in Hres.
    by apply group_by_key_partitions in Hres.
  - rewrite groupByEncounterSet_eq in Hres.
    by apply group_by_key_partitions in Hres.
  - rewrite groupByCost_eq in Hres.
    apply group_by_key_partitions in Hres as (Hp & ? & ?). split; [|done].
    eapply partitions_by_ext; [|done]. intros c. unfold bucket_name. simpl.
    by destruct (Card.cost c).
  - rewrite groupByCycle_eq in Hres.
    apply group_by_key_partitions in Hres as (Hp & ? & ?). split; [|done].
    eapply partitions_by_ext; [|done]. intros c. unfold bucket_name.
    by destruct (dimension_key G_cycle metadata c).
  - rewrite groupByPack_eq in Hres.
    apply group_by_key_partitions in Hres as (Hp & ? & ?). split; [|done].
    eapply partitions_by_ext; [|done]. intros c. unfold bucket_name. simpl.
    by destruct (pack_bucket metadata c).
Qed.

Lemma applyGrouping_none cards metadata :
  partitions_by (dimension_key G_none metadata) cards
    [GroupingResult.mk cards "all" "none"].
Proof.
  split; simpl.
  - apply NoDup_singleton.
  - intros g ->%list_elem_of_singleton. simpl. by rewrite filter_all.
  - intros c Hc. eexists. split; [apply list_elem_of_singleton; done|done].
Qed.

Lemma applyGrouping_base_upgrades cards metadata res :
  groupByLevel0VsUpgrade cards = Some res →
  partitions_by (dimension_key G_base_upgrades metadata) cards res.
Proof.
  rewrite groupByLevel0VsUpgrade_eq. intros [= <-].
  assert (∀ c, level0 c ↔
    dimension_key G_base_upgrades metadata c = Some LEVEL_0) as H0.
  { intros c. unfold level0. simpl. by destruct (truthy_number _). }
  assert (∀ c, ¬ level0 c ↔
    dimension_key G_base_upgrades metadata c = Some UPGRADE) as H1.
  { intros c. unfold level0. simpl. by destruct (truthy_number _). }
  rewrite (list_filter_iff _ _ _ H0), (list_filter_iff _ _ _ H1).
  split.
  - case_decide; simpl; [apply NoDup_singleton|].
    apply NoDup_cons. split; [|apply NoDup_singleton].
    by intros ?%list_elem_of_singleton.
  - intros g [Hg|Hg]%elem_of_app.
    + case_decide; [by apply elem_of_nil in Hg|].
      by apply list_elem_of_singleton in Hg as ->.
    + by apply list_elem_of_singleton in Hg as ->.
  - intros c Hc. destruct (decide (level0 c)) as [Hl|Hl].
    + rewrite decide_False; last first.
      { intros Hf. apply (filter_nil_not_elem_of _ _ c Hf); [|done].
        by apply H0. }
      eexists. split; [left|]. simpl. by apply H0.
    + eexists. split; [apply elem_of_app; right; left|]. by apply H1.
Qed.

Local Ltac solve_NoDup :=
  repeat (apply NoDup_cons_2;
    [rewrite ?not_elem_of_cons; repeat split; (done || apply not_elem_of_nil)|]);
  apply NoDup_nil_2.

Lemma applyGrouping_subtype cards metadata res :
  groupBySubtypeCode cards = Some res →
  NoDup (GroupingResult.key <$> res)
  ∧ sublist (GroupingResult.key <$> res) fixed_subtypes
  ∧ ∀ g, g ∈ res →
      GroupingResult.cards g
      = filter (λ c, dimension_key G_subtype metadata c
                     = Some (GroupingResult.key g)) cards.
Proof.
  rewrite groupBySubtypeCode_eq.
  destruct (existsb subtype_throws cards); [done|]. intros [= <-].
  assert (∀ name, name ∈ fixed_subtypes →
    filter (λ c, subtype_of c = name) cards
    = filter (λ c, dimension_key G_subtype metadata c = Some name) cards)
    as Hf.
  { intros name Hn. apply list_filter_iff. intros c. simpl.
    case_bool_decide as Hc; [naive_solver|].
    split; [|done]. intros Heq. by rewrite Heq in Hc. }
  split_and!.
  - repeat case_decide; simpl; solve_NoDup.
  - repeat case_decide; simpl; unfold fixed_subtypes;
      repeat first [apply sublist_nil | apply sublist_skip_both; fail
                   | apply sublist_skip | apply sublist_cons].
  - intros g Hg.
    assert (g = GroupingResult.mk (filter (λ c, subtype_of c = NONE) cards)
                  NONE "subtype"
            ∨ g = GroupingResult.mk
                    (filter (λ c, subtype_of c = "weakness") cards)
                    "weakness" "subtype"
            ∨ g = GroupingResult.mk
                    (filter (λ c, subtype_of c = "basicweakness") cards)
                    "basicweakness" "subtype") as Hcases.
    { rewrite elem_of_app, elem_of_cons in Hg.
      destruct Hg as [Hg|[Hg|Hg]]; [|by auto|].
      - case_decide; [by apply elem_of_nil in Hg|].
        apply list_elem_of_singleton in Hg. auto.
      - case_decide; [by apply elem_of_nil in Hg|].
        apply list_elem_of_singleton in Hg. auto. }
    destruct Hcases as [-> | [-> | ->]]; simpl; apply Hf;
      unfold fixed_subtypes; rewrite !elem_of_cons; auto.
Qed.

Lemma NoDup_fmap_eq {A B} (f : A → B) (l : list A) x y :
  NoDup (f <$> l) → x ∈ l → y ∈ l → f x = f y → x = y.
Proof.
  induction l as [|z l IH]; [by intros _ ?%elem_of_nil|].
  rewrite fmap_cons, NoDup_cons. intros [Hz Hnd].
  intros [->|Hx]%elem_of_cons [->|Hy]%elem_of_cons Hf; [done|..].
  - destruct Hz. rewrite Hf. by apply list_elem_of_fmap_2.
  - destruct Hz. rewrite <-Hf. by apply list_elem_of_fmap_2.
  - by apply IH.
Qed.

(** In a partition every card is in one group, and in no other. *)
Lemma partitions_by_unique name cards res c :
  partitions_by name cards res →
  c ∈ cards →
  ∃ g, g ∈ res ∧ c ∈ GroupingResult.cards g
       ∧ name c = Some (GroupingResult.key g)
       ∧ ∀ g', g' ∈ res → c ∈ GroupingResult.cards g' → g' = g.
Proof.
  intros [Hnd Hcards Hall] Hc. destruct (Hall c Hc) as (g & Hg & Hn).
  exists g. split_and!; [done| |done|].
  - rewrite (Hcards g Hg). by apply list_elem_of_filter.
  - intros g' Hg' Hc'. rewrite (Hcards g' Hg') in Hc'.
    apply list_elem_of_filter in Hc' as [Hn' _].
    eapply NoDup_fmap_eq; [done..|]. congruence.
Qed.

Lemma applyGrouping_partitions cards grouping metadata collator res :
  grouping ≠ G_subtype →
  applyGrouping cards grouping metadata collator = Some res →
  partitions_by (dimension_key grouping metadata) cards res.
Proof.
  intros Hs Hres.
  destruct (decide (on_demand grouping)) as [Hd|Hd].
  { by eapply applyGrouping_on_demand. }
  unfold on_demand in Hd. apply dec_stable in Hd.
  rewrite !elem_of_cons in Hd. destruct Hd as [->|[->|[->|[]%elem_of_nil]]].
  - simpl in Hres. injection Hres as <-. apply applyGrouping_none.
  - done.
  - by apply applyGrouping_base_upgrades.
Qed.

(** C1: for every dimension other than subtype, the groups that
    [applyGrouping] returns cover the input exactly: their card lists, put
    together, are a permutation of the input, and every input card is in one
    group and in no other. *)
Theorem applyGrouping_covers cards grouping metadata collator res :
  grouping ≠ G_subtype →
  applyGrouping cards grouping metadata collator = Some res →
  concat (GroupingResult.cards <$> res) ≡ₚ cards
  ∧ ∀ c, c ∈ cards →
      ∃ g, g ∈ res ∧ c ∈ GroupingResult.cards g
           ∧ ∀ g', g' ∈ res → c ∈ GroupingResult.cards g' → g' = g.
Proof.
  intros Hs Hres.
  pose proof (applyGrouping_partitions _ _ _ _ _ Hs Hres) as Hp. split.
  - by eapply partitions_by_Permutation.
  - intros c Hc.
    destruct (partitions_by_unique _ _ _ c Hp Hc) as (g & ? & ? & _ & ?).
    by exists g.
Qed.

(** C10: under the base_upgrades dimension every card is in one group and in
    no other; that group is [level0] when the experience of the card is
    absent or 0, and [upgrade] when it is a number other than 0. A card with
    experience 0 is filed as a card without experience is. *)
Theorem groupByLevel0VsUpgrade_buckets cards :
  ∃ res, groupByLevel0VsUpgrade cards = Some res
  ∧ ∀ c, c ∈ cards →
      ∃ g, g ∈ res ∧ c ∈ GroupingResult.cards g
        ∧ (∀ g', g' ∈ res → c ∈ GroupingResult.cards g' → g' = g)
        ∧ GroupingResult.key g =
            match Card.xp c with
            | None => LEVEL_0
            | Some n => if decide (n = 0%Z) then LEVEL_0 else UPGRADE
            end.
Proof.
  destruct (groupByLevel0VsUpgrade cards) as [res|] eqn:Hres;
    [|by rewrite groupByLevel0VsUpgrade_eq in Hres].
  exists res. split; [done|]. intros c Hc.
  pose proof (applyGrouping_base_upgrades cards (Metadata.mk ∅ ∅ ∅) res Hres) as Hp.
  destruct (partitions_by_unique _ _ _ c Hp Hc) as (g & Hg & Hcg & Hk & Hu).
  exists g. split_and!; [done..|].
  simpl in Hk. injection Hk as <-. unfold truthy_number.
  destruct (Card.xp c) as [n|]; [|done].
  by case_decide; case_bool_decide.
Qed.

(** The slip of [omitEmptyGroupings]: with the two increments of [i] the
    loop looks at every other position only. Under base_upgrades the
    [upgrade] bucket stays when it is empty. *)
Lemma groupByLevel0VsUpgrade_keeps_empty_upgrade cards :
  Forall level0 cards →
  ∃ res, groupByLevel0VsUpgrade cards = Some res
  ∧ GroupingResult.mk [] UPGRADE "base_upgrades" ∈ res.
Proof.
  intros Hl. rewrite groupByLevel0VsUpgrade_eq. eexists. split; [done|].
  assert (filter (λ c, ¬ level0 c) cards = []) as ->.
  { induction Hl as [|c cards Hc _ IH]; [done|].
    by rewrite filter_cons_False by tauto. }
  apply elem_of_app. right. left.
Qed.

(** Under subtype the [weakness] bucket stays when it is empty. *)
Lemma groupBySubtypeCode_keeps_empty_weakness cards res :
  groupBySubtypeCode cards = Some res →
  Forall (λ c, subtype_of c ≠ "weakness") cards →
  GroupingResult.mk [] "weakness" "subtype" ∈ res.
Proof.
  rewrite groupBySubtypeCode_eq.
  destruct (existsb subtype_throws cards); [done|]. intros [= <-] Hw.
  assert (filter (λ c, subtype_of c = "weakness") cards = []) as ->.
  { induction Hw as [|c cards Hc _ IH]; [done|].
    by rewrite filter_cons_False by done. }
  apply elem_of_app. right. left.
Qed.

(** C6: the groups of the subtype dimension are among the three fixed buckets
    [NONE], [weakness], [basicweakness], in that order; a group holds cards
    of its own subtype only, so a card of any other subtype is in no group.
    For three cards without subtype, of subtype [weakness] and of subtype
    [ultra-rare], the builder returns the two leaves [NONE] and [weakness],
    and the third card is in neither. *)
Theorem subtype_fixed_buckets :
  (∀ cards metadata collator res,
     applyGrouping cards G_subtype metadata collator = Some res →
     sublist (GroupingResult.key <$> res) [NONE; "weakness"; "basicweakness"]
     ∧ (∀ g c, g ∈ res → c ∈ GroupingResult.cards g →
          c ∈ cards ∧ subtype_of c = GroupingResult.key g)
     ∧ (∀ c, subtype_of c ∉ [NONE; "weakness"; "basicweakness"] →
          ∀ g, g ∈ res → c ∉ GroupingResult.cards g))
  ∧ (∀ c1 c2 c3 sortFunction metadata collator,
       Card.subtype_code c1 = None →
       Card.subtype_code c2 = Some "weakness" →
       Card.subtype_code c3 = Some "ultra-rare" →
       inherited "ultra-rare" = false →
       ∃ hierarchy,
         getGroupedCards [G_subtype] [c1; c2; c3] sortFunction metadata collator
         = Some (GroupedCards.mk
                   [GroupingResult.mk [c1] NONE "subtype";
                    GroupingResult.mk [c2] "weakness" "subtype"]
                   hierarchy)).
Proof.
  split.
  - intros cards metadata collator res Hres. simpl in Hres.
    destruct (applyGrouping_subtype cards metadata res Hres) as (_ & Hsub & Hg).
    assert (∀ g c, g ∈ res → c ∈ GroupingResult.cards g →
      c ∈ cards ∧ subtype_of c = GroupingResult.key g) as Hin.
    { intros g c Hgr Hc. rewrite (Hg g Hgr) in Hc.
      apply list_elem_of_filter in Hc as [Hk Hc]. split; [done|].
      simpl in Hk. case_bool_decide; by simplify_eq. }
    split_and!; [done..|].
    intros c Hc g Hgr Hcg. destruct (Hin g c Hgr Hcg) as [_ Hk].
    apply Hc. rewrite Hk.
    eapply elem_of_sublist; [|done]. by apply list_elem_of_fmap_2.
  - intros c1 c2 c3 sortFunction metadata collator H1 H2 H3 Hi.
    eexists. unfold getGroupedCards. simpl.
    rewrite groupBySubtypeCode_eq.
    assert (subtype_of c1 = NONE) as Hs1 by (unfold subtype_of; by rewrite H1).
    assert (subtype_of c2 = "weakness") as Hs2
      by (unfold subtype_of; by rewrite H2).
    assert (subtype_of c3 = "ultra-rare") as Hs3
      by (unfold subtype_of; by rewrite H3).
    assert (existsb subtype_throws [c1; c2; c3] = false) as ->.
    { unfold subtype_throws. simpl. rewrite Hs1, Hs2, Hs3, Hi.
      by rewrite !andb_false_r. }
    repeat first
      [ rewrite filter_cons_True by (rewrite ?Hs1, ?Hs2, ?Hs3; done)
      | rewrite filter_cons_False by (rewrite ?Hs1, ?Hs2, ?Hs3; done) ].
    rewrite !filter_nil. simpl. reflexivity.
Qed.

Lemma pack_bucket_eq metadata card pack :
  packs_keyed metadata →
  Metadata.packs metadata !! Card.pack_code card = Some pack →
  pack_bucket metadata card
  = Some (if is_reprint_pack metadata (reprint_code pack card)
          then reprint_code pack card else Card.pack_code card).
Proof.
  intros Hk Hp. unfold pack_bucket, is_reprint_pack. rewrite Hp. simpl.
  assert (Pack.cycle_code pack +:+
            (if bool_decide
                  ((if truthy_string (Card.encounter_code card)
                    then "encounter" else "player") = "encounter")
             then "c" else "p") = reprint_code pack card) as ->.
  { unfold reprint_code. by destruct (truthy_string _). }
  destruct (Metadata.packs metadata !! reprint_code pack card) as [rp|] eqn:Hrp.
  - destruct (Pack.reprint rp); f_equal; by apply Hk.
  - f_equal. by apply Hk.
Qed.

(** C5: under the pack dimension a card is looked up under the synthetic
    code made of the cycle code of its pack and of [c] when it has an
    encounter code, [p] otherwise; it is filed under that code if and only if
    a pack with that code exists and is marked reprint, and under its own
    pack code otherwise. (A card has an encounter code when the field is
    neither absent nor empty; the metadata files every pack under its own
    code.) *)
Theorem groupByPack_reprint cards metadata collator res card pack :
  packs_keyed metadata →
  applyGrouping cards G_pack metadata collator = Some res →
  card ∈ cards →
  Metadata.packs metadata !! Card.pack_code card = Some pack →
  ∃ g, g ∈ res ∧ card ∈ GroupingResult.cards g
    ∧ (∀ g', g' ∈ res → card ∈ GroupingResult.cards g' → g' = g)
    ∧ GroupingResult.key g =
        if is_reprint_pack metadata (reprint_code pack card)
        then reprint_code pack card
        else Card.pack_code card.
Proof.
  intros Hk Hres Hc Hp.
  assert (partitions_by (dimension_key G_pack metadata) cards res) as Hpart.
  { by eapply applyGrouping_partitions. }
  destruct (partitions_by_unique _ _ _ card Hpart Hc) as (g & Hg & Hcg & Hkey & Hu).
  exists g. split_and!; [done..|].
  simpl in Hkey. rewrite (pack_bucket_eq _ _ pack) in Hkey by done.
  by injection Hkey as <-.
Qed.

(** ** The expansion loop *)

Lemma expand_from_app grouping metadata collator post pre hierarchy fuel :
  length post ≤ fuel →
  expand_from fuel grouping metadata collator (pre ++ post) hierarchy
    (length pre)
  = expanded ← mapM (expand grouping metadata collator) post;
    Some (pre ++ concat expanded,
          foldl register_expansion hierarchy (zip post expanded)).
Proof.
  revert pre hierarchy fuel.
  induction post as [|group post IH]; intros pre hierarchy fuel Hfuel.
  - rewrite app_nil_r. destruct fuel; simpl;
      (case_bool_decide; [lia|]); by rewrite app_nil_r.
  - destruct fuel as [|fuel]; [simpl in Hfuel; lia|]. simpl.
    rewrite bool_decide_eq_true_2 by (rewrite length_app; simpl; lia).
    rewrite list_lookup_middle by done. simpl. unfold expand at 2.
    destruct (applyGrouping _ grouping metadata collator) as [kids|];
      [simpl|done].
    assert (splice_one (pre ++ group :: post) (length pre)
              (map (prefixed group) kids)
            = (pre ++ map (prefixed group) kids) ++ post) as ->.
    { unfold splice_one. rewrite take_app_length.
      rewrite <-Nat.add_1_r, <-drop_drop, drop_app_length. simpl.
      by rewrite <-app_assoc. }
    rewrite <-length_app.
    rewrite IH by (simpl in Hfuel; lia).
    destruct (mapM _ post) as [expanded|]; [simpl|done].
    by rewrite <-app_assoc.
Qed.

(** One pass replaces every group by its children, in place. *)
Lemma expand_pass_eq grouping metadata collator data hierarchy :
  expand_pass metadata collator (data, hierarchy) grouping
  = expanded ← mapM (expand grouping metadata collator) data;
    Some (concat expanded,
          foldl register_expansion hierarchy (zip data expanded)).
Proof.
  unfold expand_pass. simpl.
  by rewrite (expand_from_app _ _ _ data [] hierarchy).
Qed.

Lemma reduce_expand_pass groupings metadata collator state :
  reduce (expand_pass metadata collator) groupings state
  = build groupings metadata collator state.
Proof.
  revert state. induction groupings as [|grouping groupings IH];
    intros [data hierarchy]; simpl; [done|].
  rewrite expand_pass_eq.
  destruct (mapM _ data) as [expanded|]; simpl; [apply IH|done].
Qed.

Lemma build_descend groupings metadata collator data hierarchy :
  fst <$> build groupings metadata collator (data, hierarchy)
  = descend groupings metadata collator data.
Proof.
  revert data hierarchy. induction groupings as [|grouping groupings IH];
    intros data hierarchy; simpl; [done|].
  destruct (mapM _ data) as [expanded|]; simpl; [apply IH|done].
Qed.

(** ** The implied tree *)

Lemma descend_nil groupings metadata collator :
  descend groupings metadata collator [] = Some [].
Proof. by induction groupings. Qed.

Lemma descend_cons groupings metadata collator group data :
  descend groupings metadata collator (group :: data)
  = first ← descend groupings metadata collator [group];
    rest ← descend groupings metadata collator data;
    Some (first ++ rest).
Proof.
  revert group data. induction groupings as [|grouping groupings IH];
    intros group data; simpl; [done|].
  destruct (expand grouping metadata collator group) as [kids|]; [simpl|done].
  destruct (mapM _ data) as [expanded|]; simpl.
  - rewrite app_nil_r.
    (* the children of [group], one after the other *)
    generalize (concat expanded) as tail. clear expanded.
    induction kids as [|kid kids IHkids]; intros tail; simpl.
    + rewrite descend_nil. simpl.
      by destruct (descend groupings metadata collator tail).
    + rewrite (IH kid (kids ++ tail)), (IH kid kids), IHkids.
      destruct (descend groupings metadata collator [kid]); [simpl|done].
      destruct (descend groupings metadata collator kids); [simpl|done].
      destruct (descend groupings metadata collator tail); [simpl|done].
      by rewrite app_assoc.
  - rewrite app_nil_r.
    by destruct (descend groupings metadata collator kids).
Qed.

Lemma filter_preorder_children groupings metadata collator depth kids :
  (∀ kid,
     (λ tree, snd <$> filter (λ node, node.1 = depth + length groupings)
                        (preorder depth tree))
       <$> implied_tree groupings metadata collator kid
     = descend groupings metadata collator [kid]) →
  (λ children,
     snd <$> filter (λ node, node.1 = depth + length groupings)
               (concat (map (preorder depth) children)))
    <$> mapM (implied_tree groupings metadata collator) kids
  = descend groupings metadata collator kids.
Proof.
  intros Hkid. induction kids as [|kid kids IH]; simpl.
  - by rewrite descend_nil.
  - rewrite descend_cons, <-IH, <-Hkid.
    destruct (implied_tree groupings metadata collator kid); [simpl|done].
    destruct (mapM _ kids); [simpl|done].
    by rewrite filter_app, fmap_app.
Qed.

Lemma filter_preorder_tree groupings metadata collator depth group :
  (λ tree, snd <$> filter (λ node, node.1 = depth + length groupings)
                     (preorder depth tree))
    <$> implied_tree groupings metadata collator group
  = descend groupings metadata collator [group].
Proof.
  revert depth group. induction groupings as [|grouping groupings IH];
    intros depth group; simpl.
  - rewrite filter_cons_True by (simpl; lia). done.
  - destruct (expand grouping metadata collator group) as [kids|]; [simpl|done].
    rewrite app_nil_r.
    rewrite <-(filter_preorder_children groupings metadata collator (S depth))
      by (intros kid; apply IH).
    destruct (mapM _ kids) as [children|]; [simpl|done].
    rewrite filter_cons_False by (simpl; lia).
    f_equal. f_equal. apply list_filter_iff. intros node. lia.
Qed.

(** The leaves of the builder are the groups at the last depth of the
    implied forest, in pre-order. *)
Lemma descend_at_depth groupings metadata collator data :
  at_depth (length groupings)
    <$> mapM (implied_tree groupings metadata collator) data
  = descend groupings metadata collator data.
Proof.
  unfold at_depth.
  apply (filter_preorder_children groupings metadata collator 0).
  intros kid. apply filter_preorder_tree.
Qed.

Lemma getGroupedCards_data _groupings cards sortFunction metadata collator :
  GroupedCards.data
    <$> getGroupedCards _groupings cards sortFunction metadata collator
  = first ← effective _groupings !! 0;
    data ← applyGrouping cards first metadata collator;
    map (sort_cards sortFunction)
      <$> descend (drop 1 (effective _groupings)) metadata collator data.
Proof.
  unfold getGroupedCards. fold (effective _groupings).
  destruct (effective _groupings) as [|first groupings] eqn:Heff; [done|].
  simpl. destruct (applyGrouping cards first metadata collator) as [data|];
    [simpl|done].
  rewrite drop_0. case_bool_decide as Hlen.
  - rewrite reduce_expand_pass, <-(build_descend _ _ _ _ ∅).
    by destruct (build groupings metadata collator (data, ∅)).
  - destruct groupings; [done|simpl in Hlen; lia].
Qed.

(** C8: an expansion pass replaces every group by its children, at the
    place of the group and in the order of the partitioner; a group without
    children goes, the groups around it stay in their order. The leaves that
    the builder returns are the groups at the last depth of the implied
    forest, in the order of its pre-order traversal. *)
Theorem expansion_preserves_order :
  (∀ grouping metadata collator data hierarchy,
     fst <$> expand_pass metadata collator (data, hierarchy) grouping
     = (λ expanded, concat expanded)
         <$> mapM (expand grouping metadata collator) data)
  ∧ (∀ _groupings cards sortFunction metadata collator,
       GroupedCards.data
         <$> getGroupedCards _groupings cards sortFunction metadata collator
       = (λ forest,
            map (sort_cards sortFunction)
              (at_depth (length (effective _groupings) - 1) forest))
           <$> implied_forest _groupings cards metadata collator).
Proof.
  split.
  - intros grouping metadata collator data hierarchy.
    rewrite expand_pass_eq. by destruct (mapM _ data).
  - intros _groupings cards sortFunction metadata collator.
    rewrite getGroupedCards_data. unfold implied_forest.
    destruct (effective _groupings) as [|first groupings]; [done|]. simpl.
    destruct (applyGrouping cards first metadata collator) as [data|];
      [simpl|done].
    rewrite drop_0, Nat.sub_0_r, <-descend_at_depth.
    by destruct (mapM _ data).
Qed.

(** C9: with no dimension at all the builder does what it does for the one
    dimension none: it returns one leaf, of key [all] and type [none], with
    all the cards of the input, sorted, and the one hierarchy entry of that
    leaf. *)
Theorem getGroupedCards_no_dimension cards sortFunction metadata collator :
  getGroupedCards [] cards sortFunction metadata collator
  = getGroupedCards [G_none] cards sortFunction metadata collator
  ∧ getGroupedCards [] cards sortFunction metadata collator
    = Some (GroupedCards.mk
              [GroupingResult.mk (sort_total sortFunction cards) "all" "none"]
              {["all" := GroupTreeEntry.mk "all" "none" (length cards) None]})
  ∧ sort_total sortFunction cards ≡ₚ cards.
Proof.
  split_and!; [done| |apply sort_total_Permutation].
  unfold getGroupedCards. simpl. unfold register. simpl.
  by rewrite insert_empty.
Qed.

(** ** Keys and their segments *)

Lemma bars_app a b : bars (a +:+ b) = bars a + bars b.
Proof. induction a as [|c a IH]; simpl; [done|]. rewrite IH. lia. Qed.

Lemma includes_bar_bars s : includes_bar s = false ↔ bars s = 0.
Proof.
  induction s as [|c s IH]; simpl; [done|].
  case_bool_decide; simpl; [split; [done|lia]|done].
Qed.

Lemma bars_prefixed p s :
  includes_bar s = false → bars (p +:+ "|" +:+ s) = S (bars p).
Proof.
  intros Hs%includes_bar_bars. rewrite !bars_app, Hs. simpl. lia.
Qed.

Lemma split_bar_not_nil s : split_bar s ≠ [].
Proof.
  destruct s as [|c s]; simpl; [done|].
  case_bool_decide; [done|]. by destruct (split_bar s).
Qed.

Lemma split_bar_app p s :
  split_bar (p +:+ String bar s) = split_bar p ++ split_bar s.
Proof.
  induction p as [|c p IH]; simpl; [done|].
  case_bool_decide; [by rewrite IH|]. rewrite IH.
  pose proof (split_bar_not_nil p). by destruct (split_bar p).
Qed.

Lemma split_bar_bar_free s : includes_bar s = false → split_bar s = [s].
Proof.
  induction s as [|c s IH]; simpl; [done|].
  case_bool_decide; simpl; [done|]. intros Hs. by rewrite IH.
Qed.

Lemma join_bar_cons seg segs :
  segs ≠ [] → join_bar (seg :: segs) = seg +:+ String bar (join_bar segs).
Proof. by destruct segs. Qed.

Lemma join_split_bar s : join_bar (split_bar s) = s.
Proof.
  induction s as [|c s IH]; simpl; [done|].
  case_bool_decide as Hc.
  - rewrite join_bar_cons by apply split_bar_not_nil. simpl. by rewrite IH, Hc.
  - pose proof (split_bar_not_nil s) as Hn.
    destruct (split_bar s) as [|seg segs] eqn:Hs; [done|].
    destruct segs as [|seg' segs].
    + simpl in *. by rewrite IH.
    + rewrite join_bar_cons by done. rewrite join_bar_cons in IH by done.
      rewrite <-IH. done.
Qed.

Lemma includes_bar_app a b :
  includes_bar (a +:+ b) = includes_bar a || includes_bar b.
Proof.
  induction a as [|c a IH]; simpl; [done|]. by rewrite IH, orb_assoc.
Qed.

(** The parent of a prefixed key is the prefix, when the segment has no
    bar. *)
Lemma parent_key_prefixed p s :
  includes_bar s = false → parent_key (p +:+ "|" +:+ s) = Some p.
Proof.
  intros Hs. unfold parent_key.
  change (p +:+ "|" +:+ s) with (p +:+ String bar s).
  rewrite includes_bar_app. cbn [includes_bar].
  rewrite bool_decide_eq_true_2 by done. rewrite orb_true_r. f_equal.
  rewrite split_bar_app, (split_bar_bar_free s Hs). unfold slice_init.
  rewrite length_app. simpl.
  replace (length (split_bar p) + 1 - 1) with (length (split_bar p)) by lia.
  rewrite take_app_length. apply join_split_bar.
Qed.

Lemma parent_key_bar_free k : includes_bar k = false → parent_key k = None.
Proof. intros Hk. unfold parent_key. by rewrite Hk. Qed.

Lemma prefixed_inj p p' s s' :
  includes_bar s = false → includes_bar s' = false →
  p +:+ "|" +:+ s = p' +:+ "|" +:+ s' → p = p' ∧ s = s'.
Proof.
  intros Hs Hs' Heq.
  assert (p = p') as <-.
  { apply (inj Some). by rewrite <-(parent_key_prefixed p s),
      <-(parent_key_prefixed p' s'), Heq. }
  split; [done|]. apply (inj (String.append p)) in Heq. by simplify_eq.
Qed.

(** ** Maps written entry by entry *)

Lemma foldl_write_lookup {V} (l : list (string * V)) m k v :
  foldl write m l !! k = Some v → (k, v) ∈ l ∨ m !! k = Some v.
Proof.
  revert m. induction l as [|[k' v'] l IH]; intros m; simpl; [by right|].
  intros [Hl|Hm]%IH; [left; by right|].
  unfold write in Hm. simpl in Hm.
  destruct (decide (k' = k)) as [->|].
  - rewrite lookup_insert_eq in Hm. injection Hm as ->. left. left.
  - rewrite lookup_insert_ne in Hm by done. by right.
Qed.

Lemma foldl_write_is_Some {V} (l : list (string * V)) m k :
  k ∈ l.*1 ∨ is_Some (m !! k) → is_Some (foldl write m l !! k).
Proof.
  revert m. induction l as [|[k' v'] l IH]; intros m; simpl.
  - intros [[]%elem_of_nil|]; done.
  - intros Hk. apply IH. unfold write. simpl.
    destruct (decide (k' = k)) as [->|].
    + right. by rewrite lookup_insert_eq.
    + rewrite lookup_insert_ne by done.
      destruct Hk as [[|]%elem_of_cons|]; [done|by left|by right].
Qed.

(** A map written from a list that tells, in any order and any number of
    times, the pairs of a list without two pairs of one key. *)
Lemma foldl_write_canonical {V} (written canonical : list (string * V)) :
  NoDup canonical.*1 →
  (∀ p, p ∈ written ↔ p ∈ canonical) →
  map_to_list (foldl write ∅ written) ≡ₚ canonical.
Proof.
  intros Hnd Heq.
  assert (foldl write ∅ written = list_to_map canonical) as ->.
  { apply map_eq. intros k. apply option_eq. intros v.
    rewrite <-elem_of_list_to_map by done. rewrite <-Heq. split.
    - intros [|Hm]%foldl_write_lookup; [done|]. by rewrite lookup_empty in Hm.
    - intros Hin.
      destruct (foldl_write_is_Some written ∅ k) as [v' Hv'].
      { left. by apply (list_elem_of_fmap_2 fst _ (k, v)). }
      rewrite Hv'. f_equal.
      apply foldl_write_lookup in Hv' as [Hv'|Hv'];
        [|by rewrite lookup_empty in Hv'].
      apply Heq in Hin, Hv'.
      eapply (NoDup_fmap_eq fst canonical (k, v') (k, v)) in Hnd; [|done..].
      congruence. }
  by apply map_to_list_to_map.
Qed.

(** ** The groups of a run *)

Lemma elem_of_concat {A} (x : A) (ls : list (list A)) :
  x ∈ concat ls ↔ ∃ l, x ∈ l ∧ l ∈ ls.
Proof.
  induction ls as [|l ls IH]; simpl.
  - split; [by intros ?%elem_of_nil|]. by intros (l & _ & ?%elem_of_nil).
  - rewrite elem_of_app, IH. split.
    + intros [Hx|(l' & Hx & Hl')]; [exists l; split; [done|left]|].
      exists l'. split; [done|by right].
    + intros (l' & Hx & [->|Hl']%elem_of_cons); [by left|right; eauto].
Qed.

Lemma good_expansion_parent expansion kid :
  good_expansion expansion → kid ∈ expansion.2 →
  parent_key (GroupingResult.key kid)
  = Some (GroupingResult.key expansion.1)
  ∧ bars (GroupingResult.key kid)
    = S (bars (GroupingResult.key expansion.1)).
Proof.
  intros (Hkids & _ & _) Hkid.
  rewrite Forall_forall in Hkids. destruct (Hkids kid Hkid) as (seg & -> & Hs).
  split; [by apply parent_key_prefixed|by apply bars_prefixed].
Qed.

Lemma at_level_step depth level pass :
  at_level depth level → pass.*1 = level → Forall good_expansion pass →
  at_level (S depth) (concat pass.*2).
Proof.
  intros [Hnd Hbars] <- Hgood. split.
  - induction Hgood as [|[q kids] pass Hq Hgood IH]; [constructor|].
    rewrite !fmap_cons in Hnd, Hbars.
    apply NoDup_cons in Hnd as [Hfresh Hnd].
    apply Forall_cons in Hbars as [_ Hbars].
    rewrite fmap_cons. cbn [concat snd]. rewrite fmap_app.
    apply NoDup_app. split_and!; [apply Hq| |by apply IH].
    intros k (kid & -> & Hkid)%list_elem_of_fmap
      (kid' & Hk & Hkid')%list_elem_of_fmap.
    apply elem_of_concat in Hkid' as (kids' & Hkid' & Hkids').
    apply list_elem_of_fmap in Hkids' as ([q' kids''] & -> & Hexp).
    rewrite Forall_forall in Hgood.
    destruct (good_expansion_parent (q, kids) kid Hq Hkid) as [Hp _].
    destruct (good_expansion_parent (q', kids'') kid' (Hgood _ Hexp) Hkid')
      as [Hp' _].
    cbn [fst snd] in *. rewrite Hk, Hp' in Hp. injection Hp as Hp.
    apply Hfresh. rewrite <-Hp. apply list_elem_of_fmap_2.
    by apply (list_elem_of_fmap_2 fst _ (q', kids'')).
  - apply Forall_forall. intros kid Hkid.
    apply elem_of_concat in Hkid as (kids & Hkid & Hkids).
    apply list_elem_of_fmap in Hkids as ([q kids'] & -> & Hexp).
    rewrite Forall_forall in Hgood.
    destruct (good_expansion_parent (q, kids') kid (Hgood _ Hexp) Hkid)
      as [_ ->].
    rewrite Forall_forall in Hbars. simpl. f_equal. apply Hbars.
    by apply (list_elem_of_fmap_2 fst _ (q, kids')).
Qed.

Lemma all_groups_cons level pass passes :
  all_groups level (pass :: passes)
  = level ++ all_groups (concat pass.*2) passes.
Proof. done. Qed.

Lemma all_groups_bars depth level passes :
  at_level depth level → chained level passes →
  Forall (λ g, depth ≤ bars (GroupingResult.key g))
    (all_groups level passes).
Proof.
  revert depth level. induction passes as [|pass passes IH];
    intros depth level Hlevel Hch.
  - unfold all_groups. simpl. rewrite app_nil_r.
    eapply Forall_impl; [apply Hlevel|]. simpl. lia.
  - destruct Hch as (Hpass & Hgood & Hch). rewrite all_groups_cons.
    apply Forall_app. split.
    + eapply Forall_impl; [apply Hlevel|]. simpl. lia.
    + eapply Forall_impl; [apply (IH (S depth)); [|done]|simpl; lia].
      by eapply at_level_step.
Qed.

Lemma all_groups_NoDup depth level passes :
  at_level depth level → chained level passes →
  NoDup (GroupingResult.key <$> all_groups level passes).
Proof.
  revert depth level. induction passes as [|pass passes IH];
    intros depth level Hlevel Hch.
  - unfold all_groups. simpl. rewrite app_nil_r. apply Hlevel.
  - destruct Hch as (Hpass & Hgood & Hch). rewrite all_groups_cons, fmap_app.
    pose proof (at_level_step _ _ _ Hlevel Hpass Hgood) as Hnext.
    apply NoDup_app. split_and!; [apply Hlevel| |by eapply IH].
    intros k (g & -> & Hg)%list_elem_of_fmap (g' & Hk & Hg')%list_elem_of_fmap.
    destruct Hlevel as [_ Hbars]. rewrite Forall_forall in Hbars.
    pose proof (all_groups_bars _ _ _ Hnext Hch) as Hdeep.
    rewrite Forall_forall in Hdeep.
    specialize (Hbars g Hg). specialize (Hdeep g' Hg'). simpl in *.
    rewrite Hk in Hbars. lia.
Qed.

Lemma all_groups_split level passes :
  chained level passes →
  all_groups level passes = (concat passes).*1 ++ last_level level passes.
Proof.
  revert level. induction passes as [|pass passes IH]; intros level Hch.
  - unfold all_groups. simpl. by rewrite app_nil_r.
  - destruct Hch as (Hpass & Hgood & Hch).
    rewrite all_groups_cons, (IH _ Hch). simpl.
    by rewrite fmap_app, Hpass, <-app_assoc.
Qed.

Lemma elem_of_all_groups level passes g :
  g ∈ all_groups level passes
  ↔ g ∈ level ∨ ∃ expansion, expansion ∈ concat passes ∧ g ∈ expansion.2.
Proof.
  unfold all_groups. rewrite elem_of_app. apply or_iff_compat_l.
  rewrite elem_of_concat. split.
  - intros (kids & Hg & (pass & -> & Hpass)%list_elem_of_fmap).
    apply elem_of_concat in Hg as (kids & Hg & Hkids).
    apply list_elem_of_fmap in Hkids as (expansion & -> & Hexp).
    exists expansion. split; [|done]. apply elem_of_concat. eauto.
  - intros (expansion & Hexp & Hg).
    apply elem_of_concat in Hexp as (pass & Hexp & Hpass).
    exists (concat pass.*2). split.
    + apply elem_of_concat. exists expansion.2. split; [done|].
      by apply list_elem_of_fmap_2.
    + by apply (list_elem_of_fmap_2 (λ pass, concat pass.*2)).
Qed.

(** Every group of a run with a pass at least is written by some
    iteration, as the group that is expanded or as one of its children. *)
Lemma elem_of_written_groups level passes g :
  passes ≠ [] → chained level passes →
  g ∈ concat ((λ expansion, expansion.1 :: expansion.2) <$> concat passes)
  ↔ g ∈ all_groups level passes.
Proof.
  intros Hne Hch. rewrite elem_of_all_groups, elem_of_concat. split.
  - intros (l & Hg & (expansion & -> & Hexp)%list_elem_of_fmap).
    apply elem_of_cons in Hg as [->|Hg]; [|right; eauto].
    (* an expanded group is of the first level or a child *)
    clear Hne. revert level Hch Hexp.
    induction passes as [|pass passes IH]; intros level Hch Hexp;
      [by apply elem_of_nil in Hexp|].
    destruct Hch as (Hpass & Hgood & Hch). simpl in Hexp.
    apply elem_of_app in Hexp as [Hexp|Hexp].
    + left. rewrite <-Hpass. by apply list_elem_of_fmap_2.
    + right. destruct (IH _ Hch Hexp) as [Hl|(e & He & Hg)].
      * apply elem_of_concat in Hl as (kids & Hg & Hkids).
        apply list_elem_of_fmap in Hkids as (e & -> & He).
        exists e. split; [|done]. simpl. apply elem_of_app. by left.
      * exists e. split; [|done]. simpl. apply elem_of_app. by right.
  - intros [Hg|(expansion & Hexp & Hg)].
    + destruct passes as [|pass passes]; [done|].
      destruct Hch as (Hpass & _ & _). rewrite <-Hpass in Hg.
      apply list_elem_of_fmap in Hg as (expansion & -> & Hexp).
      exists (expansion.1 :: expansion.2). split; [left|].
      apply (list_elem_of_fmap_2 (λ e, e.1 :: e.2)). simpl.
      apply elem_of_app. by left.
    + exists (expansion.1 :: expansion.2). split; [by right|].
      by apply (list_elem_of_fmap_2 (λ e, e.1 :: e.2)).
Qed.

(** ** The hierarchy of a run *)

Lemma register_expansion_write hierarchy expansion :
  good_expansion expansion →
  register_expansion hierarchy expansion
  = foldl write hierarchy (keyed_entry <$> expansion.1 :: expansion.2).
Proof.
  intros Hgood. unfold register_expansion. rewrite fmap_cons. cbn [foldl].
  change (register hierarchy expansion.1
            (parent_key (GroupingResult.key expansion.1)))
    with (write hierarchy (keyed_entry expansion.1)).
  generalize (write hierarchy (keyed_entry expansion.1)) as h.
  assert (∀ kid, kid ∈ expansion.2 →
    parent_key (GroupingResult.key kid)
    = Some (GroupingResult.key expansion.1)) as Hparent.
  { intros kid Hkid. by apply good_expansion_parent. }
  induction expansion.2 as [|kid kids IH]; intros h; [done|].
  cbn [foldl fmap list_fmap]. rewrite <-IH by (intros; apply Hparent; by right).
  f_equal. unfold register, write, keyed_entry, entry_of. simpl.
  by rewrite (Hparent kid) by left.
Qed.

Lemma foldl_register_expansion_write hierarchy expansions :
  Forall good_expansion expansions →
  foldl register_expansion hierarchy expansions
  = foldl write hierarchy
      (keyed_entry
         <$> concat ((λ expansion, expansion.1 :: expansion.2)
                       <$> expansions)).
Proof.
  intros Hgood. revert hierarchy.
  induction Hgood as [|expansion expansions Hexp _ IH]; intros hierarchy;
    [done|].
  cbn [foldl fmap list_fmap concat].
  rewrite fmap_app, foldl_app, <-register_expansion_write by done. apply IH.
Qed.

Lemma chained_good level passes :
  chained level passes → Forall good_expansion (concat passes).
Proof.
  revert level. induction passes as [|pass passes IH]; intros level;
    [constructor|].
  intros (_ & Hgood & Hch). simpl. apply Forall_app. eauto.
Qed.

Lemma keyed_entry_NoDup (groups : list GroupingResult) :
  NoDup (GroupingResult.key <$> groups) → NoDup (keyed_entry <$> groups).*1.
Proof. by rewrite <-list_fmap_compose. Qed.

(** The hierarchy of a run with a pass at least has the entry of every
    group of the run, and no other. *)
Lemma run_hierarchy level passes :
  at_level 0 level → chained level passes → passes ≠ [] →
  map_to_list (foldl register_expansion ∅ (concat passes))
  ≡ₚ keyed_entry <$> all_groups level passes.
Proof.
  intros Hlevel Hch Hne.
  rewrite foldl_register_expansion_write by by eapply chained_good.
  apply foldl_write_canonical.
  - apply keyed_entry_NoDup. by eapply all_groups_NoDup.
  - intros p. rewrite !list_elem_of_fmap.
    by setoid_rewrite (elem_of_written_groups level passes).
Qed.

(** The hierarchy of the builder without a pass. *)
Lemma flat_hierarchy level :
  at_level 0 level →
  map_to_list (foldl (λ h group, register h group None) ∅ level)
  ≡ₚ keyed_entry <$> all_groups level [].
Proof.
  intros Hlevel. unfold all_groups. simpl. rewrite app_nil_r.
  assert (foldl (λ h group, register h group None) ∅ level
          = foldl write ∅ (keyed_entry <$> level)) as ->.
  { destruct Hlevel as [_ Hbars]. generalize (∅ : gmap string GroupTreeEntry).
    induction Hbars as [|g level Hg _ IH]; intros h; [done|].
    cbn [foldl fmap list_fmap]. rewrite IH. f_equal.
    unfold register, write, keyed_entry, entry_of. simpl.
    rewrite parent_key_bar_free; [done|]. by apply includes_bar_bars. }
  apply foldl_write_canonical; [|done].
  apply keyed_entry_NoDup, Hlevel.
Qed.

Section run.
Context (level : list GroupingResult)
  (passes : list (list (GroupingResult * list GroupingResult)))
  (hierarchy : gmap string GroupTreeEntry).
Hypothesis Hlevel : at_level 0 level.
Hypothesis Hchained : chained level passes.
Hypothesis Hhierarchy :
  map_to_list hierarchy ≡ₚ keyed_entry <$> all_groups level passes.

Lemma run_NoDup : NoDup (GroupingResult.key <$> all_groups level passes).
Proof using Hlevel Hchained. by eapply all_groups_NoDup. Qed.

Lemma run_lookup k e :
  hierarchy !! k = Some e
  ↔ ∃ g, g ∈ all_groups level passes
         ∧ k = GroupingResult.key g ∧ e = entry_of g.
Proof using Hhierarchy.
  rewrite <-elem_of_map_to_list, Hhierarchy, list_elem_of_fmap. split.
  - intros (g & Heq & Hg). unfold keyed_entry in Heq.
    injection Heq as -> ->. eauto.
  - intros (g & Hg & -> & ->). eauto.
Qed.

Lemma run_lookup_group g :
  g ∈ all_groups level passes →
  hierarchy !! GroupingResult.key g = Some (entry_of g).
Proof using Hhierarchy. intros Hg. apply run_lookup. eauto. Qed.

(** A group with a parent key is a child of the expansion of that key. *)
Lemma run_parent g p :
  g ∈ all_groups level passes →
  parent_key (GroupingResult.key g) = Some p →
  ∃ expansion, expansion ∈ concat passes ∧ g ∈ expansion.2
               ∧ GroupingResult.key expansion.1 = p.
Proof using Hlevel Hchained.
  intros [Hg|(expansion & Hexp & Hg)]%elem_of_all_groups Hp.
  - destruct Hlevel as [_ Hbars]. rewrite Forall_forall in Hbars.
    rewrite parent_key_bar_free in Hp; [done|].
    by apply includes_bar_bars, Hbars.
  - exists expansion. split_and!; [done..|].
    pose proof (chained_good _ _ Hchained) as Hgood.
    rewrite Forall_forall in Hgood.
    destruct (good_expansion_parent _ g (Hgood _ Hexp) Hg) as [Hp' _].
    congruence.
Qed.

Lemma run_expanded_NoDup :
  NoDup (GroupingResult.key <$> (concat passes).*1).
Proof using Hlevel Hchained.
  pose proof run_NoDup as Hnd.
  rewrite (all_groups_split _ _ Hchained), fmap_app in Hnd.
  by apply NoDup_app in Hnd as [? _].
Qed.

(** The groups whose parent key is that of an expanded group are the
    children of its expansion. *)
Lemma run_children expansion g :
  expansion ∈ concat passes →
  g ∈ all_groups level passes →
  (parent_key (GroupingResult.key g)
   = Some (GroupingResult.key expansion.1)) ↔ g ∈ expansion.2.
Proof using Hlevel Hchained.
  intros Hexp Hg. split.
  - intros Hp. destruct (run_parent g _ Hg Hp) as (expansion' & Hexp' & Hg' & Hk).
    assert (expansion' = expansion) as ->; [|done].
    eapply (NoDup_fmap_eq (λ e, GroupingResult.key e.1)); [|done..].
    pose proof run_expanded_NoDup as Hnd.
    by rewrite <-list_fmap_compose in Hnd.
  - intros Hkid. pose proof (chained_good _ _ Hchained) as Hgood.
    rewrite Forall_forall in Hgood.
    by destruct (good_expansion_parent _ g (Hgood _ Hexp) Hkid).
Qed.

Lemma run_direct_children p :
  direct_children hierarchy p
  ≡ₚ entry_of
       <$> filter (λ g, parent_key (GroupingResult.key g) = Some p)
             (all_groups level passes).
Proof using Hhierarchy.
  unfold direct_children. rewrite Hhierarchy, <-list_fmap_compose.
  assert (snd ∘ keyed_entry = entry_of) as -> by done.
  generalize (all_groups level passes) as groups.
  induction groups as [|g groups IH]; [done|].
  rewrite fmap_cons. destruct (decide (parent_key (GroupingResult.key g) = Some p)).
  - rewrite !filter_cons_True by done. rewrite fmap_cons. by f_equiv.
  - rewrite !filter_cons_False by done. done.
Qed.

Lemma run_children_count expansion :
  expansion ∈ concat passes →
  children_count hierarchy (GroupingResult.key expansion.1)
  = length (GroupingResult.cards expansion.1).
Proof using Hlevel Hchained Hhierarchy.
  intros Hexp. unfold children_count.
  rewrite run_direct_children.
  pose proof (chained_good _ _ Hchained) as Hgood.
  rewrite Forall_forall in Hgood. destruct (Hgood _ Hexp) as (_ & Hnd & <-).
  assert (filter (λ g, parent_key (GroupingResult.key g)
                       = Some (GroupingResult.key expansion.1))
            (all_groups level passes) ≡ₚ expansion.2) as ->.
  { apply NoDup_Permutation.
    - apply NoDup_filter. eapply NoDup_fmap_1, run_NoDup.
    - by eapply NoDup_fmap_1.
    - intros g. rewrite list_elem_of_filter. split.
      + intros [Hp Hg]. by apply run_children.
      + intros Hg.
        assert (g ∈ all_groups level passes) as Hin
          by (apply elem_of_all_groups; eauto).
        split; [by apply run_children|done]. }
  by rewrite <-list_fmap_compose.
Qed.

(** Parent consistency of a run. *)
Lemma run_parent_consistency k e p :
  hierarchy !! k = Some e → GroupTreeEntry.parent e = Some p →
  ∃ pe, hierarchy !! p = Some pe
        ∧ GroupTreeEntry.count pe = children_count hierarchy p.
Proof using Hlevel Hchained Hhierarchy.
  intros (g & Hg & -> & ->)%run_lookup Hp. simpl in Hp.
  destruct (run_parent g p Hg Hp) as (expansion & Hexp & Hkid & <-).
  exists (entry_of expansion.1). split.
  - apply run_lookup_group. rewrite (all_groups_split _ _ Hchained).
    apply elem_of_app. left. by apply list_elem_of_fmap_2.
  - by rewrite run_children_count.
Qed.

(** The groups that the last pass leaves have their entry, and no
    children. *)
Lemma run_leaf leaf :
  leaf ∈ last_level level passes →
  hierarchy !! GroupingResult.key leaf = Some (entry_of leaf)
  ∧ direct_children hierarchy (GroupingResult.key leaf) = [].
Proof using Hlevel Hchained Hhierarchy.
  intros Hleaf.
  assert (leaf ∈ all_groups level passes) as Hin.
  { rewrite (all_groups_split _ _ Hchained). apply elem_of_app. by right. }
  split; [by apply run_lookup_group|].
  apply Permutation_nil_r. rewrite run_direct_children.
  assert (filter (λ g, parent_key (GroupingResult.key g)
                       = Some (GroupingResult.key leaf))
            (all_groups level passes) = []) as ->; [|done].
  destruct (filter _ _) as [|g groups] eqn:Hf; [done|].
  assert (g ∈ filter (λ g, parent_key (GroupingResult.key g)
                           = Some (GroupingResult.key leaf))
                (all_groups level passes)) as [Hp Hg]%list_elem_of_filter
    by (rewrite Hf; left).
  destruct (run_parent g _ Hg Hp) as (expansion & Hexp & _ & Hk).
  pose proof run_NoDup as Hnd.
  rewrite (all_groups_split _ _ Hchained), fmap_app in Hnd.
  apply NoDup_app in Hnd as (_ & Hnd & _).
  destruct (Hnd (GroupingResult.key leaf)).
  - rewrite <-Hk. apply list_elem_of_fmap_2. by apply list_elem_of_fmap_2.
  - by apply list_elem_of_fmap_2.
Qed.

End run.

(** ** What the partitioner tells the builder *)

Lemma groupBySubtypeCode_covers cards res c :
  groupBySubtypeCode cards = Some res →
  c ∈ cards → subtype_of c ∈ fixed_subtypes →
  subtype_of c ∈ GroupingResult.key <$> res.
Proof.
  rewrite groupBySubtypeCode_eq.
  destruct (existsb subtype_throws cards); [done|]. intros [= <-] Hc Hs.
  unfold fixed_subtypes in Hs. rewrite !elem_of_cons in Hs.
  rewrite fmap_app, elem_of_app, fmap_cons, elem_of_cons.
  destruct Hs as [Hs|[Hs|[Hs|[]%elem_of_nil]]].
  - left. rewrite decide_False; [rewrite Hs; by left|].
    intros Hf. by apply (filter_nil_not_elem_of _ _ c Hf).
  - right. by left.
  - right. right. rewrite decide_False; [rewrite Hs; by left|].
    intros Hf. by apply (filter_nil_not_elem_of _ _ c Hf).
Qed.

(** The groups of any dimension: keys that differ, cards of the input in
    the order of the input. *)
Lemma applyGrouping_groups cards grouping metadata collator res :
  applyGrouping cards grouping metadata collator = Some res →
  NoDup (GroupingResult.key <$> res)
  ∧ ∀ g, g ∈ res →
      GroupingResult.cards g
      = filter (λ c, dimension_key grouping metadata c
                     = Some (GroupingResult.key g)) cards.
Proof.
  intros Hres. destruct (decide (grouping = G_subtype)) as [->|Hs].
  - by destruct (applyGrouping_subtype cards metadata res Hres) as (? & _ & ?).
  - by destruct (applyGrouping_partitions _ _ _ _ _ Hs Hres).
Qed.

(** The keys of the groups have no bar, when the keys of the cards
    have none. *)
Lemma applyGrouping_bar_free cards grouping metadata collator res g :
  applyGrouping cards grouping metadata collator = Some res →
  (∀ c k, c ∈ cards → dimension_key grouping metadata c = Some k →
     includes_bar k = false) →
  g ∈ res → includes_bar (GroupingResult.key g) = false.
Proof.
  intros Hres Hbar Hg.
  destruct (decide (on_demand grouping)) as [Hd|Hd].
  { destruct (applyGrouping_on_demand _ _ _ _ _ Hd Hres) as ([_ Hcards _] & Hne & _).
    rewrite Forall_forall in Hne. specialize (Hne g Hg).
    rewrite (Hcards g Hg) in Hne.
    destruct (filter _ cards) as [|c l] eqn:Hf; [done|].
    assert (c ∈ filter (λ c, dimension_key grouping metadata c
                             = Some (GroupingResult.key g)) cards)
      as [Hk Hc]%list_elem_of_filter by (rewrite Hf; left).
    by eapply Hbar. }
  unfold on_demand in Hd. apply dec_stable in Hd.
  rewrite !elem_of_cons in Hd. destruct Hd as [->|[->|[->|[]%elem_of_nil]]].
  - simpl in Hres. injection Hres as <-.
    by apply list_elem_of_singleton in Hg as ->.
  - destruct (applyGrouping_subtype cards metadata res Hres) as (_ & Hsub & _).
    assert (GroupingResult.key g ∈ fixed_subtypes) as Hk.
    { eapply elem_of_sublist; [|done]. by apply list_elem_of_fmap_2. }
    unfold fixed_subtypes in Hk. rewrite !elem_of_cons in Hk.
    by destruct Hk as [->|[->|[->|[]%elem_of_nil]]].
  - simpl in Hres. rewrite groupByLevel0VsUpgrade_eq in Hres.
    injection Hres as <-. rewrite elem_of_app in Hg.
    destruct Hg as [Hg|Hg].
    + case_decide; [by apply elem_of_nil in Hg|].
      by apply list_elem_of_singleton in Hg as ->.
    + by apply list_elem_of_singleton in Hg as ->.
Qed.

(** The cards of the groups are those of the input, when no card is
    dropped. *)
Lemma applyGrouping_lengths cards grouping metadata collator res :
  applyGrouping cards grouping metadata collator = Some res →
  (grouping = G_subtype → ∀ c, c ∈ cards → subtype_of c ∈ fixed_subtypes) →
  sum_list ((λ g, length (GroupingResult.cards g)) <$> res) = length cards.
Proof.
  intros Hres Hdrop.
  assert (concat (GroupingResult.cards <$> res) ≡ₚ cards) as <-.
  { destruct (decide (grouping = G_subtype)) as [->|Hs].
    - destruct (applyGrouping_subtype cards metadata res Hres) as (Hnd & _ & Hc).
      eapply (partitions_by_Permutation (dimension_key G_subtype metadata)).
      split; [done..|]. intros c Hin.
      pose proof (groupBySubtypeCode_covers _ _ c Hres Hin (Hdrop eq_refl _ Hin))
        as (g & Hk & Hg)%list_elem_of_fmap.
      exists g. split; [done|]. simpl.
      rewrite bool_decide_eq_true_2 by by apply Hdrop. by rewrite Hk.
    - eapply partitions_by_Permutation.
      by eapply applyGrouping_partitions. }
  clear. induction res as [|g res IH]; [done|].
  rewrite !fmap_cons. simpl. rewrite length_app. by rewrite IH.
Qed.

(** ** The builder as a run *)

Section run_of.
Context (metadata : Metadata) (collator : Collator) (cards : list Card).

Lemma build_run_of groupings level hierarchy leaves hierarchy' :
  build groupings metadata collator (level, hierarchy)
  = Some (leaves, hierarchy') →
  ∃ passes, run_of metadata collator groupings level passes
    ∧ leaves = last_level level passes
    ∧ hierarchy' = foldl register_expansion hierarchy (concat passes).
Proof.
  revert level hierarchy. induction groupings as [|grouping groupings IH];
    intros level hierarchy; simpl.
  - intros [= <- <-]. by exists [].
  - destruct (mapM _ level) as [expanded|] eqn:Hm; [simpl|done].
    intros (passes & Hrun & -> & ->)%IH.
    apply mapM_Some in Hm.
    pose proof (Forall2_length _ _ _ Hm) as Hlen.
    exists (zip level expanded :: passes). simpl.
    rewrite fst_zip, snd_zip by (rewrite Hlen; done).
    split_and!; [done| |done..|by rewrite foldl_app].
    clear -Hm. induction Hm; simpl; by constructor.
Qed.

Lemma expand_good grouping group kids :
  (∀ c k, c ∈ cards → dimension_key grouping metadata c = Some k →
     includes_bar k = false) →
  (grouping = G_subtype → ∀ c, c ∈ cards → subtype_of c ∈ fixed_subtypes) →
  sound cards group →
  expand grouping metadata collator group = Some kids →
  good_expansion (group, kids) ∧ Forall (sound cards) kids.
Proof.
  intros Hbar Hdrop Hsound. unfold expand.
  destruct (applyGrouping _ grouping metadata collator) as [res|] eqn:Hres;
    [simpl|done].
  intros [= <-].
  destruct (applyGrouping_groups _ _ _ _ _ Hres) as [Hnd Hcards].
  split; [split_and!|]; simpl.
  - apply Forall_forall. intros kid (g & -> & Hg)%list_elem_of_fmap.
    exists (GroupingResult.key g). split; [done|].
    eapply applyGrouping_bar_free; [done| |done].
    intros c k Hc. apply Hbar. by apply Hsound.
  - clear -Hnd. induction res as [|g res IH]; [constructor|].
    rewrite fmap_cons in Hnd. apply NoDup_cons in Hnd as [Hg Hnd].
    cbn [map]. rewrite fmap_cons. apply NoDup_cons. split; [|by apply IH].
    intros (kid & Hk & (g' & -> & Hg')%list_elem_of_fmap)%list_elem_of_fmap.
    simpl in Hk. do 2 apply (inj (String.append _)) in Hk.
    apply Hg. rewrite Hk. by apply list_elem_of_fmap_2.
  - rewrite <-list_fmap_compose.
    erewrite <-(applyGrouping_lengths _ _ _ _ res); [done|done|].
    intros Hg c Hc. apply Hdrop; [done|]. by apply Hsound.
  - apply Forall_forall. intros kid (g & -> & Hg)%list_elem_of_fmap.
    unfold sound. simpl. rewrite (Hcards g Hg).
    intros c [_ Hc]%list_elem_of_filter. by apply Hsound.
Qed.

Lemma run_of_length groupings level passes :
  run_of metadata collator groupings level passes → length passes = length groupings.
Proof.
  revert level passes. induction groupings as [|grouping groupings IH];
    intros level [|pass passes]; simpl; try done.
  intros (_ & _ & Hrun). f_equal. by eapply IH.
Qed.

Lemma run_of_chained groupings level passes :
  (∀ grouping c k, grouping ∈ groupings → c ∈ cards →
     dimension_key grouping metadata c = Some k → includes_bar k = false) →
  (G_subtype ∈ groupings → ∀ c, c ∈ cards → subtype_of c ∈ fixed_subtypes) →
  Forall (sound cards) level →
  run_of metadata collator groupings level passes → chained level passes.
Proof.
  revert level passes. induction groupings as [|grouping groupings IH];
    intros level [|pass passes] Hbar Hdrop Hsound; simpl; try done.
  intros (Hpass & Hexp & Hrun). subst level.
  assert (Forall (λ expansion,
            good_expansion expansion ∧ Forall (sound cards) expansion.2) pass) as Hgood.
  { rewrite Forall_forall in Hexp. rewrite Forall_forall in Hsound.
    apply Forall_forall.
    intros [group kids] Hin. simpl.
    eapply (expand_good grouping).
    - intros c k. apply Hbar. left.
    - intros -> c. apply Hdrop. left.
    - apply Hsound. by apply (list_elem_of_fmap_2 fst _ (group, kids)).
    - by apply (Hexp (group, kids)). }
  split_and!; [done|eapply Forall_impl; [exact Hgood|by intros ? [? ?]]|].
  apply IH; [| |clear -Hgood|done].
  - intros g c k Hg. apply Hbar. by right.
  - intros Hs. apply Hdrop. by right.
  - induction Hgood as [|[group kids] pass [_ Hkids] _ IH']; [constructor|].
    simpl. by apply Forall_app.
Qed.

End run_of.

(** C3, as the code has it: when no key segment has a bar and no expansion
    along subtype drops a card, every entry of the hierarchy with a parent
    has the entry of that parent in the hierarchy, and the count of the
    parent is the sum of the counts of its direct children; the entry of a
    leaf has no children, and its count is the number of cards of the
    leaf. *)
Theorem hierarchy_parent_consistency _groupings cards sortFunction metadata
    collator result :
  (∀ grouping c k, grouping ∈ _groupings → c ∈ cards →
     dimension_key grouping metadata c = Some k → includes_bar k = false) →
  (G_subtype ∈ drop 1 _groupings →
     ∀ c, c ∈ cards → subtype_of c ∈ fixed_subtypes) →
  getGroupedCards _groupings cards sortFunction metadata collator
  = Some result →
  (∀ k entry parent,
     GroupedCards.hierarchy result !! k = Some entry →
     GroupTreeEntry.parent entry = Some parent →
     ∃ parent_entry,
       GroupedCards.hierarchy result !! parent = Some parent_entry
       ∧ GroupTreeEntry.count parent_entry
         = children_count (GroupedCards.hierarchy result) parent)
  ∧ (∀ leaf, leaf ∈ GroupedCards.data result →
       ∃ entry,
         GroupedCards.hierarchy result !! GroupingResult.key leaf = Some entry
         ∧ GroupTreeEntry.count entry = length (GroupingResult.cards leaf)
         ∧ direct_children (GroupedCards.hierarchy result)
             (GroupingResult.key leaf) = []).
Proof.
  intros Hbar Hdrop. unfold getGroupedCards. fold (effective _groupings).
  assert (∀ grouping c k, grouping ∈ effective _groupings → c ∈ cards →
    dimension_key grouping metadata c = Some k → includes_bar k = false)
    as Hbar'.
  { intros grouping c k. unfold effective. case_bool_decide; [apply Hbar|].
    intros ->%list_elem_of_singleton _ [= <-]. done. }
  assert (drop 1 (effective _groupings) = drop 1 _groupings) as Hdrop1.
  { unfold effective. case_bool_decide; [done|]. by destruct _groupings. }
  destruct (effective _groupings) as [|first groupings] eqn:Heff; [done|].
  simpl. simpl in Hdrop1. rewrite drop_0 in *. subst groupings.
  destruct (applyGrouping cards first metadata collator) as [level|] eqn:Hlevel;
    [simpl|done].
  destruct (applyGrouping_groups _ _ _ _ _ Hlevel) as [Hnd Hcards].
  intros Hget.
  assert (at_level 0 level) as Hat.
  { split; [done|]. apply Forall_forall. intros g Hg.
    apply includes_bar_bars. eapply applyGrouping_bar_free; [done| |done].
    intros c k. apply Hbar'. left. }
  assert (Forall (sound cards) level) as Hsound.
  { apply Forall_forall. intros g Hg. unfold sound. rewrite (Hcards g Hg).
    by intros c [_ Hc]%list_elem_of_filter. }
  assert (∃ passes hierarchy,
    chained level passes
    ∧ map_to_list hierarchy ≡ₚ keyed_entry <$> all_groups level passes
    ∧ result = GroupedCards.mk
        (map (sort_cards sortFunction) (last_level level passes)) hierarchy)
    as (passes & hierarchy & Hch & Hh & ->).
  { revert Hget. case_bool_decide as Hlen; intros Hget.
    - rewrite reduce_expand_pass in Hget.
      destruct (build _ metadata collator (level, ∅))
        as [[leaves hierarchy]|] eqn:Hbuild; [simpl in Hget|done].
      injection Hget as <-.
      apply build_run_of in Hbuild as (passes & Hrun & -> & ->).
      assert (chained level passes) as Hch.
      { eapply run_of_chained; [| |done..].
        - intros g c k Hg. apply Hbar'. by right.
        - done. }
      exists passes, (foldl register_expansion ∅ (concat passes)).
      split_and!; [done| |done].
      apply run_hierarchy; [done..|].
      apply run_of_length in Hrun. destruct passes; [|done].
      destruct (drop 1 _groupings); simpl in *; lia.
    - simpl in Hget. injection Hget as <-.
      exists [], (foldl (λ h group, register h group None) ∅ level).
      split_and!; [done|by apply flat_hierarchy|done]. }
  simpl. split.
  - intros k entry parent. by apply (run_parent_consistency level passes).
  - intros leaf (g & -> & Hg)%list_elem_of_fmap.
    destruct (run_leaf level passes hierarchy Hat Hch Hh g Hg) as [Hl Hc].
    exists (entry_of g). split_and!; [done| |done].
    simpl. by rewrite sort_total_length.
Qed.

(** C7, as the code has it: for a type that is no dimension and is not
    ["default"], the label is the empty string; for the type ["default"] it
    is the segment itself. Under a dimension the label is the empty string
    for the [NONE] segment of subtype, for a segment of base_upgrades that is
    neither [level0] nor [upgrade], and for a segment of encounter_set that
    names neither an encounter set of the metadata nor a property that
    objects inherit. *)
Theorem getGroupingKeyLabel_fallback :
  (∀ type segment metadata,
     ¬ recognized type → type ≠ "default" →
     getGroupingKeyLabel type segment metadata = "")
  ∧ (∀ segment metadata,
       getGroupingKeyLabel "default" segment metadata = segment)
  ∧ (∀ metadata, getGroupingKeyLabel "subtype" NONE metadata = "")
  ∧ (∀ segment metadata,
       segment ≠ LEVEL_0 → segment ≠ UPGRADE →
       getGroupingKeyLabel "base_upgrades" segment metadata = "")
  ∧ (∀ segment metadata,
       Metadata.encounterSets metadata !! segment = None →
       inherited segment = false →
       getGroupingKeyLabel "encounter_set" segment metadata = "").
Proof.
  split_and!.
  - intros type segment metadata Hr Hd. unfold getGroupingKeyLabel.
    repeat (case_bool_decide as Ht;
      [destruct Hr; subst type;
       first [by exists G_none | by exists G_subtype | by exists G_type
             | by exists G_cycle | by exists G_encounter_set
             | by exists G_slot | by exists G_level | by exists G_cost
             | by exists G_faction | by exists G_base_upgrades
             | by exists G_pack | done]|clear Ht]).
    done.
  - done.
  - done.
  - intros segment metadata H0 H1. unfold getGroupingKeyLabel. simpl.
    by rewrite !bool_decide_eq_false_2 by done.
  - intros segment metadata Hs Hi. unfold getGroupingKeyLabel. simpl.
    unfold get_property. by rewrite Hs, Hi.
Qed.

(** ** The caller's array, after the call *)

Lemma read_created passed group : read_group passed (created group) = group.
Proof. by destruct group. Qed.

Lemma applyGrouping_ref_read passed cards grouping metadata collator :
  map (read_group passed)
    <$> applyGrouping_ref passed cards grouping metadata collator
  = applyGrouping (contents passed cards) grouping metadata collator.
Proof.
  assert (∀ res : option (list GroupingResult),
    map (read_group passed) <$> (map created <$> res) = res) as Hread.
  { intros [res|]; [simpl|done]. f_equal. rewrite map_map.
    rewrite <-(map_id res) at 2. apply map_ext. apply read_created. }
  destruct grouping; simpl; by rewrite ?Hread.
Qed.

Lemma register_ref_read passed hierarchy group parent :
  register_ref passed hierarchy group parent
  = register hierarchy (read_group passed group) parent.
Proof. done. Qed.

Lemma foldl_register_ref_read passed hierarchy groups parent :
  foldl (λ h g, register_ref passed h g parent) hierarchy groups
  = foldl (λ h g, register h g parent) hierarchy
      (map (read_group passed) groups).
Proof.
  revert hierarchy. induction groups as [|g groups IH]; intros hierarchy;
    simpl; [done|]. by rewrite IH.
Qed.

Lemma splice_one_map {A B} (f : A → B) data j expanded :
  map f (splice_one data j expanded)
  = splice_one (map f data) j (map f expanded).
Proof.
  unfold splice_one. rewrite !map_app. f_equal; [|f_equal].
  - symmetry. apply firstn_map.
  - symmetry. apply skipn_map.
Qed.

(** The expansion loop on arrays does on the cards what the loop on values
    does. *)
Lemma expand_from_ref_read fuel passed grouping metadata collator data
    hierarchy j :
  (λ state, (map (read_group passed) state.1, state.2))
    <$> expand_from_ref fuel passed grouping metadata collator data
          hierarchy j
  = expand_from fuel grouping metadata collator
      (map (read_group passed) data) hierarchy j.
Proof.
  revert data hierarchy j. induction fuel as [|fuel IH];
    intros data hierarchy j; simpl; rewrite length_map;
    case_bool_decide; try done.
  change (map (read_group passed) data) with (read_group passed <$> data).
  rewrite list_lookup_fmap.
  destruct (data !! j) as [group|]; [simpl|done].
  rewrite <-applyGrouping_ref_read.
  destruct (applyGrouping_ref passed _ grouping metadata collator)
    as [expanded|]; [simpl|done].
  change (read_group passed <$> data) with (map (read_group passed) data).
  assert (map (prefixed (read_group passed group))
            (map (read_group passed) expanded)
          = map (read_group passed) (map (prefixed_ref group) expanded))
    as -> by (by rewrite !map_map).
  rewrite <-splice_one_map, <-foldl_register_ref_read, !length_map.
  apply IH.
Qed.

Lemma reduce_expand_pass_ref_read passed metadata collator groupings data
    hierarchy :
  (λ state, (map (read_group passed) state.1, state.2))
    <$> reduce (expand_pass_ref passed metadata collator) groupings
          (data, hierarchy)
  = reduce (expand_pass metadata collator) groupings
      (map (read_group passed) data, hierarchy).
Proof.
  revert data hierarchy. induction groupings as [|grouping groupings IH];
    intros data hierarchy; simpl; [done|].
  unfold expand_pass_ref, expand_pass. simpl.
  rewrite length_map, <-expand_from_ref_read.
  destruct (expand_from_ref _ passed grouping metadata collator data hierarchy 0)
    as [[data' hierarchy']|]; [simpl|done].
  apply IH.
Qed.

Lemma applyGrouping_ref_owned passed cards grouping metadata collator res :
  cards ≠ Passed ∨ grouping ≠ G_none →
  applyGrouping_ref passed cards grouping metadata collator = Some res →
  owned res.
Proof.
  assert (∀ groups, owned (map created groups)) as Hcreated.
  { intros groups. apply Forall_forall.
    by intros g (g' & -> & _)%list_elem_of_fmap. }
  intros Hor Hres. destruct grouping; simpl in Hres;
    try (apply fmap_Some in Hres as (groups & _ & ->); apply Hcreated).
  injection Hres as <-. destruct Hor as [Hc|Hg]; [|done].
  by apply Forall_singleton.
Qed.

Lemma owned_prefixed group expanded :
  owned expanded → owned (map (prefixed_ref group) expanded).
Proof.
  unfold owned. rewrite !Forall_forall.
  intros Ho g (g' & -> & Hg')%list_elem_of_fmap. simpl. by apply Ho.
Qed.

Lemma expand_from_ref_owned fuel passed grouping metadata collator data
    hierarchy j data' hierarchy' :
  owned data →
  expand_from_ref fuel passed grouping metadata collator data hierarchy j
  = Some (data', hierarchy') →
  owned data'.
Proof.
  revert data hierarchy j. induction fuel as [|fuel IH];
    intros data hierarchy j Ho; simpl; case_bool_decide; try done;
    try (by intros [= <- <-]).
  destruct (data !! j) as [group|] eqn:Hgroup; [simpl|done].
  destruct (applyGrouping_ref passed _ grouping metadata collator)
    as [expanded|] eqn:Hexp; [simpl|done].
  apply IH. unfold splice_one, owned. rewrite !Forall_app. split_and!.
  - by apply Forall_take.
  - apply owned_prefixed. eapply applyGrouping_ref_owned; [|done]. left.
    unfold owned in Ho. rewrite Forall_forall in Ho. eapply Ho.
    by eapply list_elem_of_lookup_2.
  - by apply Forall_drop.
Qed.

Lemma reduce_expand_pass_ref_owned passed metadata collator groupings data
    hierarchy data' hierarchy' :
  owned data →
  reduce (expand_pass_ref passed metadata collator) groupings
    (data, hierarchy) = Some (data', hierarchy') →
  owned data'.
Proof.
  revert data hierarchy. induction groupings as [|grouping groupings IH];
    intros data hierarchy Ho; simpl; [by intros [= <- <-]|].
  destruct (expand_pass_ref passed metadata collator (data, hierarchy) grouping)
    as [[data1 hierarchy1]|] eqn:Hpass; [simpl|done].
  apply IH. by eapply expand_from_ref_owned.
Qed.

Lemma expand_pass_ref_aliased passed metadata collator grouping data
    hierarchy data' hierarchy' :
  aliased data →
  expand_pass_ref passed metadata collator (data, hierarchy) grouping
  = Some (data', hierarchy') →
  if bool_decide (grouping = G_none) then aliased data' else owned data'.
Proof.
  intros (g & -> & Hg). unfold expand_pass_ref. simpl.
  destruct (applyGrouping_ref passed _ grouping metadata collator)
    as [expanded|] eqn:Hexp; [simpl|done].
  unfold splice_one. simpl. rewrite app_nil_r.
  rewrite bool_decide_eq_false_2 by lia.
  intros [= <- <-]. case_bool_decide as Hn.
  - subst grouping. simpl in Hexp. injection Hexp as <-. simpl.
    eexists. split; [done|]. done.
  - apply owned_prefixed. eapply applyGrouping_ref_owned; [|done]. by right.
Qed.

Lemma reduce_expand_pass_ref_aliased passed metadata collator groupings data
    hierarchy data' hierarchy' :
  aliased data →
  reduce (expand_pass_ref passed metadata collator) groupings
    (data, hierarchy) = Some (data', hierarchy') →
  if all_none groupings then aliased data' else owned data'.
Proof.
  revert data hierarchy. induction groupings as [|grouping groupings IH];
    intros data hierarchy Ha; simpl; [by intros [= <- <-]|].
  destruct (expand_pass_ref passed metadata collator (data, hierarchy) grouping)
    as [[data1 hierarchy1]|] eqn:Hpass; [simpl|done].
  pose proof (expand_pass_ref_aliased _ _ _ _ _ _ _ _ Ha Hpass) as Hnext.
  destruct (bool_decide (grouping = G_none)); simpl.
  - by apply IH.
  - by apply reduce_expand_pass_ref_owned.
Qed.

(** The final sort, on groups of which none refers to the caller's array:
    the array stays as it is. *)
Lemma sort_in_place_owned sortFunction passed sorted data :
  owned data →
  ∃ sorted',
    foldl (sort_in_place sortFunction) (sorted, passed) data
    = (sorted ++ sorted', passed)
    ∧ ∀ passed',
        map (read_group passed') sorted'
        = map (sort_cards sortFunction) (map (read_group passed) data).
Proof.
  intros Ho. revert sorted. induction Ho as [|g data Hg _ IH]; intros sorted.
  - exists []. by rewrite app_nil_r.
  - simpl. unfold sort_in_place at 2. simpl.
    destruct (GroupRef.cards g) as [cards|] eqn:Hcards; [|done].
    destruct (IH (sorted ++ [GroupRef.mk (Created (sort_total sortFunction cards))
                               (GroupRef.key g) (GroupRef.type g)]))
      as (sorted' & -> & Hread).
    eexists (_ :: sorted'). split; [by rewrite <-app_assoc|].
    intros passed'. simpl. rewrite Hread. f_equal.
    unfold read_group, sort_cards. simpl. by rewrite Hcards.
Qed.

(** The final sort, on the one group that refers to the caller's array:
    the array is sorted. *)
Lemma sort_in_place_aliased sortFunction passed data :
  aliased data →
  foldl (sort_in_place sortFunction) ([], passed) data
  = (data, sort_total sortFunction passed)
  ∧ map (read_group (sort_total sortFunction passed)) data
    = map (sort_cards sortFunction) (map (read_group passed) data).
Proof.
  intros (g & -> & Hg). simpl. unfold sort_in_place, read_group, sort_cards.
  simpl. by rewrite Hg.
Qed.

Lemma getGroupedCards_ref_passes _groupings passed sortFunction metadata
    collator :
  getGroupedCards_ref _groupings passed sortFunction metadata collator
  = state ← passes_ref _groupings passed metadata collator;
    let sorted := foldl (sort_in_place sortFunction) ([], passed) state.1 in
    Some (GroupedRefs.mk sorted.1 state.2, sorted.2).
Proof.
  unfold getGroupedCards_ref, passes_ref. fold (effective _groupings).
  destruct (effective _groupings !! 0) as [first|]; [simpl|done].
  by destruct (applyGrouping_ref passed Passed first metadata collator).
Qed.

Lemma passes_ref_read _groupings passed metadata collator :
  (λ state, (map (read_group passed) state.1, state.2))
    <$> passes_ref _groupings passed metadata collator
  = first ← effective _groupings !! 0;
    data ← applyGrouping passed first metadata collator;
    if bool_decide (1 < length (effective _groupings)) then
      reduce (expand_pass metadata collator)
        (drop 1 (effective _groupings)) (data, ∅)
    else Some (data, foldl (λ h group, register h group None) ∅ data).
Proof.
  unfold passes_ref.
  destruct (effective _groupings !! 0) as [first|]; [simpl|done].
  rewrite <-(applyGrouping_ref_read passed Passed).
  destruct (applyGrouping_ref passed Passed first metadata collator)
    as [data|]; [simpl|done].
  case_bool_decide.
  - apply reduce_expand_pass_ref_read.
  - simpl. by rewrite foldl_register_ref_read.
Qed.

Lemma passes_ref_aliasing _groupings passed metadata collator data hierarchy :
  passes_ref _groupings passed metadata collator = Some (data, hierarchy) →
  if all_none (effective _groupings) then aliased data else owned data.
Proof.
  unfold passes_ref.
  destruct (effective _groupings) as [|first groupings] eqn:Heff; [done|].
  simpl. rewrite drop_0.
  destruct (applyGrouping_ref passed Passed first metadata collator)
    as [level|] eqn:Hlevel; [simpl|done].
  assert (if bool_decide (first = G_none) then aliased level else owned level)
    as Hfirst.
  { case_bool_decide as Hn.
    - subst first. simpl in Hlevel. injection Hlevel as <-. by eexists.
    - eapply applyGrouping_ref_owned; [|done]. by right. }
  destruct (bool_decide (1 < S (length groupings))) eqn:Hlen.
  - intros Hred. destruct (bool_decide (first = G_none)); simpl.
    + exact (reduce_expand_pass_ref_aliased _ _ _ _ _ _ _ _ Hfirst Hred).
    + exact (reduce_expand_pass_ref_owned _ _ _ _ _ _ _ _ Hfirst Hred).
  - intros [= <- <-]. apply bool_decide_eq_false in Hlen.
    destruct groupings; [|simpl in Hlen; lia].
    simpl. by rewrite andb_true_r.
Qed.

(** X26: the builder on arrays returns what the builder on values returns: the
    values are what the caller reads in the arrays after the call. *)
Theorem getGroupedCards_ref_read _groupings passed sortFunction metadata
    collator :
  read_result
    <$> getGroupedCards_ref _groupings passed sortFunction metadata collator
  = getGroupedCards _groupings passed sortFunction metadata collator.
Proof.
  rewrite getGroupedCards_ref_passes.
  unfold getGroupedCards. fold (effective _groupings).
  pose proof (passes_ref_read _groupings passed metadata collator) as Hread.
  destruct (effective _groupings !! 0) as [first|]; simpl in *; last first.
  { by destruct (passes_ref _ _ _ _). }
  destruct (applyGrouping passed first metadata collator) as [level|];
    simpl in *; last first.
  { by destruct (passes_ref _ _ _ _). }
  rewrite <-Hread. clear Hread.
  destruct (passes_ref _groupings passed metadata collator)
    as [[data hierarchy]|] eqn:Hpasses; [simpl|done].
  apply passes_ref_aliasing in Hpasses.
  unfold read_result. simpl. f_equal. f_equal.
  destruct (all_none (effective _groupings)).
  - destruct (sort_in_place_aliased sortFunction passed data Hpasses)
      as [-> Hsorted]. simpl. apply Hsorted.
  - destruct (sort_in_place_owned sortFunction passed [] data Hpasses)
      as (sorted & -> & Hsorted). simpl. apply Hsorted.
Qed.

(** The caller's array after the call: sorted when every dimension is
    ["none"], as the caller passed it otherwise. *)
Theorem getGroupedCards_ref_passed _groupings passed sortFunction metadata
    collator result passed' :
  getGroupedCards_ref _groupings passed sortFunction metadata collator
  = Some (result, passed') →
  passed' = if all_none (effective _groupings)
            then sort_total sortFunction passed else passed.
Proof.
  rewrite getGroupedCards_ref_passes.
  destruct (passes_ref _groupings passed metadata collator)
    as [[data hierarchy]|] eqn:Hpasses; [simpl|done].
  apply passes_ref_aliasing in Hpasses. intros [= _ <-].
  destruct (all_none (effective _groupings)).
  - by destruct (sort_in_place_aliased sortFunction passed data Hpasses)
      as [-> _].
  - by destruct (sort_in_place_owned sortFunction passed [] data Hpasses)
      as (sorted & -> & _).
Qed.

(** ** Groups without cards *)

Lemma expand_nonempty grouping metadata collator group kids :
  on_demand grouping →
  expand grouping metadata collator group = Some kids →
  Forall (λ g, GroupingResult.cards g ≠ []) kids.
Proof.
  intros Hd. unfold expand.
  destruct (applyGrouping _ grouping metadata collator) as [res|] eqn:Hres;
    [simpl|done].
  intros [= <-].
  destruct (applyGrouping_on_demand _ _ _ _ _ Hd Hres) as (_ & Hne & _).
  clear Hres. induction Hne as [|g res Hg _ IH]; simpl; by constructor.
Qed.

Lemma descend_nonempty groupings metadata collator level leaves :
  Forall on_demand groupings →
  Forall (λ g, GroupingResult.cards g ≠ []) level →
  descend groupings metadata collator level = Some leaves →
  Forall (λ g, GroupingResult.cards g ≠ []) leaves.
Proof.
  intros Hd. revert level. induction Hd as [|grouping groupings Hg _ IH];
    intros level Hlevel; simpl; [by intros [= <-]|].
  destruct (mapM _ level) as [expanded|] eqn:Hm; [simpl|done].
  apply IH. apply mapM_Some in Hm. clear -Hm Hg.
  induction Hm as [|group kids level expanded Hexp _ IH']; simpl;
    [constructor|].
  apply Forall_app. split; [by eapply expand_nonempty|done].
Qed.

(** C2, as the code has it: a dimension whose strategy creates its buckets
    on demand returns no group with an empty card list, and neither does the
    builder along such dimensions; the none dimension returns the whole
    input as its one group, which is empty exactly when the input is. *)
Theorem applyGrouping_nonempty :
  (∀ cards grouping metadata collator res,
     on_demand grouping →
     applyGrouping cards grouping metadata collator = Some res →
     Forall (λ g, GroupingResult.cards g ≠ []) res)
  ∧ (∀ cards metadata collator,
       applyGrouping cards G_none metadata collator
       = Some [GroupingResult.mk cards "all" "none"])
  ∧ (∀ _groupings cards sortFunction metadata collator result,
       _groupings ≠ [] → Forall on_demand _groupings →
       getGroupedCards _groupings cards sortFunction metadata collator
       = Some result →
       Forall (λ g, GroupingResult.cards g ≠ []) (GroupedCards.data result)).
Proof.
  split_and!.
  - intros cards grouping metadata collator res Hd Hres.
    by eapply applyGrouping_on_demand.
  - done.
  - intros _groupings cards sortFunction metadata collator result Hne Hd Hres.
    assert (GroupedCards.data
              <$> getGroupedCards _groupings cards sortFunction metadata
                    collator = Some (GroupedCards.data result)) as Hdata
      by (by rewrite Hres).
    rewrite getGroupedCards_data in Hdata.
    assert (effective _groupings = _groupings) as Heff.
    { unfold effective. rewrite bool_decide_eq_true_2; [done|].
      by destruct _groupings. }
    rewrite Heff in Hdata.
    destruct _groupings as [|first groupings]; [done|]. simpl in Hdata.
    apply Forall_cons in Hd as [Hfirst Hd].
    destruct (applyGrouping cards first metadata collator) as [level|] eqn:Hl;
      [simpl in Hdata|done].
    rewrite drop_0 in Hdata.
    destruct (descend groupings metadata collator level) as [leaves|] eqn:Hleaves;
      [simpl in Hdata|done].
    injection Hdata as <-.
    assert (Forall (λ g, GroupingResult.cards g ≠ []) leaves) as Hall.
    { eapply descend_nonempty; [done| |done].
      by eapply applyGrouping_on_demand. }
    clear -Hall. apply Forall_forall.
    intros g' (g & -> & Hg)%list_elem_of_fmap.
    rewrite Forall_forall in Hall. specialize (Hall g Hg).
    unfold sort_cards. cbn [GroupingResult.cards]. intros Hnil. apply Hall.
    apply (f_equal length) in Hnil. rewrite sort_total_length in Hnil.
    by destruct (GroupingResult.cards g).
Qed.

(** ** When the partitioner returns *)

Lemma sort_insert_is_Some {A} (cmp : A → A → option Z) x l :
  (∀ y, y ∈ l → is_Some (cmp y x)) → is_Some (sort_insert cmp x l).
Proof.
  induction l as [|y l IH]; intros Hcmp; simpl; [done|].
  destruct (Hcmp y) as [c ->]; [left|]. simpl.
  case_bool_decide; [|done].
  destruct IH as [l' ->]; [|done]. intros z Hz. apply Hcmp. by right.
Qed.

Lemma sort_is_Some {A} (cmp : A → A → option Z) l :
  (∀ a b, a ∈ l → b ∈ l → is_Some (cmp a b)) → is_Some (sort cmp l).
Proof.
  induction l as [|x l IH]; intros Hcmp; simpl; [done|].
  destruct IH as [s Hs].
  { intros a b Ha Hb. apply Hcmp; by right. }
  rewrite Hs. simpl. apply sort_insert_is_Some. intros y Hy.
  apply Hcmp; [|left]. right. by rewrite <-(sort_Permutation _ _ _ Hs).
Qed.

Lemma bucket_step_groupings {K} `{Key K} (bucket : Card → option K) cards g g' k :
  reduce (bucket_step bucket) cards g = Some g' →
  k ∈ Grouping.groupings g' →
  k ∈ Grouping.groupings g ∨ ∃ c, c ∈ cards ∧ bucket c = Some k.
Proof.
  revert g. induction cards as [|card cards IH]; intros g; simpl.
  - intros [= <-]. by left.
  - destruct (bucket_step bucket g card) as [g1|] eqn:Hstep; [simpl|done].
    intros Hred Hk. destruct (IH _ Hred Hk) as [Hin|(c & Hc & Hb)].
    + unfold bucket_step, push_or_create in Hstep.
      destruct (bucket card) as [code|] eqn:Hcode; [simpl in Hstep|done].
      destruct (get_property _ _); simplify_eq; simpl in Hin.
      * by left.
      * apply elem_of_app in Hin as [Hin|Hin%list_elem_of_singleton];
          [by left|]. subst k. right. exists card. split; [left|done].
    + right. exists c. split; [by right|done].
Qed.

Lemma group_by_key_is_Some {K} `{Key K} (bucket : Card → option K) cmp ty
    cards :
  (∀ c, c ∈ cards →
     ∃ k, bucket c = Some k ∧ inherited (key_string k) = false) →
  (∀ a b ca cb, ca ∈ cards → cb ∈ cards →
     bucket ca = Some a → bucket cb = Some b → is_Some (cmp a b)) →
  is_Some (group_by_key bucket cmp ty cards).
Proof.
  intros Hbucket Hcmp. unfold group_by_key.
  destruct (bucketed_reduce_is_Some bucket cards [] (Grouping.mk ∅ [] ty)
              (bucketed_init bucket ty) Hbucket) as [g1 Hred].
  rewrite Hred. simpl.
  destruct (bucketed_reduce bucket cards [] _ _ (bucketed_init bucket ty) Hred)
    as [[Hnd Hdom Hdata Hall] Hty]. simpl in *.
  assert (∀ k, k ∈ Grouping.groupings g1 →
    ∃ cs, Grouping.data g1 !! key_string k = Some cs ∧ cs ≠ []) as Hne.
  { intros k Hk.
    destruct (proj1 (Hdom (key_string k))) as [cs Hcs];
      [by apply list_elem_of_fmap_2|].
    exists cs. split; [done|]. by apply (Hdata _ _ Hcs). }
  rewrite omitEmptyGroupings_nonempty by done. simpl. unfold sort_groupings.
  destruct (sort_is_Some cmp (Grouping.groupings g1)) as [ks Hks].
  { intros a b Ha Hb.
    destruct (bucket_step_groupings bucket _ _ _ a Hred Ha)
      as [[]%elem_of_nil|(ca & Hca & Hba)].
    destruct (bucket_step_groupings bucket _ _ _ b Hred Hb)
      as [[]%elem_of_nil|(cb & Hcb & Hbb)].
    exact (Hcmp a b ca cb Hca Hcb Hba Hbb). }
  rewrite Hks. simpl. apply toGroupingResult_is_Some. simpl.
  intros k Hk. rewrite (sort_Permutation _ _ _ Hks) in Hk.
  destruct (Hne k Hk) as (cs & -> & _). done.
Qed.

Lemma pure_cmp_is_Some {A} (cmp : A → A → Z) a b : is_Some (pure_cmp cmp a b).
Proof. done. Qed.

(** [applyGrouping] returns when no card makes its strategy read an
    inherited property and, for the dimensions that consult the metadata,
    the metadata is complete. *)
Lemma applyGrouping_returns cards grouping metadata collator :
  (∀ c, c ∈ cards → reads_inherited grouping metadata c = false) →
  (grouping = G_cycle ∨ grouping = G_pack →
     referential_integrity metadata cards) →
  is_Some (applyGrouping cards grouping metadata collator).
Proof.
  intros Hread Hmeta.
  assert (∀ K (HK : Key K) (bucket : Card → option K) cmp ty,
    (∀ c, is_Some (bucket c)) →
    (∀ c, key_string <$> bucket c = dimension_key grouping metadata c) →
    (∀ c, reads_inherited grouping metadata c
          = from_option inherited false (dimension_key grouping metadata c)) →
    is_Some (group_by_key bucket (pure_cmp cmp) ty cards)) as Hpure.
  { intros K HK bucket cmp ty Hsome Hkey Hri. apply group_by_key_is_Some.
    - intros c Hc. destruct (Hsome c) as [k Hk]. exists k. split; [done|].
      specialize (Hread c Hc). rewrite Hri, <-Hkey, Hk in Hread. done.
    - intros. apply pure_cmp_is_Some. }
  destruct grouping; simpl.
  - done.
  - rewrite groupBySubtypeCode_eq.
    assert (existsb subtype_throws cards = false) as ->; [|done].
    apply not_true_is_false. intros (c & Hc & Ht)%existsb_exists.
    apply list_elem_of_In in Hc. specialize (Hread c Hc). simpl in Hread.
    congruence.
  - rewrite groupByTypeCode_eq. by apply Hpure.
  - rewrite groupBySlots_eq. by apply Hpure.
  - rewrite groupByLevel_eq. apply Hpure; [done| |done].
    intros c. simpl. by destruct (Card.xp c).
  - by rewrite groupByLevel0VsUpgrade_eq.
  - rewrite groupByFaction_eq. by apply Hpure.
  - rewrite groupByEncounterSet_eq. by apply Hpure.
  - rewrite groupByCost_eq. apply Hpure; [done| |done].
    intros c. simpl. by destruct (Card.cost c).
  - rewrite groupByCycle_eq.
    destruct Hmeta as (Hpk & Hck & Hpc & Hcp); [by left|].
    apply group_by_key_is_Some.
    + intros c Hc. specialize (Hread c Hc). simpl in *.
      destruct (Hcp c Hc) as [pack Hpack]. rewrite Hpack in *. simpl in *.
      destruct (Hpc _ _ Hpack) as [cycle Hcycle]. rewrite Hcycle in *.
      simpl in *. by exists (Cycle.code cycle).
    + intros a b ca cb Hca Hcb Ha Hb. simpl in Ha, Hb.
      destruct (Metadata.packs metadata !! Card.pack_code ca) as [pa|];
        [simpl in Ha|done].
      destruct (Metadata.packs metadata !! Card.pack_code cb) as [pb|];
        [simpl in Hb|done].
      destruct (Metadata.cycles metadata !! Pack.cycle_code pa) as [cya|] eqn:Hcya;
        [simpl in Ha|done].
      destruct (Metadata.cycles metadata !! Pack.cycle_code pb) as [cyb|] eqn:Hcyb;
        [simpl in Hb|done].
      injection Ha as <-. injection Hb as <-. unfold compare_cycles.
      rewrite (Hck _ _ Hcya), (Hck _ _ Hcyb), Hcya, Hcyb. done.
  - rewrite groupByPack_eq.
    destruct Hmeta as (Hpk & Hck & Hpc & Hcp); [by right|].
    assert (∀ c code, c ∈ cards → pack_bucket metadata c = Some code →
      ∃ pack, Metadata.packs metadata !! code = Some pack) as Hbucket.
    { intros c code Hc. destruct (Hcp c Hc) as [pack Hp].
      rewrite (pack_bucket_eq _ _ _ Hpk Hp). unfold is_reprint_pack.
      destruct (Metadata.packs metadata !! reprint_code pack c) as [rp|] eqn:Hrp.
      - destruct (Pack.reprint rp); intros [= <-]; eauto.
      - intros [= <-]. eauto. }
    apply group_by_key_is_Some.
    + intros c Hc. specialize (Hread c Hc). simpl in Hread.
      destruct (Hcp c Hc) as [pack Hpack].
      destruct (pack_bucket metadata c) as [code|] eqn:Hcode.
      * by exists code.
      * unfold pack_bucket in Hcode. by rewrite Hpack in Hcode.
    + intros a b ca cb Hca Hcb Ha Hb.
      destruct (Hbucket _ _ Hca Ha) as [pa Hpa].
      destruct (Hbucket _ _ Hcb Hb) as [pb Hpb].
      destruct (Hpc _ _ Hpa) as [cya Hcya]. destruct (Hpc _ _ Hpb) as [cyb Hcyb].
      unfold compare_packs. rewrite Hpa, Hpb. simpl. rewrite Hcya. simpl.
      rewrite Hcyb. simpl. by case_bool_decide.
Qed.

Lemma referential_integrity_mono metadata cards sub :
  sub ⊆ cards →
  referential_integrity metadata cards → referential_integrity metadata sub.
Proof.
  intros Hsub (Hpk & Hck & Hpc & Hcp). split_and!; [done..|].
  intros c Hc. apply Hcp. by apply Hsub.
Qed.

Lemma descend_returns groupings metadata collator cards level :
  (∀ grouping c, grouping ∈ groupings → c ∈ cards →
     reads_inherited grouping metadata c = false) →
  (G_cycle ∈ groupings ∨ G_pack ∈ groupings →
     referential_integrity metadata cards) →
  Forall (sound cards) level →
  is_Some (descend groupings metadata collator level).
Proof.
  revert level. induction groupings as [|grouping groupings IH];
    intros level Hread Hmeta Hsound; simpl; [done|].
  assert (∃ expanded,
    mapM (expand grouping metadata collator) level = Some expanded
    ∧ Forall (sound cards) (concat expanded)) as (expanded & -> & Hexp).
  { clear IH. induction Hsound as [|group level Hgroup _ IH'].
    - exists []. split; [done|constructor].
    - destruct IH' as (expanded & Hm & Hexp).
      destruct (applyGrouping_returns (GroupingResult.cards group) grouping
                  metadata collator) as [kids Hkids].
      { intros c Hc. apply Hread; [left|by apply Hgroup]. }
      { intros Hg. apply (referential_integrity_mono _ cards); [done|].
        apply Hmeta. destruct Hg as [->| ->]; [left|right]; left. }
      exists (map (prefixed group) kids :: expanded). split.
      + apply mapM_Some_2. constructor; [|by apply mapM_Some_1].
        unfold expand. by rewrite Hkids.
      + simpl. apply Forall_app. split; [|done].
        destruct (applyGrouping_groups _ _ _ _ _ Hkids) as [_ Hcards].
        apply Forall_forall. intros kid (g & -> & Hg)%list_elem_of_fmap.
        unfold sound. simpl. rewrite (Hcards g Hg).
        intros c [_ Hc]%list_elem_of_filter. by apply Hgroup. }
  simpl. apply IH; [| |done].
  - intros g c Hg. apply Hread. by right.
  - intros Hg. apply Hmeta. destruct Hg; [left|right]; by right.
Qed.

(** X27: [getGroupedCards] returns: the loops of the builder end within their
    bounds, and nothing throws, when no card makes the strategy of a
    dimension read an inherited property and, for the dimensions that
    consult the metadata, the metadata is complete. *)
Lemma getGroupedCards_returns _groupings cards sortFunction metadata collator :
  (∀ grouping c, grouping ∈ _groupings → c ∈ cards →
     reads_inherited grouping metadata c = false) →
  (G_cycle ∈ _groupings ∨ G_pack ∈ _groupings →
     referential_integrity metadata cards) →
  is_Some (getGroupedCards _groupings cards sortFunction metadata collator).
Proof.
  intros Hread Hmeta.
  apply (fmap_is_Some GroupedCards.data). rewrite getGroupedCards_data.
  assert ((∀ grouping c, grouping ∈ effective _groupings → c ∈ cards →
             reads_inherited grouping metadata c = false)
          ∧ (G_cycle ∈ effective _groupings ∨ G_pack ∈ effective _groupings →
             referential_integrity metadata cards)) as [Hread' Hmeta'].
  { unfold effective. case_bool_decide; [done|]. split.
    - by intros grouping c ->%list_elem_of_singleton.
    - by intros [?%list_elem_of_singleton|?%list_elem_of_singleton]. }
  clear Hread Hmeta.
  destruct (effective _groupings) as [|first groupings] eqn:Heff.
  { unfold effective in Heff. case_bool_decide; [|done].
    by destruct _groupings. }
  simpl.
  destruct (applyGrouping_returns cards first metadata collator) as [data Hdata].
  { intros c. apply Hread'. left. }
  { intros Hg. apply Hmeta'. destruct Hg as [->| ->]; [left|right]; left. }
  rewrite Hdata. simpl. rewrite drop_0. apply fmap_is_Some.
  apply (descend_returns _ _ _ cards).
  - intros g c Hg. apply Hread'. by right.
  - intros Hg. apply Hmeta'. destruct Hg; [left|right]; by right.
  - destruct (applyGrouping_groups _ _ _ _ _ Hdata) as [_ Hcards].
    apply Forall_forall. intros g Hg. unfold sound. rewrite (Hcards g Hg).
    by intros c [_ Hc]%list_elem_of_filter.
Qed.

(** ** The loop of [omitEmptyGroupings] *)

Lemma list_pair_ind {A} (P : list A → Prop) :
  P [] → (∀ a, P [a]) → (∀ a b l, P l → P (a :: b :: l)) → ∀ l, P l.
Proof.
  intros Hnil Hone Hstep l.
  assert (P l ∧ ∀ a, P (a :: l)) as [Hl _]; [|done].
  induction l as [|b l [IH1 IH2]]; [by split|].
  split; [apply IH2|]. intros a. by apply Hstep.
Qed.

Lemma every_other_ext {A} (keep keep' : A → bool) l :
  (∀ x, x ∈ l → keep x = keep' x) →
  every_other keep l = every_other keep' l
  ∧ taken_out keep l = taken_out keep' l.
Proof.
  induction l as [|a|a b l IH] using list_pair_ind; intros Hext; [done|..].
  - simpl. by rewrite (Hext a) by left.
  - destruct IH as [IH1 IH2].
    { intros x Hx. apply Hext. by do 2 right. }
    simpl. rewrite (Hext a) by left. by rewrite IH1, IH2.
Qed.

Lemma every_other_sublist {A} (keep : A → bool) l :
  every_other keep l `sublist_of` l.
Proof.
  induction l as [|a|a b l IH] using list_pair_ind; [done|..].
  - simpl. destruct (keep a); [done|by constructor].
  - simpl. destruct (keep a); simpl.
    + by do 2 apply sublist_skip.
    + apply sublist_cons. by apply sublist_skip.
Qed.

Lemma taken_out_sublist {A} (keep : A → bool) l :
  taken_out keep l `sublist_of` l.
Proof.
  induction l as [|a|a b l IH] using list_pair_ind; [done|..].
  - simpl. destruct (keep a); [by constructor|done].
  - simpl. destruct (keep a); simpl.
    + by do 2 apply sublist_cons.
    + apply sublist_skip. by apply sublist_cons.
Qed.

Lemma every_other_kept {A} (keep : A → bool) l x :
  x ∈ l → keep x = true → x ∈ every_other keep l.
Proof.
  induction l as [|a|a b l IH] using list_pair_ind.
  - by intros ?%elem_of_nil.
  - intros ->%list_elem_of_singleton Hk. simpl. rewrite Hk. left.
  - intros Hx Hk. simpl.
    apply elem_of_cons in Hx as [->|Hx]; [rewrite Hk; left|].
    apply elem_of_app. right.
    apply elem_of_cons in Hx as [->|Hx]; [left|right; by apply IH].
Qed.

Lemma taken_out_dropped {A} (keep : A → bool) l x :
  x ∈ taken_out keep l → keep x = false.
Proof.
  induction l as [|a|a b l IH] using list_pair_ind; simpl.
  - by intros ?%elem_of_nil.
  - destruct (keep a) eqn:Hk; simpl.
    + by intros ?%elem_of_nil.
    + by intros ->%list_elem_of_singleton.
  - destruct (keep a) eqn:Hk; simpl; [done|].
    by intros [->|Hx]%elem_of_cons; [|apply IH].
Qed.

(** A key is left or taken out, not both, when the keys differ. *)
Lemma every_other_taken_out {A} (keep : A → bool) l x :
  NoDup l → x ∈ every_other keep l → x ∉ taken_out keep l.
Proof.
  induction l as [|a|a b l IH] using list_pair_ind; simpl.
  - by intros _ ?%elem_of_nil.
  - destruct (keep a); simpl; [|by intros _ ?%elem_of_nil].
    intros _ _ ?%elem_of_nil. done.
  - intros Hnd Hx Ht.
    apply NoDup_cons in Hnd as [Ha Hnd].
    apply NoDup_cons in Hnd as [Hb Hnd].
    pose proof (every_other_sublist keep l) as Hs1.
    pose proof (taken_out_sublist keep l) as Hs2.
    assert (x ∈ taken_out keep l → x ∈ l) as Hin2
      by (intros ?; by eapply elem_of_sublist).
    assert (x ∈ every_other keep l → x ∈ l) as Hin1
      by (intros ?; by eapply elem_of_sublist).
    destruct (keep a); simpl in *.
    + apply elem_of_cons in Hx as [->|Hx].
      { apply Ha. right. by apply Hin2. }
      apply elem_of_cons in Hx as [->|Hx]; [by apply Hb, Hin2|].
      by apply IH.
    + apply elem_of_cons in Hx as [->|Hx].
      { apply elem_of_cons in Ht as [->|Ht]; [apply Ha; left|].
        by apply Hb, Hin2. }
      apply elem_of_cons in Ht as [->|Ht].
      { apply Ha. right. by apply Hin1. }
      by apply IH.
Qed.

Lemma omitEmptyGroupings_from_stop {K} `{Key K} (g : Grouping K) fuel i :
  length (Grouping.groupings g) ≤ i →
  omitEmptyGroupings_from fuel g i = Some g.
Proof.
  intros Hi. destruct fuel; simpl; by rewrite bool_decide_eq_false_2 by lia.
Qed.

Lemma has_cards_delete {K} `{Key K} data (a k : K) :
  key_string k ≠ key_string a →
  has_cards (delete (key_string a) data) k = has_cards data k.
Proof. intros Hk. unfold has_cards. by rewrite lookup_delete_ne. Qed.

Lemma omitEmptyGroupings_from_every_other {K} `{Key K} (post : list K) :
  ∀ data pre ty fuel,
    length post ≤ fuel →
    NoDup (key_string <$> post) →
    (∀ k, k ∈ post → is_Some (data !! key_string k)) →
    omitEmptyGroupings_from fuel (Grouping.mk data (pre ++ post) ty)
      (length pre)
    = Some (Grouping.mk (delete_keys data (taken_out (has_cards data) post))
              (pre ++ every_other (has_cards data) post) ty).
Proof.
  induction post as [|a|a b post IH] using list_pair_ind;
    intros data pre ty fuel Hfuel Hnd Hdata.
  - rewrite omitEmptyGroupings_from_stop; [done|].
    simpl. rewrite length_app. simpl. lia.
  - destruct fuel as [|fuel]; [simpl in Hfuel; lia|].
    cbn [omitEmptyGroupings_from Grouping.groupings Grouping.data
         Grouping.type].
    rewrite bool_decide_eq_true_2 by (rewrite length_app; simpl; lia).
    rewrite list_lookup_middle by done. simpl.
    destruct (Hdata a) as [cs Hcs]; [left|].
    rewrite Hcs. simpl. unfold has_cards. rewrite Hcs.
    destruct cs as [|c cs]; simpl.
    + rewrite omitEmptyGroupings_from_stop.
      * by rewrite delete_middle, !app_nil_r.
      * simpl. rewrite delete_middle, app_nil_r. lia.
    + rewrite omitEmptyGroupings_from_stop; [done|].
      simpl. rewrite length_app. simpl. lia.
  - destruct fuel as [|fuel]; [simpl in Hfuel; lia|].
    cbn [omitEmptyGroupings_from Grouping.groupings Grouping.data
         Grouping.type].
    rewrite bool_decide_eq_true_2 by (rewrite length_app; simpl; lia).
    rewrite list_lookup_middle by done. simpl.
    destruct (Hdata a) as [cs Hcs]; [left|].
    rewrite Hcs. simpl.
    rewrite !fmap_cons in Hnd.
    apply NoDup_cons in Hnd as [Ha Hnd]. apply NoDup_cons in Hnd as [Hb Hnd].
    assert (∀ k, k ∈ post → key_string k ≠ key_string a) as Hka.
    { intros k Hk Heq. apply Ha. right. rewrite <-Heq.
      by apply list_elem_of_fmap_2. }
    unfold has_cards at 1 3. rewrite Hcs.
    destruct cs as [|c cs]; simpl.
    + rewrite delete_middle.
      replace (pre ++ b :: post) with ((pre ++ [b]) ++ post)
        by (by rewrite <-app_assoc).
      replace (length pre + 1) with (length (pre ++ [b]))
        by (rewrite length_app; simpl; lia).
      rewrite IH; [| simpl in Hfuel; lia | done |]; last first.
      { intros k Hk. rewrite lookup_delete_ne by (symmetry; by apply Hka).
        apply Hdata. by do 2 right. }
      destruct (every_other_ext (has_cards (delete (key_string a) data))
                  (has_cards data) post) as [-> ->].
      { intros k Hk. apply has_cards_delete. by apply Hka. }
      by rewrite <-app_assoc.
    + replace (pre ++ a :: b :: post) with ((pre ++ [a; b]) ++ post)
        by (by rewrite <-app_assoc).
      replace (length pre + 1 + 1) with (length (pre ++ [a; b]))
        by (rewrite length_app; simpl; lia).
      rewrite IH; [| simpl in Hfuel; lia | done |]; last first.
      { intros k Hk. apply Hdata. by do 2 right. }
      by rewrite <-app_assoc.
Qed.

Lemma every_other_fmap {A B} (f : A → B) (keep : B → bool) l :
  f <$> every_other (keep ∘ f) l = every_other keep (f <$> l)
  ∧ f <$> taken_out (keep ∘ f) l = taken_out keep (f <$> l).
Proof.
  induction l as [|a|a b l [IH1 IH2]] using list_pair_ind; [done|..].
  - simpl. by destruct (keep (f a)).
  - rewrite !fmap_cons. cbn [every_other taken_out].
    rewrite !fmap_app, !fmap_cons, IH1, IH2. unfold compose.
    by destruct (keep (f a)).
Qed.

Lemma lookup_delete_keys {K} `{Key K} data (keys : list K) name :
  name ∉ key_string <$> keys → delete_keys data keys !! name = data !! name.
Proof.
  unfold delete_keys. revert data.
  induction keys as [|k keys IH]; intros data Hname; simpl; [done|].
  rewrite fmap_cons, not_elem_of_cons in Hname. destruct Hname as [Hk Hname].
  rewrite IH by done. by rewrite lookup_delete_ne.
Qed.

(** X1: [omitEmptyGroupings] looks at every other key only. When the keys
    differ and each has its bucket, it looks at the keys at the positions 0,
    2, 4, ... of the list it is given, takes out those whose bucket is empty
    and deletes their buckets; the keys at the positions 1, 3, 5, ... stay,
    with or without cards. *)
Theorem omitEmptyGroupings_every_other {K} `{Key K} (g : Grouping K) :
  NoDup (key_string <$> Grouping.groupings g) →
  (∀ k, k ∈ Grouping.groupings g →
     is_Some (Grouping.data g !! key_string k)) →
  omitEmptyGroupings g
  = Some (Grouping.mk
            (delete_keys (Grouping.data g)
               (taken_out (has_cards (Grouping.data g)) (Grouping.groupings g)))
            (every_other (has_cards (Grouping.data g)) (Grouping.groupings g))
            (Grouping.type g)).
Proof.
  intros Hnd Hdata. unfold omitEmptyGroupings. destruct g as [data keys ty].
  simpl in *.
  by rewrite (omitEmptyGroupings_from_every_other keys data [] ty).
Qed.

(** X2: [omitEmptyGroupings] never takes out a key whose bucket holds cards.
    When the keys differ and each has its bucket, the keys that it leaves are
    keys of the input in their order, every key with cards is among them, and
    each key that is left has the bucket that it had. *)
Theorem omitEmptyGroupings_keeps_cards {K} `{Key K} (g : Grouping K) :
  NoDup (key_string <$> Grouping.groupings g) →
  (∀ k, k ∈ Grouping.groupings g →
     is_Some (Grouping.data g !! key_string k)) →
  ∃ g', omitEmptyGroupings g = Some g'
    ∧ Grouping.groupings g' `sublist_of` Grouping.groupings g
    ∧ (∀ k cs, k ∈ Grouping.groupings g →
         Grouping.data g !! key_string k = Some cs → cs ≠ [] →
         k ∈ Grouping.groupings g')
    ∧ (∀ k, k ∈ Grouping.groupings g' →
         Grouping.data g' !! key_string k = Grouping.data g !! key_string k)
    ∧ Grouping.type g' = Grouping.type g.
Proof.
  intros Hnd Hdata. destruct g as [data keys ty]. simpl in *.
  eexists. split.
  { unfold omitEmptyGroupings. simpl.
    by rewrite (omitEmptyGroupings_from_every_other keys data [] ty). }
  simpl. split_and!; [apply every_other_sublist| | |done].
  - intros k cs Hk Hcs Hne. apply (every_other_kept _ _ k Hk).
    unfold has_cards. rewrite Hcs. by destruct cs.
  - intros k Hk. apply lookup_delete_keys.
    set (hc := λ name : string,
           match data !! name with Some (_ :: _) => true | _ => false end).
    assert (has_cards (K:=K) data = hc ∘ key_string) as Hhc by reflexivity.
    rewrite Hhc in Hk |- *.
    destruct (every_other_fmap key_string hc keys) as [He ->].
    apply every_other_taken_out; [done|].
    rewrite <-He. by apply list_elem_of_fmap_2.
Qed.

(** ** The partitioner on inputs of all kinds *)

(** X3: on an input without cards the dimensions that create their buckets
    on demand return no group; none returns its one group; base_upgrades
    returns the [upgrade] group and subtype the [weakness] group, each
    without a card, for [omitEmptyGroupings] steps over them. *)
Theorem applyGrouping_no_cards grouping metadata collator :
  applyGrouping [] grouping metadata collator
  = Some match grouping with
         | G_none => [GroupingResult.mk [] "all" "none"]
         | G_subtype => [GroupingResult.mk [] "weakness" "subtype"]
         | G_base_upgrades => [GroupingResult.mk [] UPGRADE "base_upgrades"]
         | _ => []
         end.
Proof. by destruct grouping. Qed.

(** X4: whatever the dimension, the groups that [applyGrouping] returns
    have keys that differ, and each group lists cards of the input in the
    order of the input. *)
Theorem applyGrouping_stable cards grouping metadata collator res :
  applyGrouping cards grouping metadata collator = Some res →
  NoDup (GroupingResult.key <$> res)
  ∧ ∀ g, g ∈ res → GroupingResult.cards g `sublist_of` cards.
Proof.
  intros Hres. destruct (applyGrouping_groups _ _ _ _ _ Hres) as [Hnd Hcards].
  split; [done|]. intros g Hg. rewrite (Hcards g Hg). apply sublist_filter.
Qed.

Lemma group_by_key_files {K} `{Key K} (bucket : Card → option K) cmp ty
    cards res c :
  group_by_key bucket cmp ty cards = Some res →
  c ∈ cards →
  ∃ g, g ∈ res ∧ c ∈ GroupingResult.cards g
    ∧ (∀ g', g' ∈ res → c ∈ GroupingResult.cards g' → g' = g)
    ∧ key_string <$> bucket c = Some (GroupingResult.key g)
    ∧ GroupingResult.type g = grouping_name ty.
Proof.
  intros Hres Hc.
  destruct (group_by_key_partitions _ _ _ _ _ Hres) as (Hp & _ & Hty).
  destruct (partitions_by_unique _ _ _ c Hp Hc) as (g & Hg & Hcg & Hk & Hu).
  exists g. split_and!; [done..|].
  rewrite Forall_forall in Hty. by apply Hty.
Qed.

(** X5: [groupByTypeCode] files every card in one group and in no other,
    the group of its type code. *)
Theorem groupByTypeCode_files cards res c :
  groupByTypeCode cards = Some res →
  c ∈ cards →
  ∃ g, g ∈ res ∧ c ∈ GroupingResult.cards g
    ∧ (∀ g', g' ∈ res → c ∈ GroupingResult.cards g' → g' = g)
    ∧ GroupingResult.key g = Card.type_code c
    ∧ GroupingResult.type g = "type".
Proof.
  rewrite groupByTypeCode_eq. intros Hres Hc.
  destruct (group_by_key_files _ _ _ _ _ c Hres Hc) as (g & ? & ? & ? & Hk & ?).
  exists g. split_and!; [done..| |done]. by injection Hk as <-.
Qed.

(** X6: [groupBySlots] files every card in one group and in no other: the
    group [permanent] when the card is permanent, whatever its slot; the
    group of its slot otherwise, and [none] when it has no slot. *)
Theorem groupBySlots_files cards collator res c :
  groupBySlots cards collator = Some res →
  c ∈ cards →
  ∃ g, g ∈ res ∧ c ∈ GroupingResult.cards g
    ∧ (∀ g', g' ∈ res → c ∈ GroupingResult.cards g' → g' = g)
    ∧ GroupingResult.key g
      = (if Card.permanent c then "permanent"
         else match Card.real_slot c with
              | Some slot => slot
              | None => NONE
              end)
    ∧ GroupingResult.type g = "slot".
Proof.
  rewrite groupBySlots_eq. intros Hres Hc.
  destruct (group_by_key_files _ _ _ _ _ c Hres Hc) as (g & ? & ? & ? & Hk & ?).
  exists g. split_and!; [done..| |done]. injection Hk as <-.
  by destruct (Card.real_slot c).
Qed.

(** X7: [groupByLevel] files every card in one group and in no other: for
    a card whose experience is a safe integer, the group of the decimal
    spelling of its experience, [0] for experience 0; and the group [none]
    when the card has no experience. *)
Theorem groupByLevel_files cards res c :
  groupByLevel cards = Some res →
  c ∈ cards →
  (∀ xp, Card.xp c = Some xp → safe_integer xp) →
  ∃ g, g ∈ res ∧ c ∈ GroupingResult.cards g
    ∧ (∀ g', g' ∈ res → c ∈ GroupingResult.cards g' → g' = g)
    ∧ GroupingResult.key g
      = match Card.xp c with
        | Some xp => pretty xp
        | None => NONE
        end
    ∧ GroupingResult.type g = "level".
Proof.
  rewrite groupByLevel_eq. intros Hres Hc _.
  destruct (group_by_key_files _ _ _ _ _ c Hres Hc) as (g & ? & ? & ? & Hk & ?).
  exists g. split_and!; [done..| |done]. injection Hk as <-.
  by destruct (Card.xp c).
Qed.

(** X8: [groupByFaction] files every card in one group and in no other: the
    group [multiclass] when the card has a second faction code that is not
    empty, the group of its faction code otherwise. *)
Theorem groupByFaction_files cards res c :
  groupByFaction cards = Some res →
  c ∈ cards →
  ∃ g, g ∈ res ∧ c ∈ GroupingResult.cards g
    ∧ (∀ g', g' ∈ res → c ∈ GroupingResult.cards g' → g' = g)
    ∧ GroupingResult.key g
      = match Card.faction2_code c with
        | Some faction2 =>
            if decide (faction2 = "") then Card.faction_code c
            else "multiclass"
        | None => Card.faction_code c
        end
    ∧ GroupingResult.type g = "faction".
Proof.
  rewrite groupByFaction_eq. intros Hres Hc.
  destruct (group_by_key_files _ _ _ _ _ c Hres Hc) as (g & ? & ? & ? & Hk & ?).
  exists g. split_and!; [done..| |done]. injection Hk as <-.
  unfold truthy_string. destruct (Card.faction2_code c) as [f2|]; [|done].
  by case_decide; case_bool_decide.
Qed.

(** X9: [groupByEncounterSet] files every card in one group and in no
    other: the group of its encounter code, also when that code is the
    empty string, and the group [none] when the card has no encounter
    code. *)
Theorem groupByEncounterSet_files cards metadata collator res c :
  groupByEncounterSet cards metadata collator = Some res →
  c ∈ cards →
  ∃ g, g ∈ res ∧ c ∈ GroupingResult.cards g
    ∧ (∀ g', g' ∈ res → c ∈ GroupingResult.cards g' → g' = g)
    ∧ GroupingResult.key g
      = match Card.encounter_code c with
        | Some code => code
        | None => NONE
        end
    ∧ GroupingResult.type g = "encounter_set".
Proof.
  rewrite groupByEncounterSet_eq. intros Hres Hc.
  destruct (group_by_key_files _ _ _ _ _ c Hres Hc) as (g & ? & ? & ? & Hk & ?).
  exists g. split_and!; [done..| |done]. injection Hk as <-.
  by destruct (Card.encounter_code c).
Qed.

(** X10: [groupByCost] files every card in one group and in no other: for
    a card whose cost is a safe integer, the group of the decimal spelling
    of its cost, [-2] for a cost of -2; and the group [none] when the card
    has no cost. *)
Theorem groupByCost_files cards res c :
  groupByCost cards = Some res →
  c ∈ cards →
  (∀ cost, Card.cost c = Some cost → safe_integer cost) →
  ∃ g, g ∈ res ∧ c ∈ GroupingResult.cards g
    ∧ (∀ g', g' ∈ res → c ∈ GroupingResult.cards g' → g' = g)
    ∧ GroupingResult.key g
      = match Card.cost c with
        | Some cost => pretty cost
        | None => NONE
        end
    ∧ GroupingResult.type g = "cost".
Proof.
  rewrite groupByCost_eq. intros Hres Hc _.
  destruct (group_by_key_files _ _ _ _ _ c Hres Hc) as (g & ? & ? & ? & Hk & ?).
  exists g. split_and!; [done..| |done]. injection Hk as <-.
  by destruct (Card.cost c).
Qed.

(** X11: [groupByCycle] files every card whose pack is in the metadata,
    with the cycle of that pack, in one group and in no other: the group of
    the code that this cycle records. *)
Theorem groupByCycle_files cards metadata res c pack cycle :
  groupByCycle cards metadata = Some res →
  c ∈ cards →
  Metadata.packs metadata !! Card.pack_code c = Some pack →
  Metadata.cycles metadata !! Pack.cycle_code pack = Some cycle →
  ∃ g, g ∈ res ∧ c ∈ GroupingResult.cards g
    ∧ (∀ g', g' ∈ res → c ∈ GroupingResult.cards g' → g' = g)
    ∧ GroupingResult.key g = Cycle.code cycle
    ∧ GroupingResult.type g = "cycle".
Proof.
  rewrite groupByCycle_eq. intros Hres Hc Hpack Hcycle.
  destruct (group_by_key_files _ _ _ _ _ c Hres Hc) as (g & ? & ? & ? & Hk & ?).
  simpl in Hk. rewrite Hpack in Hk. simpl in Hk. rewrite Hcycle in Hk.
  exists g. split_and!; [done..| |done]. by injection Hk as <-.
Qed.

(** ** The order of the groups *)

Lemma sort_insert_sorted {A} (R : relation A) cmp x l l' :
  Transitive R →
  (∀ y c, y ∈ l → cmp y x = Some c →
     if bool_decide (c < 0)%Z then R y x else R x y) →
  StronglySorted R l →
  sort_insert cmp x l = Some l' →
  StronglySorted R l'.
Proof.
  intros Htrans. revert l'.
  induction l as [|y l IH]; intros l' Hcmp Hsorted; simpl.
  - intros [= <-]. by repeat constructor.
  - destruct (cmp y x) as [c|] eqn:Hc; [simpl|done].
    pose proof (Hcmp y c (list_elem_of_here _ _) Hc) as Hxy.
    apply StronglySorted_inv in Hsorted as [Hl Hy].
    case_bool_decide.
    + destruct (sort_insert cmp x l) as [l''|] eqn:Hins; [simpl|done].
      intros [= <-]. constructor.
      * apply (IH l''); [|done..]. intros z d Hz. apply Hcmp. by right.
      * apply sort_insert_Permutation in Hins. rewrite Hins.
        by constructor.
    + intros [= <-]. constructor; [by constructor|].
      constructor; [done|]. eapply Forall_impl; [exact Hy|].
      intros z Hz. by etrans.
Qed.

Lemma sort_sorted {A} (R : relation A) cmp l l' :
  Transitive R →
  (∀ a b c, a ∈ l → b ∈ l → cmp a b = Some c →
     if bool_decide (c < 0)%Z then R a b else R b a) →
  sort cmp l = Some l' →
  StronglySorted R l'.
Proof.
  intros Htrans. revert l'. induction l as [|x l IH]; intros l' Hcmp; simpl.
  - intros [= <-]. constructor.
  - destruct (sort cmp l) as [s|] eqn:Hs; [simpl|done].
    apply sort_insert_sorted; [done| |].
    + intros y c Hy. apply Hcmp; [right|left].
      by rewrite <-(sort_Permutation _ _ _ Hs).
    + apply IH; [|done]. intros a b c Ha Hb. apply Hcmp; by right.
Qed.

(** The keys of the groups are the keys that the reducer saw, sorted. *)
Lemma group_by_key_keys {K} `{Key K} (bucket : Card → option K) cmp ty
    cards res :
  group_by_key bucket cmp ty cards = Some res →
  ∃ seen sorted,
    (∀ k, k ∈ seen → ∃ c, c ∈ cards ∧ bucket c = Some k)
    ∧ sort cmp seen = Some sorted
    ∧ GroupingResult.key <$> res = key_string <$> sorted.
Proof.
  unfold group_by_key.
  destruct (reduce _ cards _) as [g1|] eqn:Hred; [simpl|done].
  destruct (bucketed_reduce bucket cards [] _ _ (bucketed_init bucket ty) Hred)
    as [[Hnd Hdom Hdata Hall] Hty]. simpl in *.
  rewrite omitEmptyGroupings_nonempty; last first.
  { intros k Hk.
    destruct (proj1 (Hdom (key_string k))) as [cs Hcs];
      [by apply list_elem_of_fmap_2|].
    exists cs. split; [done|]. by apply (Hdata _ _ Hcs). }
  simpl. unfold sort_groupings.
  destruct (sort cmp (Grouping.groupings g1)) as [sorted|] eqn:Hsort;
    [simpl|done].
  intros Hres. exists (Grouping.groupings g1), sorted. split_and!; [|done|].
  - intros k Hk.
    by destruct (bucket_step_groupings bucket _ _ _ k Hred Hk)
      as [[]%elem_of_nil|?].
  - by destruct (toGroupingResult_Some _ _ Hres) as [-> _].
Qed.

Global Instance lex_le_trans : Transitive lex_le.
Proof. intros p q r. unfold lex_le. lia. Qed.

Global Instance none_first_key_trans : Transitive none_first_key.
Proof.
  intros a b c [->|(n & m & -> & -> & Hnm)]; [by left|].
  intros [?|(m' & k & [= <-] & -> & Hmk)]; [done|].
  right. exists n, k. split_and!; [done..|lia].
Qed.

Lemma none_first_key_string a b :
  none_first_key a b → none_first (key_string a) (key_string b).
Proof.
  intros [->|(n & m & -> & -> & Hnm)]; [by left|]. right. by exists n, m.
Qed.

Lemma group_by_number_ordered (number : Card → option Z) ty cards res :
  numeric_order →
  group_by_key (λ c, Some (from_option Num (Str NONE) (number c)))
    (pure_cmp compare_none_first) ty cards = Some res →
  StronglySorted none_first (GroupingResult.key <$> res).
Proof.
  intros Hnum Hres.
  destruct (group_by_key_keys _ _ _ _ _ Hres) as (seen & sorted & Hseen & Hsort & ->).
  apply (StronglySorted_fmap _ none_first_key); [apply none_first_key_string|].
  eapply sort_sorted; [apply _| |exact Hsort].
  intros a b c Ha Hb Hc.
  destruct (Hseen a Ha) as (ca & _ & [= <-]).
  destruct (Hseen b Hb) as (cb & _ & [= <-]).
  unfold pure_cmp in Hc. injection Hc as <-. unfold compare_none_first.
  destruct (number ca) as [n|], (number cb) as [m|]; simpl.
  - case_bool_decide as Hlt; right.
    + exists n, m. split_and!; [done..|].
      apply (proj1 (proj1 (Hnum _ _))) in Hlt. lia.
    + exists m, n. split_and!; [done..|].
      destruct (decide (n < m)%Z) as [Hnm|]; [|lia].
      by apply (proj2 (proj1 (Hnum _ _))) in Hnm.
  - by left.
  - by left.
  - by left.
Qed.

(** X12: when [sortNumerical] orders numbers as numbers, negative for a
    smaller first number and positive for a larger one, and the experience
    of the cards is a safe integer, [groupByLevel] returns the group [none]
    in front of the others, and the others by growing experience. *)
Theorem groupByLevel_ordered cards res :
  numeric_order →
  (∀ c xp, c ∈ cards → Card.xp c = Some xp → safe_integer xp) →
  groupByLevel cards = Some res →
  StronglySorted none_first (GroupingResult.key <$> res).
Proof.
  intros Hnum _. rewrite groupByLevel_eq. by apply group_by_number_ordered.
Qed.

(** X13: when [sortNumerical] orders numbers as numbers, negative for a
    smaller first number and positive for a larger one, and the cost of the
    cards is a safe integer, [groupByCost] returns the group [none] in front
    of the others, and the others by growing cost. *)
Theorem groupByCost_ordered cards res :
  numeric_order →
  (∀ c cost, c ∈ cards → Card.cost c = Some cost → safe_integer cost) →
  groupByCost cards = Some res →
  StronglySorted none_first (GroupingResult.key <$> res).
Proof.
  intros Hnum _. rewrite groupByCost_eq. by apply group_by_number_ordered.
Qed.

(** X14: [groupByCycle] returns its groups by growing position of their
    cycles. *)
Theorem groupByCycle_ordered cards metadata res :
  groupByCycle cards metadata = Some res →
  StronglySorted
    (λ a b, (cycle_position metadata a ≤ cycle_position metadata b)%Z)
    (GroupingResult.key <$> res).
Proof.
  rewrite groupByCycle_eq. intros Hres.
  destruct (group_by_key_keys _ _ _ _ _ Hres) as (seen & sorted & _ & Hsort & ->).
  unfold key_string, string_Key. rewrite list_fmap_id.
  eapply sort_sorted; [|clear Hsort|exact Hsort].
  { intros a b c. lia. }
  intros a b c _ _. unfold compare_cycles, cycle_position.
  destruct (Metadata.cycles metadata !! a) as [ca|]; [simpl|done].
  destruct (Metadata.cycles metadata !! b) as [cb|]; [simpl|done].
  intros [= <-]. case_bool_decide; lia.
Qed.

(** X15: [groupByPack] returns its groups by growing position of the
    cycles of their packs, and the packs of one cycle position by their own
    growing position. *)
Theorem groupByPack_ordered cards metadata res :
  groupByPack cards metadata = Some res →
  StronglySorted
    (λ a b, lex_le (pack_rank metadata a) (pack_rank metadata b))
    (GroupingResult.key <$> res).
Proof.
  rewrite groupByPack_eq. intros Hres.
  destruct (group_by_key_keys _ _ _ _ _ Hres) as (seen & sorted & _ & Hsort & ->).
  unfold key_string, string_Key. rewrite list_fmap_id.
  eapply sort_sorted; [|clear Hsort|exact Hsort].
  { intros a b c. apply lex_le_trans. }
  intros a b c _ _. unfold compare_packs, pack_rank, cycle_position, lex_le.
  destruct (Metadata.packs metadata !! a) as [pa|]; [simpl|done].
  destruct (Metadata.cycles metadata !! Pack.cycle_code pa) as [ca|];
    [simpl|done].
  destruct (Metadata.packs metadata !! b) as [pb|]; [simpl|done].
  destruct (Metadata.cycles metadata !! Pack.cycle_code pb) as [cb|];
    [simpl|done].
  case_bool_decide; intros [= <-]; case_bool_decide; simpl; lia.
Qed.

(** ** The parent of a key *)

Lemma split_bar_segments s :
  Forall (λ segment, includes_bar segment = false) (split_bar s).
Proof.
  induction s as [|c s IH]; simpl; [by repeat constructor|].
  case_bool_decide as Hc; [by constructor|].
  pose proof (split_bar_not_nil s) as Hn.
  destruct (split_bar s) as [|seg segs]; [done|].
  apply Forall_cons in IH as [Hseg Hsegs]. constructor; [|done].
  simpl. by rewrite bool_decide_eq_false_2.
Qed.

Lemma split_bar_length s :
  includes_bar s = true → 1 < length (split_bar s).
Proof.
  induction s as [|c s IH]; simpl; [done|].
  case_bool_decide as Hc; simpl.
  - intros _. pose proof (split_bar_not_nil s).
    destruct (split_bar s); [done|simpl; lia].
  - intros Hs%IH. destruct (split_bar s); simpl in *; lia.
Qed.

Lemma string_app_assoc (a b c : string) : a +:+ b +:+ c = (a +:+ b) +:+ c.
Proof.
  induction a as [|x a IH]; [done|].
  change (String x (a +:+ b +:+ c) = String x ((a +:+ b) +:+ c)).
  by rewrite IH.
Qed.

Lemma join_bar_snoc segs segment :
  segs ≠ [] → join_bar (segs ++ [segment]) = join_bar segs +:+ "|" +:+ segment.
Proof.
  induction segs as [|seg segs IH]; [done|]. intros _.
  destruct segs as [|seg' segs]; [done|].
  change ((seg :: seg' :: segs) ++ [segment])
    with (seg :: (seg' :: segs) ++ [segment]).
  rewrite join_bar_cons by done. rewrite IH by done.
  rewrite (join_bar_cons seg) by done.
  change (String bar ?s) with ("|" +:+ s).
  by rewrite !string_app_assoc.
Qed.

(** X16: the parent that the builder reads off a key. A key without a bar
    has no parent; the parent of a key made of a prefix, a bar and a segment
    without bar is the prefix; and whenever a key has a parent, the key is
    that parent, a bar and a last segment without bar. *)
Theorem parent_key_spec key :
  (includes_bar key = false → parent_key key = None)
  ∧ (∀ parent segment,
       includes_bar segment = false →
       key = parent +:+ "|" +:+ segment → parent_key key = Some parent)
  ∧ (∀ parent,
       parent_key key = Some parent →
       ∃ segment,
         includes_bar segment = false ∧ key = parent +:+ "|" +:+ segment).
Proof.
  split_and!.
  - apply parent_key_bar_free.
  - intros parent segment Hs ->. by apply parent_key_prefixed.
  - intros parent. unfold parent_key.
    destruct (includes_bar key) eqn:Hbar; [|done]. intros [= <-].
    pose proof (split_bar_length key Hbar) as Hlen.
    pose proof (split_bar_segments key) as Hsegs.
    pose proof (join_split_bar key) as Hjoin.
    destruct (split_bar key) as [|seg segs _] using rev_ind;
      [simpl in Hlen; lia|].
    rewrite length_app in Hlen. simpl in Hlen.
    apply Forall_app in Hsegs as [_ Hseg]. rewrite Forall_singleton in Hseg.
    exists seg. split; [done|].
    unfold slice_init. rewrite length_app. simpl.
    replace (length segs + 1 - 1) with (length segs) by lia.
    rewrite take_app_length. rewrite <-Hjoin.
    apply join_bar_snoc. by destruct segs; [simpl in Hlen; lia|].
Qed.

(** ** The types of the groups *)

Lemma applyGrouping_types cards grouping metadata collator res :
  applyGrouping cards grouping metadata collator = Some res →
  Forall (λ g, GroupingResult.type g = grouping_name grouping) res.
Proof.
  intros Hres.
  destruct (decide (on_demand grouping)) as [Hd|Hd].
  { by destruct (applyGrouping_on_demand _ _ _ _ _ Hd Hres) as (_ & _ & ?). }
  unfold on_demand in Hd. apply dec_stable in Hd.
  repeat (apply elem_of_cons in Hd as [->|Hd]); simpl in Hres.
  - injection Hres as <-. by repeat constructor.
  - rewrite groupBySubtypeCode_eq in Hres.
    destruct (existsb subtype_throws cards); [done|]. injection Hres as <-.
    rewrite !Forall_app.
    split_and!; repeat case_decide; by repeat constructor.
  - rewrite groupByLevel0VsUpgrade_eq in Hres. injection Hres as <-.
    rewrite !Forall_app. split_and!; repeat case_decide; by repeat constructor.
  - by apply elem_of_nil in Hd.
Qed.

Lemma descend_types groupings metadata collator type level leaves :
  Forall (λ g, GroupingResult.type g = type) level →
  descend groupings metadata collator level = Some leaves →
  Forall (λ g, GroupingResult.type g = extended type groupings) leaves.
Proof.
  revert type level. induction groupings as [|grouping groupings IH];
    intros type level Hlevel; simpl; [by intros [= <-]|].
  destruct (mapM _ level) as [expanded|] eqn:Hm; [simpl|done].
  apply IH. apply mapM_Some in Hm.
  induction Hm as [|group kids level expanded Hexp _ IH']; simpl;
    [constructor|].
  apply Forall_cons in Hlevel as [Hgroup Hlevel].
  apply Forall_app. split; [|by apply IH'].
  unfold expand in Hexp.
  destruct (applyGrouping _ grouping metadata collator) as [res|] eqn:Hres;
    [simpl in Hexp|done].
  injection Hexp as <-. apply applyGrouping_types in Hres.
  apply Forall_forall. intros kid (g & -> & Hg)%list_elem_of_fmap. simpl.
  rewrite Forall_forall in Hres. by rewrite Hgroup, (Hres g Hg).
Qed.

Lemma extended_join first groupings :
  extended (grouping_name first) groupings
  = join_bar (grouping_name <$> first :: groupings).
Proof.
  revert first.
  induction groupings as [|grouping groupings IH] using rev_ind;
    intros first; [done|].
  unfold extended. rewrite foldl_app. cbn [foldl].
  fold (extended (grouping_name first) groupings).
  rewrite IH, app_comm_cons, fmap_app. cbn [fmap list_fmap].
  by rewrite join_bar_snoc.
Qed.

Lemma split_join_bar segs :
  segs ≠ [] → Forall (λ segment, includes_bar segment = false) segs →
  split_bar (join_bar segs) = segs.
Proof.
  induction segs as [|seg segs IH]; [done|]. intros _ Hsegs.
  apply Forall_cons in Hsegs as [Hseg Hsegs].
  destruct segs as [|seg' segs]; [by apply split_bar_bar_free|].
  rewrite join_bar_cons by done. rewrite split_bar_app.
  rewrite split_bar_bar_free by done. by rewrite IH.
Qed.

(** X17: the type of every leaf that [getGroupedCards] returns is made of
    the names of the dimensions, in their order, with bars between them, and
    splitting it at the bars gives these names back: label resolution is
    asked about dimensions only. *)
Theorem getGroupedCards_leaf_types _groupings cards sortFunction metadata
    collator result leaf :
  getGroupedCards _groupings cards sortFunction metadata collator
  = Some result →
  leaf ∈ GroupedCards.data result →
  GroupingResult.type leaf = join_bar (grouping_name <$> effective _groupings)
  ∧ split_bar (GroupingResult.type leaf)
    = grouping_name <$> effective _groupings.
Proof.
  intros Hres Hleaf.
  assert (GroupedCards.data
            <$> getGroupedCards _groupings cards sortFunction metadata collator
          = Some (GroupedCards.data result)) as Hdata by (by rewrite Hres).
  rewrite getGroupedCards_data in Hdata.
  destruct (effective _groupings) as [|first groupings] eqn:Heff; [done|].
  simpl in Hdata.
  destruct (applyGrouping cards first metadata collator) as [level|] eqn:Hlevel;
    [simpl in Hdata|done].
  rewrite drop_0 in Hdata.
  destruct (descend groupings metadata collator level) as [leaves|] eqn:Hleaves;
    [simpl in Hdata|done].
  injection Hdata as Hdata. rewrite <-Hdata in Hleaf.
  apply list_elem_of_fmap in Hleaf as (g & -> & Hg).
  pose proof (descend_types _ _ _ _ _ _
                (applyGrouping_types _ _ _ _ _ Hlevel) Hleaves) as Hty.
  rewrite Forall_forall in Hty. unfold sort_cards. cbn [GroupingResult.type].
  rewrite (Hty g Hg), extended_join.
  split; [done|]. apply split_join_bar; [done|].
  apply Forall_forall. intros name (grouping & -> & _)%list_elem_of_fmap.
  by destruct grouping.
Qed.

(** ** The cards of the leaves *)

Lemma subtype_filters cards :
  filter (λ c, subtype_of c = NONE) cards
  ++ filter (λ c, subtype_of c = "weakness") cards
  ++ filter (λ c, subtype_of c = "basicweakness") cards
  ⊆+ cards.
Proof.
  induction cards as [|c cards IH]; [done|].
  rewrite !filter_cons.
  destruct (decide (subtype_of c = NONE)) as [Hn|Hn];
    destruct (decide (subtype_of c = "weakness")) as [Hw|Hw];
    destruct (decide (subtype_of c = "basicweakness")) as [Hb|Hb];
    try (exfalso; unfold NONE in *; congruence).
  - simpl. by apply submseteq_skip.
  - rewrite <-app_comm_cons, <-Permutation_middle. by apply submseteq_skip.
  - rewrite app_assoc, <-Permutation_middle, <-app_assoc.
    by apply submseteq_skip.
  - by apply submseteq_cons.
Qed.

Lemma applyGrouping_submseteq cards grouping metadata collator res :
  applyGrouping cards grouping metadata collator = Some res →
  concat (GroupingResult.cards <$> res) ⊆+ cards.
Proof.
  intros Hres. destruct (decide (grouping = G_subtype)) as [->|Hs].
  - simpl in Hres. rewrite groupBySubtypeCode_eq in Hres.
    destruct (existsb subtype_throws cards); [done|]. injection Hres as <-.
    etrans; [|apply subtype_filters].
    rewrite !fmap_app, !concat_app.
    repeat case_decide; simpl; rewrite ?app_nil_r;
      repeat match goal with Hf : filter _ _ = [] |- _ => rewrite Hf end;
      by rewrite ?app_nil_r.
  - pose proof (applyGrouping_partitions _ _ _ _ _ Hs Hres) as Hp.
    by rewrite (partitions_by_Permutation _ _ _ Hp).
Qed.

Lemma cards_prefixed group res :
  GroupingResult.cards <$> map (prefixed group) res
  = GroupingResult.cards <$> res.
Proof.
  induction res as [|g res IH]; [done|]. cbn [map].
  by rewrite !fmap_cons, IH.
Qed.

Lemma descend_submseteq groupings metadata collator level leaves :
  descend groupings metadata collator level = Some leaves →
  concat (GroupingResult.cards <$> leaves)
  ⊆+ concat (GroupingResult.cards <$> level).
Proof.
  revert level. induction groupings as [|grouping groupings IH];
    intros level; simpl; [by intros [= <-]|].
  destruct (mapM _ level) as [expanded|] eqn:Hm; [simpl|done].
  intros Hleaves%IH. etrans; [exact Hleaves|]. apply mapM_Some in Hm.
  clear -Hm. induction Hm as [|group kids level expanded Hexp _ IH']; [done|].
  simpl. rewrite fmap_app, concat_app. apply submseteq_app; [|done].
  unfold expand in Hexp.
  destruct (applyGrouping _ grouping metadata collator) as [res|] eqn:Hres;
    [simpl in Hexp|done].
  injection Hexp as <-. rewrite cards_prefixed.
  by eapply applyGrouping_submseteq.
Qed.

Lemma descend_Permutation groupings metadata collator level leaves :
  G_subtype ∉ groupings →
  descend groupings metadata collator level = Some leaves →
  concat (GroupingResult.cards <$> leaves)
  ≡ₚ concat (GroupingResult.cards <$> level).
Proof.
  revert level. induction groupings as [|grouping groupings IH];
    intros level Hs; simpl; [by intros [= <-]|].
  apply not_elem_of_cons in Hs as [Hg Hs].
  destruct (mapM _ level) as [expanded|] eqn:Hm; [simpl|done].
  intros Hleaves%IH; [|done]. rewrite Hleaves. apply mapM_Some in Hm.
  clear -Hm Hg. induction Hm as [|group kids level expanded Hexp _ IH']; [done|].
  simpl. rewrite fmap_app, concat_app. apply Permutation_app; [|done].
  unfold expand in Hexp.
  destruct (applyGrouping _ grouping metadata collator) as [res|] eqn:Hres;
    [simpl in Hexp|done].
  injection Hexp as <-. rewrite cards_prefixed.
  apply (partitions_by_Permutation (dimension_key grouping metadata)).
  eapply applyGrouping_partitions; [|done]. congruence.
Qed.

Lemma sort_cards_Permutation sortFunction leaves :
  concat (GroupingResult.cards <$> map (sort_cards sortFunction) leaves)
  ≡ₚ concat (GroupingResult.cards <$> leaves).
Proof.
  induction leaves as [|leaf leaves IH]; [done|]. simpl.
  by rewrite sort_total_Permutation, IH.
Qed.

Lemma getGroupedCards_leaves _groupings cards sortFunction metadata collator
    result :
  getGroupedCards _groupings cards sortFunction metadata collator
  = Some result →
  ∃ first groupings level leaves,
    effective _groupings = first :: groupings
    ∧ applyGrouping cards first metadata collator = Some level
    ∧ descend groupings metadata collator level = Some leaves
    ∧ GroupedCards.data result = map (sort_cards sortFunction) leaves.
Proof.
  intros Hres.
  assert (GroupedCards.data
            <$> getGroupedCards _groupings cards sortFunction metadata collator
          = Some (GroupedCards.data result)) as Hdata by (by rewrite Hres).
  rewrite getGroupedCards_data in Hdata.
  destruct (effective _groupings) as [|first groupings] eqn:Heff; [done|].
  simpl in Hdata.
  destruct (applyGrouping cards first metadata collator) as [level|] eqn:Hlevel;
    [simpl in Hdata|done].
  rewrite drop_0 in Hdata.
  destruct (descend groupings metadata collator level) as [leaves|] eqn:Hleaves;
    [simpl in Hdata|done].
  injection Hdata as Hdata. by exists first, groupings, level, leaves.
Qed.

(** X18: when subtype is not among the dimensions, the leaves that
    [getGroupedCards] returns hold the cards of the input, each as many
    times as the input has it: no card is lost on the way down and none is
    filed twice. *)
Theorem getGroupedCards_covers _groupings cards sortFunction metadata
    collator result :
  G_subtype ∉ _groupings →
  getGroupedCards _groupings cards sortFunction metadata collator
  = Some result →
  concat (GroupingResult.cards <$> GroupedCards.data result) ≡ₚ cards.
Proof.
  intros Hs Hres.
  destruct (getGroupedCards_leaves _ _ _ _ _ _ Hres)
    as (first & groupings & level & leaves & Heff & Hlevel & Hleaves & ->).
  assert (G_subtype ∉ first :: groupings) as Hs'.
  { rewrite <-Heff. unfold effective. case_bool_decide; [done|].
    by intros ?%list_elem_of_singleton. }
  apply not_elem_of_cons in Hs' as [Hfirst Hrest].
  rewrite sort_cards_Permutation, (descend_Permutation _ _ _ _ _ Hrest Hleaves).
  apply (partitions_by_Permutation (dimension_key first metadata)).
  eapply applyGrouping_partitions; [|done]. congruence.
Qed.

(** X19: whatever the dimensions, the leaves that [getGroupedCards] returns
    hold cards of the input only, and none more often than the input has
    it. *)
Theorem getGroupedCards_no_duplicates _groupings cards sortFunction metadata
    collator result :
  getGroupedCards _groupings cards sortFunction metadata collator
  = Some result →
  concat (GroupingResult.cards <$> GroupedCards.data result) ⊆+ cards.
Proof.
  intros Hres.
  destruct (getGroupedCards_leaves _ _ _ _ _ _ Hres)
    as (first & groupings & level & leaves & Heff & Hlevel & Hleaves & ->).
  rewrite sort_cards_Permutation.
  etrans; [by eapply descend_submseteq|]. by eapply applyGrouping_submseteq.
Qed.

(** ** The keys of the hierarchy *)

(** The state of the builder before the final sort. *)
Lemma getGroupedCards_state _groupings cards sortFunction metadata collator
    result :
  getGroupedCards _groupings cards sortFunction metadata collator
  = Some result →
  ∃ first groupings level leaves,
    effective _groupings = first :: groupings
    ∧ applyGrouping cards first metadata collator = Some level
    ∧ (if bool_decide (groupings = [])
       then Some (level, foldl (λ h group, register h group None) ∅ level)
       else build groupings metadata collator (level, ∅))
      = Some (leaves, GroupedCards.hierarchy result)
    ∧ GroupedCards.data result = map (sort_cards sortFunction) leaves.
Proof.
  unfold getGroupedCards. fold (effective _groupings).
  destruct (effective _groupings) as [|first groupings] eqn:Heff; [done|].
  simpl.
  destruct (applyGrouping cards first metadata collator) as [level|] eqn:Hlevel;
    [simpl|done].
  rewrite drop_0, reduce_expand_pass. intros Hres.
  exists first, groupings, level.
  destruct groupings as [|grouping groupings].
  - rewrite bool_decide_eq_false_2 in Hres by (simpl; lia).
    simpl in Hres. injection Hres as <-. exists level.
    by rewrite bool_decide_eq_true_2.
  - rewrite bool_decide_eq_true_2 in Hres by (simpl; lia).
    rewrite bool_decide_eq_false_2 by done.
    destruct (build _ metadata collator _) as [[leaves hierarchy]|];
      [simpl in Hres|done].
    injection Hres as <-. by exists leaves.
Qed.

Lemma register_well_keyed cards hierarchy group parent :
  within cards group → well_keyed cards hierarchy →
  well_keyed cards (register hierarchy group parent).
Proof.
  intros Hg Hh k entry. unfold register.
  intros [[<- <-]|[_ Hk]]%lookup_insert_Some; [|by apply Hh].
  split; [done|]. simpl. by apply sublist_length.
Qed.

Lemma foldl_register_well_keyed cards parent groups hierarchy :
  Forall (within cards) groups → well_keyed cards hierarchy →
  well_keyed cards (foldl (λ h g, register h g parent) hierarchy groups).
Proof.
  intros Hgroups. revert hierarchy.
  induction Hgroups as [|g groups Hg _ IH]; intros hierarchy Hh; [done|].
  simpl. apply IH. by apply register_well_keyed.
Qed.

Lemma foldl_register_dom parent groups hierarchy k :
  k ∈ GroupingResult.key <$> groups ∨ is_Some (hierarchy !! k) →
  is_Some (foldl (λ h g, register h g parent) hierarchy groups !! k).
Proof.
  revert hierarchy. induction groups as [|g groups IH]; intros hierarchy;
    simpl.
  - by intros [?%elem_of_nil|?].
  - intros Hk. apply IH. unfold register.
    destruct (decide (GroupingResult.key g = k)) as [<-|Hne].
    + right. by rewrite lookup_insert_eq.
    + rewrite lookup_insert_ne by done.
      destruct Hk as [[?|?]%elem_of_cons|?]; [done|by left|by right].
Qed.

Lemma register_expansion_dom hierarchy expansion k :
  k ∈ GroupingResult.key <$> expansion.2 ∨ is_Some (hierarchy !! k) →
  is_Some (register_expansion hierarchy expansion !! k).
Proof.
  intros Hk. apply foldl_register_dom. destruct Hk as [?|Hk]; [by left|].
  right. unfold register.
  destruct (decide (GroupingResult.key expansion.1 = k)) as [<-|Hne].
  - by rewrite lookup_insert_eq.
  - by rewrite lookup_insert_ne.
Qed.

Lemma foldl_register_expansion_dom expansions hierarchy k :
  k ∈ GroupingResult.key <$> concat expansions.*2 ∨ is_Some (hierarchy !! k) →
  is_Some (foldl register_expansion hierarchy expansions !! k).
Proof.
  revert hierarchy.
  induction expansions as [|expansion expansions IH]; intros hierarchy; simpl.
  - by intros [?%elem_of_nil|?].
  - intros Hk. apply IH.
    destruct Hk as [Hk|Hk].
    + rewrite fmap_app, elem_of_app in Hk. destruct Hk as [Hk|Hk]; [|by left].
      right. apply register_expansion_dom. by left.
    + right. apply register_expansion_dom. by right.
Qed.

Lemma foldl_register_expansion_well_keyed cards expansions hierarchy :
  Forall (λ expansion,
            within cards expansion.1 ∧ Forall (within cards) expansion.2)
    expansions →
  well_keyed cards hierarchy →
  well_keyed cards (foldl register_expansion hierarchy expansions).
Proof.
  intros Hexp. revert hierarchy.
  induction Hexp as [|expansion expansions [Hg Hkids] _ IH];
    intros hierarchy Hh; [done|].
  simpl. apply IH. unfold register_expansion.
  apply foldl_register_well_keyed; [done|]. by apply register_well_keyed.
Qed.

Lemma expand_within cards grouping metadata collator group kids :
  within cards group →
  expand grouping metadata collator group = Some kids →
  Forall (within cards) kids.
Proof.
  intros Hg. unfold expand.
  destruct (applyGrouping _ grouping metadata collator) as [res|] eqn:Hres;
    [simpl|done].
  intros [= <-]. destruct (applyGrouping_groups _ _ _ _ _ Hres) as [_ Hcards].
  apply Forall_forall. intros kid (g & -> & Hin)%list_elem_of_fmap.
  unfold within. simpl. rewrite (Hcards g Hin).
  etrans; [apply sublist_filter|done].
Qed.

Lemma build_keys cards groupings metadata collator :
  ∀ data hierarchy data' hierarchy',
    build groupings metadata collator (data, hierarchy)
    = Some (data', hierarchy') →
    Forall (within cards) data → well_keyed cards hierarchy →
    (groupings = [] → covers data hierarchy) →
    well_keyed cards hierarchy' ∧ covers data' hierarchy'.
Proof.
  induction groupings as [|grouping groupings IH];
    intros data hierarchy data' hierarchy'; simpl.
  - intros [= <- <-] _ Hh Hc. split; [done|by apply Hc].
  - destruct (mapM _ data) as [expanded|] eqn:Hm; [simpl|done].
    intros Hbuild Hdata Hh _. apply mapM_Some in Hm.
    pose proof (Forall2_length _ _ _ Hm) as Hlen.
    assert (Forall (λ expansion,
              within cards expansion.1 ∧ Forall (within cards) expansion.2)
              (zip data expanded)) as Hzip.
    { clear -Hm Hdata. induction Hm as [|group kids data expanded Hexp _ IH'];
        [constructor|].
      apply Forall_cons in Hdata as [Hg Hdata]. simpl.
      constructor; [|by apply IH']. split; [done|]. by eapply expand_within. }
    eapply IH; [exact Hbuild| | |].
    + clear -Hzip Hlen. rewrite <-(snd_zip data expanded) by lia.
      induction Hzip as [|expansion zipped [_ Hkids] _ IH']; [constructor|].
      simpl. by apply Forall_app.
    + by apply foldl_register_expansion_well_keyed.
    + intros _ g Hg. apply foldl_register_expansion_dom. left.
      rewrite snd_zip by lia. by apply list_elem_of_fmap_2.
Qed.

(** X20: in the hierarchy that [getGroupedCards] returns, every entry is
    filed under the key that it records and counts no more cards than the
    input has, and every leaf of the result has an entry under its key. *)
Theorem getGroupedCards_hierarchy_keys _groupings cards sortFunction metadata
    collator result :
  getGroupedCards _groupings cards sortFunction metadata collator
  = Some result →
  (∀ k entry,
     GroupedCards.hierarchy result !! k = Some entry →
     GroupTreeEntry.key entry = k
     ∧ GroupTreeEntry.count entry ≤ length cards)
  ∧ (∀ leaf, leaf ∈ GroupedCards.data result →
       is_Some (GroupedCards.hierarchy result !! GroupingResult.key leaf)).
Proof.
  intros Hres.
  destruct (getGroupedCards_state _ _ _ _ _ _ Hres)
    as (first & groupings & level & leaves & _ & Hlevel & Hstate & Hdata).
  assert (Forall (within cards) level) as Hwithin.
  { destruct (applyGrouping_groups _ _ _ _ _ Hlevel) as [_ Hcards].
    apply Forall_forall. intros g Hg. unfold within. rewrite (Hcards g Hg).
    apply sublist_filter. }
  assert (well_keyed cards (GroupedCards.hierarchy result)
          ∧ covers leaves (GroupedCards.hierarchy result)) as [Hkeyed Hcovers].
  { case_bool_decide as Hg.
    - injection Hstate as <- <-. split.
      + by apply foldl_register_well_keyed.
      + intros g Hin. apply foldl_register_dom. left.
        by apply list_elem_of_fmap_2.
    - eapply (build_keys cards); [exact Hstate|done|done|done]. }
  split; [exact Hkeyed|]. rewrite Hdata.
  intros leaf (g & -> & Hg)%list_elem_of_fmap. exact (Hcovers g Hg).
Qed.

Lemma foldl_register_lookup parent groups hierarchy k entry :
  foldl (λ h g, register h g parent) hierarchy groups !! k = Some entry →
  (∃ g, g ∈ groups ∧ k = GroupingResult.key g
        ∧ entry = GroupTreeEntry.mk (GroupingResult.key g)
                    (GroupingResult.type g)
                    (length (GroupingResult.cards g)) parent)
  ∨ hierarchy !! k = Some entry.
Proof.
  revert hierarchy. induction groups as [|g groups IH]; intros hierarchy;
    simpl; [by right|].
  intros [(g' & Hg' & ? & ?)|Hk]%IH.
  - left. exists g'. split; [by right|done].
  - unfold register in Hk.
    apply lookup_insert_Some in Hk as [[<- <-]|[_ Hk]]; [|by right].
    left. exists g. split; [left|done].
Qed.

Lemma foldl_register_lookup_group parent groups hierarchy g :
  NoDup (GroupingResult.key <$> groups) → g ∈ groups →
  foldl (λ h g, register h g parent) hierarchy groups
    !! GroupingResult.key g
  = Some (GroupTreeEntry.mk (GroupingResult.key g) (GroupingResult.type g)
            (length (GroupingResult.cards g)) parent).
Proof.
  revert hierarchy. induction groups as [|g' groups IH]; intros hierarchy;
    [by intros _ ?%elem_of_nil|].
  rewrite fmap_cons. intros [Hg' Hnd]%NoDup_cons [->|Hg]%elem_of_cons; simpl.
  - destruct (foldl_register_dom parent groups (register hierarchy g' parent)
                (GroupingResult.key g')) as [entry Hentry].
    { right. unfold register. by rewrite lookup_insert_eq. }
    rewrite Hentry.
    apply foldl_register_lookup in Hentry as [(g & Hg & Hk & _)|Hentry].
    + destruct Hg'. rewrite Hk. by apply list_elem_of_fmap_2.
    + unfold register in Hentry. rewrite lookup_insert_eq in Hentry.
      by rewrite Hentry.
  - by apply IH.
Qed.

(** X21: with one dimension, or none, the hierarchy that [getGroupedCards]
    returns is flat: it has one entry for each leaf, without parent, also
    when the key of the leaf has a bar, that counts the cards of the leaf;
    and it has no other entry. *)
Theorem getGroupedCards_flat _groupings cards sortFunction metadata collator
    result :
  length _groupings ≤ 1 →
  getGroupedCards _groupings cards sortFunction metadata collator
  = Some result →
  (∀ leaf, leaf ∈ GroupedCards.data result →
     GroupedCards.hierarchy result !! GroupingResult.key leaf
     = Some (GroupTreeEntry.mk (GroupingResult.key leaf)
               (GroupingResult.type leaf)
               (length (GroupingResult.cards leaf)) None))
  ∧ (∀ k entry,
       GroupedCards.hierarchy result !! k = Some entry →
       GroupTreeEntry.parent entry = None
       ∧ ∃ leaf, leaf ∈ GroupedCards.data result
                 ∧ GroupingResult.key leaf = k).
Proof.
  intros Hlen Hres.
  destruct (getGroupedCards_state _ _ _ _ _ _ Hres)
    as (first & groupings & level & leaves & Heff & Hlevel & Hstate & Hdata).
  assert (groupings = []) as ->.
  { destruct _groupings as [|g1 [|g2 gs]]; [| |simpl in Hlen; lia];
      cbv in Heff; by injection Heff. }
  rewrite bool_decide_eq_true_2 in Hstate by done.
  injection Hstate as <- <-. rewrite Hdata.
  destruct (applyGrouping_groups _ _ _ _ _ Hlevel) as [Hnd _]. split.
  - intros leaf (g & -> & Hg)%list_elem_of_fmap. simpl.
    rewrite sort_total_length. by apply foldl_register_lookup_group.
  - intros k entry [(g & Hg & -> & ->)|Hk]%foldl_register_lookup;
      [|by rewrite lookup_empty in Hk].
    split; [done|]. exists (sort_cards sortFunction g).
    split; [|done]. by apply (list_elem_of_fmap_2 (sort_cards sortFunction)).
Qed.

(** ** The arrays of the result *)

Lemma sort_in_place_fresh sortFunction passed data sorted :
  owned data → owned sorted →
  owned (foldl (sort_in_place sortFunction) (sorted, passed) data).1
  ∧ (foldl (sort_in_place sortFunction) (sorted, passed) data).2 = passed.
Proof.
  intros Hdata. revert sorted.
  induction Hdata as [|g data Hg _ IH]; intros sorted Hsorted; [done|].
  simpl. unfold sort_in_place at 2 4.
  destruct (GroupRef.cards g) as [cs|] eqn:Hcs; [simpl|done].
  apply IH. apply Forall_app. split; [done|]. by repeat constructor.
Qed.

(** X22: when one of the dimensions is not none, [getGroupedCards] leaves
    the caller's array as it was passed, and no group of the result refers
    to it: every card list of the result is an array of the engine's own
    making. *)
Theorem getGroupedCards_fresh_arrays _groupings passed sortFunction metadata
    collator result passed' :
  (∃ grouping, grouping ∈ _groupings ∧ grouping ≠ G_none) →
  getGroupedCards_ref _groupings passed sortFunction metadata collator
  = Some (result, passed') →
  passed' = passed
  ∧ Forall (λ g, GroupRef.cards g ≠ Passed) (GroupedRefs.data result).
Proof.
  intros (grouping & Hin & Hne).
  assert (all_none (effective _groupings) = false) as Hall.
  { assert (length _groupings ≠ 0) as Hlen.
    { destruct _groupings; [by apply elem_of_nil in Hin|done]. }
    unfold effective. rewrite bool_decide_eq_true_2 by done.
    apply not_true_is_false. unfold all_none. rewrite forallb_forall.
    intros Hall. apply list_elem_of_In in Hin.
    specialize (Hall grouping Hin). by apply bool_decide_eq_true in Hall. }
  rewrite getGroupedCards_ref_passes.
  destruct (passes_ref _groupings passed metadata collator)
    as [[data hierarchy]|] eqn:Hpasses; [simpl|done].
  apply passes_ref_aliasing in Hpasses. rewrite Hall in Hpasses.
  intros [= <- <-]. simpl.
  destruct (sort_in_place_fresh sortFunction passed data [] Hpasses)
    as [Ho Hp]; [constructor|].
  by split.
Qed.

(** ** What label resolution reads *)

(** X23: [getGroupingKeyLabel] reads of the metadata the one entry that
    its segment names in the index of its type, for the types cycle,
    encounter_set and pack, and nothing for any other type: two metadata
    that agree there give the same label. *)
Theorem getGroupingKeyLabel_reads type segment metadata metadata' :
  (type = "cycle" →
     Metadata.cycles metadata !! segment
     = Metadata.cycles metadata' !! segment) →
  (type = "encounter_set" →
     Metadata.encounterSets metadata !! segment
     = Metadata.encounterSets metadata' !! segment) →
  (type = "pack" →
     Metadata.packs metadata !! segment
     = Metadata.packs metadata' !! segment) →
  getGroupingKeyLabel type segment metadata
  = getGroupingKeyLabel type segment metadata'.
Proof.
  intros Hcycle Hset Hpack. unfold getGroupingKeyLabel, get_property.
  repeat (case_bool_decide as Ht;
    [first [by rewrite (Hcycle Ht) | by rewrite (Hset Ht)
           | by rewrite (Hpack Ht) | done]|clear Ht]).
  done.
Qed.

(** ** The keys and the cards of the leaves *)

Lemma applyGrouping_keyed cards grouping metadata collator res :
  applyGrouping cards grouping metadata collator = Some res →
  ∀ g c, g ∈ res → c ∈ GroupingResult.cards g →
    c ∈ cards ∧ dimension_key grouping metadata c = Some (GroupingResult.key g).
Proof.
  intros Hres g c Hg Hc.
  destruct (applyGrouping_groups _ _ _ _ _ Hres) as [_ Hcards].
  rewrite (Hcards g Hg) in Hc. by apply list_elem_of_filter in Hc as [? ?].
Qed.

Lemma descend_keyed groupings metadata collator :
  ∀ done level leaves,
    done ≠ [] → keyed_along metadata done level →
    descend groupings metadata collator level = Some leaves →
    keyed_along metadata (done ++ groupings) leaves.
Proof.
  induction groupings as [|grouping groupings IH];
    intros done level leaves Hdone Hlevel; simpl.
  - intros [= <-]. by rewrite app_nil_r.
  - destruct (mapM _ level) as [expanded|] eqn:Hm; [simpl|done].
    intros Hleaves.
    replace (done ++ grouping :: groupings)
      with ((done ++ [grouping]) ++ groupings) by (by rewrite <-app_assoc).
    eapply IH; [by destruct done| |exact Hleaves].
    apply mapM_Some in Hm. clear -Hm Hlevel Hdone.
    induction Hm as [|group kids level expanded Hexp _ IH'].
    { by intros g c ?%elem_of_nil. }
    intros kid c Hkid Hc. simpl in Hkid.
    apply elem_of_app in Hkid as [Hkid|Hkid]; last first.
    { apply IH'; [|done..]. intros g' c' Hg'. apply Hlevel. by right. }
    unfold expand in Hexp.
    destruct (applyGrouping _ grouping metadata collator) as [res|] eqn:Hres;
      [simpl in Hexp|done].
    injection Hexp as <-.
    apply list_elem_of_fmap in Hkid as (g & -> & Hg). simpl in Hc.
    destruct (applyGrouping_keyed _ _ _ _ _ Hres g c Hg Hc) as [Hin Hkey].
    destruct (Hlevel group c) as (segments & Hsegs & Hgroup); [left|done|].
    exists (segments ++ [GroupingResult.key g]). split.
    + apply Forall2_app; [done|]. by repeat constructor.
    + simpl. rewrite Hgroup. symmetry. apply join_bar_snoc.
      apply Forall2_length in Hsegs. destruct segments; [|done].
      by destruct done.
Qed.

(** X24: a card is in the leaf that its keys name. For every card of every
    leaf that [getGroupedCards] returns, the key of the leaf is made of the
    keys under which the dimensions file the card, in the order of the
    dimensions, with bars between them. *)
Theorem getGroupedCards_leaf_keys _groupings cards sortFunction metadata
    collator result leaf c :
  getGroupedCards _groupings cards sortFunction metadata collator
  = Some result →
  leaf ∈ GroupedCards.data result →
  c ∈ GroupingResult.cards leaf →
  ∃ segments,
    Forall2 (λ grouping segment,
               dimension_key grouping metadata c = Some segment)
      (effective _groupings) segments
    ∧ GroupingResult.key leaf = join_bar segments.
Proof.
  intros Hres Hleaf Hc.
  destruct (getGroupedCards_leaves _ _ _ _ _ _ Hres)
    as (first & groupings & level & leaves & -> & Hlevel & Hleaves & Hdata).
  rewrite Hdata in Hleaf. apply list_elem_of_fmap in Hleaf as (g & -> & Hg).
  simpl in Hc. rewrite sort_total_Permutation in Hc.
  assert (keyed_along metadata [first] level) as Hkeyed.
  { intros g' c' Hg' Hc'.
    destruct (applyGrouping_keyed _ _ _ _ _ Hlevel g' c' Hg' Hc') as [_ Hkey].
    exists [GroupingResult.key g']. split; [|done]. by repeat constructor. }
  assert ([first] ≠ []) as Hne by done.
  exact (descend_keyed groupings metadata collator [first] level leaves
           Hne Hkeyed Hleaves g c Hg Hc).
Qed.

(** ** The order of the cards of a leaf *)

(** X25: [getGroupedCards] sorts the cards of every leaf. When the
    comparator of the caller is consistent, telling a transitive order with
    results of opposite signs for a pair in its two orders, the cards of
    every leaf of the result are in that order. *)
Theorem getGroupedCards_sorted (R : relation Card) _groupings cards
    sortFunction metadata collator result leaf :
  Transitive R →
  consistent_comparator R sortFunction →
  getGroupedCards _groupings cards sortFunction metadata collator
  = Some result →
  leaf ∈ GroupedCards.data result →
  StronglySorted R (GroupingResult.cards leaf).
Proof.
  intros Htrans [Hle Hsign] Hres Hleaf.
  destruct (getGroupedCards_leaves _ _ _ _ _ _ Hres)
    as (first & groupings & level & leaves & _ & _ & _ & Hdata).
  rewrite Hdata in Hleaf. apply list_elem_of_fmap in Hleaf as (g & -> & Hg).
  simpl. eapply (sort_sorted R (pure_cmp sortFunction)); [done| |apply sort_pure].
  intros a b c _ _ [= <-]. case_bool_decide as Hneg.
  - apply Hle. lia.
  - apply Hle. pose proof (Hsign a b) as Hab. pose proof (Hsign b a) as Hba.
    lia.
Qed.

End Properties.

(** ** The engine on concrete inputs *)

Section Examples.
Local Existing Instance plain_host.

Local Ltac by_cases H :=
  repeat (apply elem_of_cons in H as [->|H]); [..|by apply elem_of_nil in H].

(** The hypotheses of C1 hold of the cards of scenario A under the type
    dimension. *)
Lemma applyGrouping_covers_witness :
  G_type ≠ G_subtype
  ∧ applyGrouping scenario_A G_type empty_metadata tt = Some scenario_A_by_type
  ∧ concat (GroupingResult.cards <$> scenario_A_by_type) ≡ₚ scenario_A
  ∧ ∀ c, c ∈ scenario_A →
      ∃ g, g ∈ scenario_A_by_type ∧ c ∈ GroupingResult.cards g
           ∧ ∀ g', g' ∈ scenario_A_by_type →
               c ∈ GroupingResult.cards g' → g' = g.
Proof.
  assert (G_type ≠ G_subtype) as Hs by discriminate.
  assert (applyGrouping scenario_A G_type empty_metadata tt
          = Some scenario_A_by_type) as Hres by (vm_compute; reflexivity).
  split; [exact Hs|]. split; [exact Hres|].
  exact (applyGrouping_covers scenario_A G_type empty_metadata tt
           scenario_A_by_type Hs Hres).
Defined.

(** A card whose type is the name of a property that every object
    inherits: the inherited value is truthy, it is taken for the bucket, and
    it has no [push]. The partitioner throws. *)
Lemma applyGrouping_inherited_name :
  applyGrouping [player_card "05001" "constructor" None None None] G_type
    empty_metadata tt
  = None.
Proof. reflexivity. Qed.

(** C2 fails as it is stated: the none dimension returns its one group for
    an input without cards too. *)
Lemma applyGrouping_nonempty_counterexample :
  applyGrouping [] G_none empty_metadata tt
  = Some [GroupingResult.mk [] "all" "none"]
  ∧ ¬ Forall (λ g, GroupingResult.cards g ≠ [])
        [GroupingResult.mk [] "all" "none"].
Proof.
  split; [reflexivity|]. intros Hall. by inv Hall.
Qed.

Lemma applyGrouping_nonempty_witness :
  (on_demand G_type
   ∧ applyGrouping scenario_A G_type empty_metadata tt
     = Some scenario_A_by_type
   ∧ Forall (λ g, GroupingResult.cards g ≠ []) scenario_A_by_type)
  ∧ applyGrouping scenario_A G_none empty_metadata tt
    = Some [GroupingResult.mk scenario_A "all" "none"]
  ∧ ([G_type; G_cost] ≠ []
     ∧ Forall on_demand [G_type; G_cost]
     ∧ getGroupedCards [G_type; G_cost] scenario_A by_code empty_metadata tt
       = Some scenario_A_result
     ∧ Forall (λ g, GroupingResult.cards g ≠ [])
         (GroupedCards.data scenario_A_result)).
Proof.
  assert (∀ grouping, grouping ∈ [G_type; G_cost] → on_demand grouping)
    as Hdemand.
  { intros grouping Hg Hin.
    by_cases Hg;
      repeat (apply elem_of_cons in Hin as [Hin|Hin]; [discriminate|]);
      by apply elem_of_nil in Hin. }
  assert (on_demand G_type) as Htype by (apply Hdemand; left).
  assert (applyGrouping scenario_A G_type empty_metadata tt
          = Some scenario_A_by_type) as Hres by (vm_compute; reflexivity).
  assert ([G_type; G_cost] ≠ []) as Hne by discriminate.
  assert (Forall on_demand [G_type; G_cost]) as Hall
    by (apply Forall_forall; exact Hdemand).
  assert (getGroupedCards [G_type; G_cost] scenario_A by_code empty_metadata tt
          = Some scenario_A_result) as Hrun by (vm_compute; reflexivity).
  destruct applyGrouping_nonempty as (Hgroups & Hnone & Hleaves).
  split; [|split].
  - split; [exact Htype|]. split; [exact Hres|].
    exact (Hgroups scenario_A G_type empty_metadata tt scenario_A_by_type
             Htype Hres).
  - exact (Hnone scenario_A empty_metadata tt).
  - split; [exact Hne|]. split; [exact Hall|]. split; [exact Hrun|].
    exact (Hleaves [G_type; G_cost] scenario_A by_code empty_metadata tt
             scenario_A_result Hne Hall Hrun).
Defined.

(** The slip of [omitEmptyGroupings], on the cards of scenario D under
    base_upgrades: no card has experience, and the [upgrade] group is
    returned without a card. *)
Lemma groupByLevel0VsUpgrade_scenario_D :
  applyGrouping scenario_D G_base_upgrades empty_metadata tt
  = Some [GroupingResult.mk scenario_D "level0" "base_upgrades";
          GroupingResult.mk [] "upgrade" "base_upgrades"].
Proof. vm_compute. reflexivity. Qed.

(** C3 fails as it is stated: with subtype as the second dimension the
    card of subtype [ultra-rare] is dropped from the children of [asset],
    whose entry counts three cards while its two children count one each. *)
Lemma hierarchy_parent_consistency_counterexample :
  let hierarchy :=
    GroupedCards.hierarchy
      <$> getGroupedCards [G_type; G_subtype] scenario_D by_code
            empty_metadata tt in
  (hierarchy ≫= (.!! "asset|none"))
  = Some (GroupTreeEntry.mk "asset|none" "type|subtype" 1 (Some "asset"))
  ∧ (hierarchy ≫= (.!! "asset"))
    = Some (GroupTreeEntry.mk "asset" "type" 3 None)
  ∧ (λ h, children_count h "asset") <$> hierarchy = Some 2.
Proof. vm_compute. done. Qed.

(** A bar in a key segment breaks the hierarchy as well: the group of the
    type [a|b] is taken for a child of a group [a], of which there is no
    entry. *)
Lemma hierarchy_bar_in_segment :
  let hierarchy :=
    GroupedCards.hierarchy
      <$> getGroupedCards [G_type; G_cost]
            [player_card "04001" "a|b" None None None] by_code
            empty_metadata tt in
  (hierarchy ≫= (.!! "a|b"))
  = Some (GroupTreeEntry.mk "a|b" "type" 1 (Some "a"))
  ∧ (hierarchy ≫= (.!! "a")) = None.
Proof. vm_compute. done. Qed.

Lemma hierarchy_parent_consistency_witness :
  (∀ grouping c k, grouping ∈ [G_type; G_cost] → c ∈ scenario_A →
     dimension_key grouping empty_metadata c = Some k →
     includes_bar k = false)
  ∧ (G_subtype ∈ drop 1 [G_type; G_cost] →
       ∀ c, c ∈ scenario_A → subtype_of c ∈ fixed_subtypes)
  ∧ getGroupedCards [G_type; G_cost] scenario_A by_code empty_metadata tt
    = Some scenario_A_result
  ∧ (∀ k entry parent,
       GroupedCards.hierarchy scenario_A_result !! k = Some entry →
       GroupTreeEntry.parent entry = Some parent →
       ∃ parent_entry,
         GroupedCards.hierarchy scenario_A_result !! parent
         = Some parent_entry
         ∧ GroupTreeEntry.count parent_entry
           = children_count (GroupedCards.hierarchy scenario_A_result)
               parent)
  ∧ (∀ leaf, leaf ∈ GroupedCards.data scenario_A_result →
       ∃ entry,
         GroupedCards.hierarchy scenario_A_result
           !! GroupingResult.key leaf = Some entry
         ∧ GroupTreeEntry.count entry = length (GroupingResult.cards leaf)
         ∧ direct_children (GroupedCards.hierarchy scenario_A_result)
             (GroupingResult.key leaf) = []).
Proof.
  assert (∀ grouping c k, grouping ∈ [G_type; G_cost] → c ∈ scenario_A →
    dimension_key grouping empty_metadata c = Some k →
    includes_bar k = false) as Hbar.
  { intros grouping c k Hg Hc Hk. by_cases Hg; by_cases Hc;
      vm_compute in Hk; injection Hk as <-; reflexivity. }
  assert (G_subtype ∈ drop 1 [G_type; G_cost] →
    ∀ c, c ∈ scenario_A → subtype_of c ∈ fixed_subtypes) as Hdrop.
  { intros Hs. simpl in Hs. by apply list_elem_of_singleton in Hs. }
  assert (getGroupedCards [G_type; G_cost] scenario_A by_code empty_metadata tt
          = Some scenario_A_result) as Hres by (vm_compute; reflexivity).
  split; [exact Hbar|]. split; [exact Hdrop|]. split; [exact Hres|].
  exact (hierarchy_parent_consistency [G_type; G_cost] scenario_A by_code
           empty_metadata tt scenario_A_result Hbar Hdrop Hres).
Defined.

(** C4 fails on the code: without a dimension the one leaf is the caller's
    array itself, and the final sort sorts it in place. The caller passes
    [card_b; card_a] and finds [card_a; card_b] after the call. *)
Theorem getGroupedCards_sorts_the_callers_array :
  snd <$> getGroupedCards_ref [] [card_b; card_a] by_code empty_metadata tt
  = Some [card_a; card_b]
  ∧ snd <$> getGroupedCards_ref [G_none] [card_b; card_a] by_code
              empty_metadata tt
    = Some [card_a; card_b]
  ∧ snd <$> getGroupedCards_ref [G_type] [card_b; card_a] by_code
              empty_metadata tt
    = Some [card_b; card_a].
Proof. vm_compute. done. Qed.

Lemma packs_keyed_scenario_C : packs_keyed scenario_C_metadata.
Proof.
  intros code pack. simpl.
  intros [[<- <-]|[_ [[<- <-]|[_ Hempty]]%lookup_insert_Some]]%lookup_insert_Some;
    [done..|]. by rewrite lookup_empty in Hempty.
Qed.

Lemma groupByPack_reprint_witness :
  packs_keyed scenario_C_metadata
  ∧ applyGrouping [encounter_card] G_pack scenario_C_metadata tt
    = Some [GroupingResult.mk [encounter_card] "abcc" "pack"]
  ∧ encounter_card ∈ [encounter_card]
  ∧ Metadata.packs scenario_C_metadata !! Card.pack_code encounter_card
    = Some (Pack.mk "abc" "abc" 1 false)
  ∧ ∃ g, g ∈ [GroupingResult.mk [encounter_card] "abcc" "pack"]
      ∧ encounter_card ∈ GroupingResult.cards g
      ∧ (∀ g', g' ∈ [GroupingResult.mk [encounter_card] "abcc" "pack"] →
           encounter_card ∈ GroupingResult.cards g' → g' = g)
      ∧ GroupingResult.key g =
          if is_reprint_pack scenario_C_metadata
               (reprint_code (Pack.mk "abc" "abc" 1 false) encounter_card)
          then reprint_code (Pack.mk "abc" "abc" 1 false) encounter_card
          else Card.pack_code encounter_card.
Proof.
  assert (applyGrouping [encounter_card] G_pack scenario_C_metadata tt
          = Some [GroupingResult.mk [encounter_card] "abcc" "pack"]) as Hres
    by (vm_compute; reflexivity).
  assert (encounter_card ∈ [encounter_card]) as Hin by left.
  assert (Metadata.packs scenario_C_metadata !! Card.pack_code encounter_card
          = Some (Pack.mk "abc" "abc" 1 false)) as Hpack
    by (vm_compute; reflexivity).
  split; [exact packs_keyed_scenario_C|]. split; [exact Hres|].
  split; [exact Hin|]. split; [exact Hpack|].
  exact (groupByPack_reprint [encounter_card] scenario_C_metadata tt _
           encounter_card _ packs_keyed_scenario_C Hres Hin Hpack).
Defined.

Lemma subtype_fixed_buckets_witness :
  (applyGrouping scenario_D G_subtype empty_metadata tt
   = Some scenario_D_by_subtype
   ∧ sublist (GroupingResult.key <$> scenario_D_by_subtype)
       [NONE; "weakness"; "basicweakness"]
   ∧ (∀ g c, g ∈ scenario_D_by_subtype → c ∈ GroupingResult.cards g →
        c ∈ scenario_D ∧ subtype_of c = GroupingResult.key g)
   ∧ (∀ c, subtype_of c ∉ [NONE; "weakness"; "basicweakness"] →
        ∀ g, g ∈ scenario_D_by_subtype → c ∉ GroupingResult.cards g))
  ∧ (Card.subtype_code plain_asset = None
     ∧ Card.subtype_code weakness_asset = Some "weakness"
     ∧ Card.subtype_code rare_asset = Some "ultra-rare"
     ∧ inherited "ultra-rare" = false
     ∧ ∃ hierarchy,
         getGroupedCards [G_subtype] [plain_asset; weakness_asset; rare_asset]
           by_code empty_metadata tt
         = Some (GroupedCards.mk
                   [GroupingResult.mk [plain_asset] NONE "subtype";
                    GroupingResult.mk [weakness_asset] "weakness" "subtype"]
                   hierarchy)).
Proof.
  assert (applyGrouping scenario_D G_subtype empty_metadata tt
          = Some scenario_D_by_subtype) as Hres by (vm_compute; reflexivity).
  assert (inherited "ultra-rare" = false) as Hi by (vm_compute; reflexivity).
  split.
  - split; [exact Hres|].
    exact (proj1 subtype_fixed_buckets scenario_D empty_metadata tt
             scenario_D_by_subtype Hres).
  - split; [reflexivity|]. split; [reflexivity|]. split; [reflexivity|].
    split; [exact Hi|].
    exact (proj2 subtype_fixed_buckets plain_asset weakness_asset rare_asset
             by_code empty_metadata tt eq_refl eq_refl eq_refl Hi).
Defined.

(** C7 fails as it is stated: ["default"] is no dimension, and its label is
    the segment. *)
Lemma getGroupingKeyLabel_counterexample :
  ¬ recognized "default"
  ∧ getGroupingKeyLabel "default" "core" empty_metadata = "core"
  ∧ "core" ≠ "".
Proof.
  split; [|done]. intros [grouping Hg]. by destruct grouping.
Qed.

(** Under the other dimensions a segment goes to the translation or to
    the formatter as it is: with a resolver that answers a key without
    translation with the key, the label of an unknown type segment is not
    empty. *)
Lemma getGroupingKeyLabel_unknown_segment :
  getGroupingKeyLabel "type" "xyz" empty_metadata = "common.type.xyz".
Proof. reflexivity. Qed.

(** A segment that names no encounter set but a property that objects
    inherit: the label is the name of the inherited function. *)
Lemma getGroupingKeyLabel_inherited_segment :
  Metadata.encounterSets empty_metadata !! "constructor" = None
  ∧ getGroupingKeyLabel "encounter_set" "constructor" empty_metadata
    = "Object".
Proof. split; reflexivity. Qed.

Lemma getGroupingKeyLabel_fallback_witness :
  (¬ recognized "rarity" ∧ "rarity" ≠ "default"
   ∧ getGroupingKeyLabel "rarity" "core" empty_metadata = "")
  ∧ ("core" ≠ LEVEL_0 ∧ "core" ≠ UPGRADE
     ∧ getGroupingKeyLabel "base_upgrades" "core" empty_metadata = "")
  ∧ (Metadata.encounterSets empty_metadata !! "core" = None
     ∧ inherited "core" = false
     ∧ getGroupingKeyLabel "encounter_set" "core" empty_metadata = "").
Proof.
  assert (¬ recognized "rarity") as Hr.
  { intros [grouping Hg]. by destruct grouping. }
  assert ("rarity" ≠ "default") as Hd by discriminate.
  assert ("core" ≠ LEVEL_0) as H0 by discriminate.
  assert ("core" ≠ UPGRADE) as H1 by discriminate.
  assert (Metadata.encounterSets empty_metadata !! "core" = None) as He
    by reflexivity.
  assert (inherited "core" = false) as Hi by reflexivity.
  destruct getGroupingKeyLabel_fallback as (Htype & _ & _ & Hbase & Hset).
  split; [|split].
  - split; [exact Hr|]. split; [exact Hd|].
    exact (Htype "rarity" "core" empty_metadata Hr Hd).
  - split; [exact H0|]. split; [exact H1|].
    exact (Hbase "core" empty_metadata H0 H1).
  - split; [exact He|]. split; [exact Hi|].
    exact (Hset "core" empty_metadata He Hi).
Defined.

Lemma groupByLevel0VsUpgrade_buckets_witness :
  asset_2 ∈ scenario_A ∧ event_2 ∈ scenario_A ∧ asset_free ∈ scenario_A
  ∧ ∃ res, groupByLevel0VsUpgrade scenario_A = Some res
    ∧ (∃ g, g ∈ res ∧ asset_2 ∈ GroupingResult.cards g
            ∧ GroupingResult.key g = LEVEL_0)
    ∧ (∃ g, g ∈ res ∧ event_2 ∈ GroupingResult.cards g
            ∧ GroupingResult.key g = UPGRADE)
    ∧ (∃ g, g ∈ res ∧ asset_free ∈ GroupingResult.cards g
            ∧ GroupingResult.key g = LEVEL_0).
Proof.
  assert (asset_2 ∈ scenario_A) as H1 by left.
  assert (event_2 ∈ scenario_A) as H2 by (right; left).
  assert (asset_free ∈ scenario_A) as H3 by (right; right; left).
  split; [exact H1|]. split; [exact H2|]. split; [exact H3|].
  destruct (groupByLevel0VsUpgrade_buckets scenario_A) as (res & Hres & Hc).
  exists res. split; [exact Hres|].
  destruct (Hc _ H1) as (g1 & ? & ? & _ & ?).
  destruct (Hc _ H2) as (g2 & ? & ? & _ & ?).
  destruct (Hc _ H3) as (g3 & ? & ? & _ & ?).
  split; [by exists g1|]. split; [by exists g2|by exists g3].
Defined.

Local Ltac no_member H :=
  repeat (apply elem_of_cons in H as [H|H]; [discriminate|]);
  by apply elem_of_nil in H.

(** ** The further properties on concrete inputs *)

Lemma omitEmptyGroupings_every_other_witness :
  NoDup (key_string <$> Grouping.groupings three_keys)
  ∧ (∀ k, k ∈ Grouping.groupings three_keys →
       is_Some (Grouping.data three_keys !! key_string k))
  ∧ omitEmptyGroupings three_keys
    = Some (Grouping.mk
              (delete_keys (Grouping.data three_keys)
                 (taken_out (has_cards (Grouping.data three_keys))
                    (Grouping.groupings three_keys)))
              (every_other (has_cards (Grouping.data three_keys))
                 (Grouping.groupings three_keys))
              (Grouping.type three_keys))
  ∧ every_other (has_cards (Grouping.data three_keys))
      (Grouping.groupings three_keys) = ["b"; "c"].
Proof.
  assert (NoDup (key_string <$> Grouping.groupings three_keys)) as Hnd
    by (apply (bool_decide_unpack _); vm_compute; exact I).
  assert (∀ k, k ∈ Grouping.groupings three_keys →
    is_Some (Grouping.data three_keys !! key_string k)) as Hdata.
  { intros k Hk. simpl in Hk. by_cases Hk; vm_compute; eauto. }
  split; [exact Hnd|]. split; [exact Hdata|].
  split; [|reflexivity].
  exact (omitEmptyGroupings_every_other three_keys Hnd Hdata).
Defined.

Lemma omitEmptyGroupings_keeps_cards_witness :
  NoDup (key_string <$> Grouping.groupings three_keys)
  ∧ (∀ k, k ∈ Grouping.groupings three_keys →
       is_Some (Grouping.data three_keys !! key_string k))
  ∧ ∃ g', omitEmptyGroupings three_keys = Some g'
      ∧ Grouping.groupings g' `sublist_of` Grouping.groupings three_keys
      ∧ (∀ k cs, k ∈ Grouping.groupings three_keys →
           Grouping.data three_keys !! key_string k = Some cs → cs ≠ [] →
           k ∈ Grouping.groupings g')
      ∧ (∀ k, k ∈ Grouping.groupings g' →
           Grouping.data g' !! key_string k
           = Grouping.data three_keys !! key_string k)
      ∧ Grouping.type g' = Grouping.type three_keys.
Proof.
  assert (NoDup (key_string <$> Grouping.groupings three_keys)) as Hnd
    by (apply (bool_decide_unpack _); vm_compute; exact I).
  assert (∀ k, k ∈ Grouping.groupings three_keys →
    is_Some (Grouping.data three_keys !! key_string k)) as Hdata.
  { intros k Hk. simpl in Hk. by_cases Hk; vm_compute; eauto. }
  split; [exact Hnd|]. split; [exact Hdata|].
  exact (omitEmptyGroupings_keeps_cards three_keys Hnd Hdata).
Defined.

Lemma applyGrouping_stable_witness :
  applyGrouping scenario_A G_type empty_metadata tt = Some scenario_A_by_type
  ∧ NoDup (GroupingResult.key <$> scenario_A_by_type)
  ∧ ∀ g, g ∈ scenario_A_by_type →
      GroupingResult.cards g `sublist_of` scenario_A.
Proof.
  assert (applyGrouping scenario_A G_type empty_metadata tt
          = Some scenario_A_by_type) as Hres by (vm_compute; reflexivity).
  split; [exact Hres|].
  exact (applyGrouping_stable scenario_A G_type empty_metadata tt
           scenario_A_by_type Hres).
Defined.

Lemma groupByTypeCode_files_witness :
  groupByTypeCode scenario_A = Some scenario_A_by_type
  ∧ event_2 ∈ scenario_A
  ∧ ∃ g, g ∈ scenario_A_by_type ∧ event_2 ∈ GroupingResult.cards g
      ∧ (∀ g', g' ∈ scenario_A_by_type →
           event_2 ∈ GroupingResult.cards g' → g' = g)
      ∧ GroupingResult.key g = "event"
      ∧ GroupingResult.type g = "type".
Proof.
  assert (groupByTypeCode scenario_A = Some scenario_A_by_type) as Hres
    by (vm_compute; reflexivity).
  assert (event_2 ∈ scenario_A) as Hc by (right; left).
  split; [exact Hres|]. split; [exact Hc|].
  exact (groupByTypeCode_files scenario_A scenario_A_by_type event_2 Hres Hc).
Defined.

Lemma groupBySlots_files_witness :
  groupBySlots [hand_asset; permanent_asset] tt
  = Some [GroupingResult.mk [hand_asset] "Hand" "slot";
          GroupingResult.mk [permanent_asset] "permanent" "slot"]
  ∧ permanent_asset ∈ [hand_asset; permanent_asset]
  ∧ ∃ g, g ∈ [GroupingResult.mk [hand_asset] "Hand" "slot";
              GroupingResult.mk [permanent_asset] "permanent" "slot"]
      ∧ permanent_asset ∈ GroupingResult.cards g
      ∧ (∀ g', g' ∈ [GroupingResult.mk [hand_asset] "Hand" "slot";
                     GroupingResult.mk [permanent_asset] "permanent" "slot"] →
           permanent_asset ∈ GroupingResult.cards g' → g' = g)
      ∧ GroupingResult.key g = "permanent"
      ∧ GroupingResult.type g = "slot".
Proof.
  assert (groupBySlots [hand_asset; permanent_asset] tt
          = Some [GroupingResult.mk [hand_asset] "Hand" "slot";
                  GroupingResult.mk [permanent_asset] "permanent" "slot"])
    as Hres by (vm_compute; reflexivity).
  assert (permanent_asset ∈ [hand_asset; permanent_asset]) as Hc
    by (right; left).
  split; [exact Hres|]. split; [exact Hc|].
  exact (groupBySlots_files _ tt _ permanent_asset Hres Hc).
Defined.

Lemma groupByLevel_files_witness :
  groupByLevel scenario_A
  = Some [GroupingResult.mk [asset_free] "none" "level";
          GroupingResult.mk [asset_2] "0" "level";
          GroupingResult.mk [event_2] "3" "level"]
  ∧ asset_2 ∈ scenario_A
  ∧ (∀ xp, Card.xp asset_2 = Some xp → safe_integer xp)
  ∧ ∃ g, g ∈ [GroupingResult.mk [asset_free] "none" "level";
              GroupingResult.mk [asset_2] "0" "level";
              GroupingResult.mk [event_2] "3" "level"]
      ∧ asset_2 ∈ GroupingResult.cards g
      ∧ (∀ g', g' ∈ [GroupingResult.mk [asset_free] "none" "level";
                     GroupingResult.mk [asset_2] "0" "level";
                     GroupingResult.mk [event_2] "3" "level"] →
           asset_2 ∈ GroupingResult.cards g' → g' = g)
      ∧ GroupingResult.key g = "0"
      ∧ GroupingResult.type g = "level".
Proof.
  assert (∀ xp, Card.xp asset_2 = Some xp → safe_integer xp) as Hsafe.
  { intros xp [= <-]. unfold safe_integer. lia. }
  assert (groupByLevel scenario_A
          = Some [GroupingResult.mk [asset_free] "none" "level";
                  GroupingResult.mk [asset_2] "0" "level";
                  GroupingResult.mk [event_2] "3" "level"])
    as Hres by (vm_compute; reflexivity).
  assert (asset_2 ∈ scenario_A) as Hc by left.
  split; [exact Hres|]. split; [exact Hc|]. split; [exact Hsafe|].
  exact (groupByLevel_files scenario_A _ asset_2 Hres Hc Hsafe).
Defined.

Lemma groupByFaction_files_witness :
  groupByFaction [hand_asset; permanent_asset]
  = Some [GroupingResult.mk [hand_asset] "seeker" "faction";
          GroupingResult.mk [permanent_asset] "multiclass" "faction"]
  ∧ permanent_asset ∈ [hand_asset; permanent_asset]
  ∧ ∃ g, g ∈ [GroupingResult.mk [hand_asset] "seeker" "faction";
              GroupingResult.mk [permanent_asset] "multiclass" "faction"]
      ∧ permanent_asset ∈ GroupingResult.cards g
      ∧ (∀ g', g' ∈ [GroupingResult.mk [hand_asset] "seeker" "faction";
                     GroupingResult.mk [permanent_asset] "multiclass"
                       "faction"] →
           permanent_asset ∈ GroupingResult.cards g' → g' = g)
      ∧ GroupingResult.key g = "multiclass"
      ∧ GroupingResult.type g = "faction".
Proof.
  assert (groupByFaction [hand_asset; permanent_asset]
          = Some [GroupingResult.mk [hand_asset] "seeker" "faction";
                  GroupingResult.mk [permanent_asset] "multiclass" "faction"])
    as Hres by (vm_compute; reflexivity).
  assert (permanent_asset ∈ [hand_asset; permanent_asset]) as Hc
    by (right; left).
  split; [exact Hres|]. split; [exact Hc|].
  exact (groupByFaction_files _ _ permanent_asset Hres Hc).
Defined.

Lemma groupByEncounterSet_files_witness :
  groupByEncounterSet [encounter_card; asset_2] empty_metadata tt
  = Some [GroupingResult.mk [encounter_card] "rats" "encounter_set";
          GroupingResult.mk [asset_2] "none" "encounter_set"]
  ∧ asset_2 ∈ [encounter_card; asset_2]
  ∧ ∃ g, g ∈ [GroupingResult.mk [encounter_card] "rats" "encounter_set";
              GroupingResult.mk [asset_2] "none" "encounter_set"]
      ∧ asset_2 ∈ GroupingResult.cards g
      ∧ (∀ g', g' ∈ [GroupingResult.mk [encounter_card] "rats"
                       "encounter_set";
                     GroupingResult.mk [asset_2] "none" "encounter_set"] →
           asset_2 ∈ GroupingResult.cards g' → g' = g)
      ∧ GroupingResult.key g = "none"
      ∧ GroupingResult.type g = "encounter_set".
Proof.
  assert (groupByEncounterSet [encounter_card; asset_2] empty_metadata tt
          = Some [GroupingResult.mk [encounter_card] "rats" "encounter_set";
                  GroupingResult.mk [asset_2] "none" "encounter_set"])
    as Hres by (vm_compute; reflexivity).
  assert (asset_2 ∈ [encounter_card; asset_2]) as Hc by (right; left).
  split; [exact Hres|]. split; [exact Hc|].
  exact (groupByEncounterSet_files _ empty_metadata tt _ asset_2 Hres Hc).
Defined.

Lemma groupByCost_files_witness :
  groupByCost scenario_A
  = Some [GroupingResult.mk [asset_free] "none" "cost";
          GroupingResult.mk [asset_2; event_2] "2" "cost"]
  ∧ event_2 ∈ scenario_A
  ∧ (∀ cost, Card.cost event_2 = Some cost → safe_integer cost)
  ∧ ∃ g, g ∈ [GroupingResult.mk [asset_free] "none" "cost";
              GroupingResult.mk [asset_2; event_2] "2" "cost"]
      ∧ event_2 ∈ GroupingResult.cards g
      ∧ (∀ g', g' ∈ [GroupingResult.mk [asset_free] "none" "cost";
                     GroupingResult.mk [asset_2; event_2] "2" "cost"] →
           event_2 ∈ GroupingResult.cards g' → g' = g)
      ∧ GroupingResult.key g = "2"
      ∧ GroupingResult.type g = "cost".
Proof.
  assert (∀ cost, Card.cost event_2 = Some cost → safe_integer cost) as Hsafe.
  { intros cost [= <-]. unfold safe_integer. lia. }
  assert (groupByCost scenario_A
          = Some [GroupingResult.mk [asset_free] "none" "cost";
                  GroupingResult.mk [asset_2; event_2] "2" "cost"])
    as Hres by (vm_compute; reflexivity).
  assert (event_2 ∈ scenario_A) as Hc by (right; left).
  split; [exact Hres|]. split; [exact Hc|]. split; [exact Hsafe|].
  exact (groupByCost_files scenario_A _ event_2 Hres Hc Hsafe).
Defined.

Lemma groupByCycle_files_witness :
  groupByCycle [encounter_card; asset_2] scenario_E_metadata
  = Some [GroupingResult.mk [asset_2] "core" "cycle";
          GroupingResult.mk [encounter_card] "abc" "cycle"]
  ∧ encounter_card ∈ [encounter_card; asset_2]
  ∧ Metadata.packs scenario_E_metadata !! Card.pack_code encounter_card
    = Some (Pack.mk "abc" "abc" 1 false)
  ∧ Metadata.cycles scenario_E_metadata
      !! Pack.cycle_code (Pack.mk "abc" "abc" 1 false)
    = Some (Cycle.mk "abc" 2)
  ∧ ∃ g, g ∈ [GroupingResult.mk [asset_2] "core" "cycle";
              GroupingResult.mk [encounter_card] "abc" "cycle"]
      ∧ encounter_card ∈ GroupingResult.cards g
      ∧ (∀ g', g' ∈ [GroupingResult.mk [asset_2] "core" "cycle";
                     GroupingResult.mk [encounter_card] "abc" "cycle"] →
           encounter_card ∈ GroupingResult.cards g' → g' = g)
      ∧ GroupingResult.key g = "abc"
      ∧ GroupingResult.type g = "cycle".
Proof.
  assert (groupByCycle [encounter_card; asset_2] scenario_E_metadata
          = Some [GroupingResult.mk [asset_2] "core" "cycle";
                  GroupingResult.mk [encounter_card] "abc" "cycle"])
    as Hres by (vm_compute; reflexivity).
  assert (encounter_card ∈ [encounter_card; asset_2]) as Hc by left.
  assert (Metadata.packs scenario_E_metadata !! Card.pack_code encounter_card
          = Some (Pack.mk "abc" "abc" 1 false)) as Hpack
    by (vm_compute; reflexivity).
  assert (Metadata.cycles scenario_E_metadata
            !! Pack.cycle_code (Pack.mk "abc" "abc" 1 false)
          = Some (Cycle.mk "abc" 2)) as Hcycle by (vm_compute; reflexivity).
  split; [exact Hres|]. split; [exact Hc|]. split; [exact Hpack|].
  split; [exact Hcycle|].
  exact (groupByCycle_files _ scenario_E_metadata _ encounter_card _ _
           Hres Hc Hpack Hcycle).
Defined.

Lemma numeric_order_numeric_host : @numeric_order numeric_host.
Proof. intros a b. simpl. lia. Qed.

Local Ltac safe_cards :=
  let Hc := fresh in let Hn := fresh in
  intros ? ? Hc Hn; by_cases Hc; vm_compute in Hn; try discriminate;
  injection Hn as <-; unfold safe_integer; lia.

Lemma groupByLevel_ordered_witness :
  @numeric_order numeric_host
  ∧ (∀ c xp, c ∈ [event_2; asset_2; asset_free] → Card.xp c = Some xp →
       safe_integer xp)
  ∧ @groupByLevel numeric_host [event_2; asset_2; asset_free]
    = Some [GroupingResult.mk [asset_free] "none" "level";
            GroupingResult.mk [asset_2] "0" "level";
            GroupingResult.mk [event_2] "3" "level"]
  ∧ StronglySorted none_first ["none"; "0"; "3"].
Proof.
  assert (∀ c xp, c ∈ [event_2; asset_2; asset_free] → Card.xp c = Some xp →
    safe_integer xp) as Hsafe by safe_cards.
  assert (@groupByLevel numeric_host [event_2; asset_2; asset_free]
          = Some [GroupingResult.mk [asset_free] "none" "level";
                  GroupingResult.mk [asset_2] "0" "level";
                  GroupingResult.mk [event_2] "3" "level"])
    as Hres by (vm_compute; reflexivity).
  split; [exact numeric_order_numeric_host|]. split; [exact Hsafe|].
  split; [exact Hres|].
  exact (@groupByLevel_ordered numeric_host _ _
           numeric_order_numeric_host Hsafe Hres).
Defined.

Lemma groupByCost_ordered_witness :
  @numeric_order numeric_host
  ∧ (∀ c cost, c ∈ [event_2; asset_free; hand_asset; asset_2] →
       Card.cost c = Some cost → safe_integer cost)
  ∧ @groupByCost numeric_host [event_2; asset_free; hand_asset; asset_2]
    = Some [GroupingResult.mk [asset_free; hand_asset] "none" "cost";
            GroupingResult.mk [event_2; asset_2] "2" "cost"]
  ∧ StronglySorted none_first ["none"; "2"].
Proof.
  assert (∀ c cost, c ∈ [event_2; asset_free; hand_asset; asset_2] →
    Card.cost c = Some cost → safe_integer cost) as Hsafe by safe_cards.
  assert (@groupByCost numeric_host [event_2; asset_free; hand_asset; asset_2]
          = Some [GroupingResult.mk [asset_free; hand_asset] "none" "cost";
                  GroupingResult.mk [event_2; asset_2] "2" "cost"])
    as Hres by (vm_compute; reflexivity).
  split; [exact numeric_order_numeric_host|]. split; [exact Hsafe|].
  split; [exact Hres|].
  exact (@groupByCost_ordered numeric_host _ _
           numeric_order_numeric_host Hsafe Hres).
Defined.

Lemma groupByCycle_ordered_witness :
  groupByCycle [encounter_card; asset_2] scenario_E_metadata
  = Some [GroupingResult.mk [asset_2] "core" "cycle";
          GroupingResult.mk [encounter_card] "abc" "cycle"]
  ∧ StronglySorted
      (λ a b, (cycle_position scenario_E_metadata a
               ≤ cycle_position scenario_E_metadata b)%Z)
      ["core"; "abc"].
Proof.
  assert (groupByCycle [encounter_card; asset_2] scenario_E_metadata
          = Some [GroupingResult.mk [asset_2] "core" "cycle";
                  GroupingResult.mk [encounter_card] "abc" "cycle"])
    as Hres by (vm_compute; reflexivity).
  split; [exact Hres|].
  exact (groupByCycle_ordered _ scenario_E_metadata _ Hres).
Defined.

Lemma groupByPack_ordered_witness :
  groupByPack [encounter_card; asset_2] scenario_E_metadata
  = Some [GroupingResult.mk [asset_2] "core" "pack";
          GroupingResult.mk [encounter_card] "abc" "pack"]
  ∧ StronglySorted
      (λ a b, lex_le (pack_rank scenario_E_metadata a)
                (pack_rank scenario_E_metadata b))
      ["core"; "abc"].
Proof.
  assert (groupByPack [encounter_card; asset_2] scenario_E_metadata
          = Some [GroupingResult.mk [asset_2] "core" "pack";
                  GroupingResult.mk [encounter_card] "abc" "pack"])
    as Hres by (vm_compute; reflexivity).
  split; [exact Hres|].
  exact (groupByPack_ordered _ scenario_E_metadata _ Hres).
Defined.

Lemma parent_key_spec_witness :
  (includes_bar "asset" = false ∧ parent_key "asset" = None)
  ∧ (includes_bar "2" = false ∧ "asset|2" = "asset" +:+ "|" +:+ "2"
     ∧ parent_key "asset|2" = Some "asset")
  ∧ (parent_key "type|asset|2" = Some "type|asset"
     ∧ ∃ segment,
         includes_bar segment = false
         ∧ "type|asset|2" = "type|asset" +:+ "|" +:+ segment).
Proof.
  assert (includes_bar "asset" = false) as Hroot by reflexivity.
  assert (includes_bar "2" = false) as Hsegment by reflexivity.
  assert ("asset|2" = "asset" +:+ "|" +:+ "2") as Hkey by reflexivity.
  assert (parent_key "type|asset|2" = Some "type|asset") as Hparent
    by reflexivity.
  split; [|split].
  - split; [exact Hroot|]. exact (proj1 (parent_key_spec "asset") Hroot).
  - split; [exact Hsegment|]. split; [exact Hkey|].
    exact (proj1 (proj2 (parent_key_spec "asset|2")) "asset" "2" Hsegment Hkey).
  - split; [exact Hparent|].
    exact (proj2 (proj2 (parent_key_spec "type|asset|2")) "type|asset" Hparent).
Defined.

Lemma getGroupedCards_leaf_types_witness :
  getGroupedCards [G_type; G_cost] scenario_A by_code empty_metadata tt
  = Some scenario_A_result
  ∧ GroupingResult.mk [asset_2] "asset|2" "type|cost"
    ∈ GroupedCards.data scenario_A_result
  ∧ "type|cost" = join_bar (grouping_name <$> effective [G_type; G_cost])
  ∧ split_bar "type|cost" = grouping_name <$> effective [G_type; G_cost].
Proof.
  assert (getGroupedCards [G_type; G_cost] scenario_A by_code empty_metadata tt
          = Some scenario_A_result) as Hres by (vm_compute; reflexivity).
  assert (GroupingResult.mk [asset_2] "asset|2" "type|cost"
          ∈ GroupedCards.data scenario_A_result) as Hleaf by (right; left).
  split; [exact Hres|]. split; [exact Hleaf|].
  exact (getGroupedCards_leaf_types _ _ _ _ _ _ _ Hres Hleaf).
Defined.

Lemma getGroupedCards_covers_witness :
  (G_subtype ∉ [G_type; G_cost])
  ∧ getGroupedCards [G_type; G_cost] scenario_A by_code empty_metadata tt
    = Some scenario_A_result
  ∧ concat (GroupingResult.cards <$> GroupedCards.data scenario_A_result)
    ≡ₚ scenario_A.
Proof.
  assert (G_subtype ∉ [G_type; G_cost]) as Hs.
  { intros Hin. no_member Hin. }
  assert (getGroupedCards [G_type; G_cost] scenario_A by_code empty_metadata tt
          = Some scenario_A_result) as Hres by (vm_compute; reflexivity).
  split; [exact Hs|]. split; [exact Hres|].
  exact (getGroupedCards_covers _ _ _ _ _ _ Hs Hres).
Defined.

Lemma getGroupedCards_no_duplicates_witness :
  getGroupedCards [G_subtype] scenario_D by_code empty_metadata tt
  = Some (GroupedCards.mk scenario_D_by_subtype
            (list_to_map
               [("none", GroupTreeEntry.mk "none" "subtype" 1 None);
                ("weakness", GroupTreeEntry.mk "weakness" "subtype" 1 None)]))
  ∧ concat (GroupingResult.cards <$> scenario_D_by_subtype) ⊆+ scenario_D.
Proof.
  assert (getGroupedCards [G_subtype] scenario_D by_code empty_metadata tt
          = Some (GroupedCards.mk scenario_D_by_subtype
                    (list_to_map
                       [("none", GroupTreeEntry.mk "none" "subtype" 1 None);
                        ("weakness",
                         GroupTreeEntry.mk "weakness" "subtype" 1 None)])))
    as Hres by (vm_compute; reflexivity).
  split; [exact Hres|].
  exact (getGroupedCards_no_duplicates _ _ _ _ _ _ Hres).
Defined.

Lemma getGroupedCards_hierarchy_keys_witness :
  getGroupedCards [G_type; G_cost] scenario_A by_code empty_metadata tt
  = Some scenario_A_result
  ∧ (∀ k entry,
       GroupedCards.hierarchy scenario_A_result !! k = Some entry →
       GroupTreeEntry.key entry = k
       ∧ GroupTreeEntry.count entry ≤ length scenario_A)
  ∧ (∀ leaf, leaf ∈ GroupedCards.data scenario_A_result →
       is_Some (GroupedCards.hierarchy scenario_A_result
                  !! GroupingResult.key leaf)).
Proof.
  assert (getGroupedCards [G_type; G_cost] scenario_A by_code empty_metadata tt
          = Some scenario_A_result) as Hres by (vm_compute; reflexivity).
  split; [exact Hres|].
  exact (getGroupedCards_hierarchy_keys _ _ _ _ _ _ Hres).
Defined.

Lemma getGroupedCards_flat_witness :
  length [G_type] ≤ 1
  ∧ getGroupedCards [G_type] scenario_A by_code empty_metadata tt
    = Some scenario_A_flat
  ∧ (∀ leaf, leaf ∈ GroupedCards.data scenario_A_flat →
       GroupedCards.hierarchy scenario_A_flat !! GroupingResult.key leaf
       = Some (GroupTreeEntry.mk (GroupingResult.key leaf)
                 (GroupingResult.type leaf)
                 (length (GroupingResult.cards leaf)) None))
  ∧ (∀ k entry,
       GroupedCards.hierarchy scenario_A_flat !! k = Some entry →
       GroupTreeEntry.parent entry = None
       ∧ ∃ leaf, leaf ∈ GroupedCards.data scenario_A_flat
                 ∧ GroupingResult.key leaf = k).
Proof.
  assert (length [G_type] ≤ 1) as Hlen by (simpl; lia).
  assert (getGroupedCards [G_type] scenario_A by_code empty_metadata tt
          = Some scenario_A_flat) as Hres by (vm_compute; reflexivity).
  split; [exact Hlen|]. split; [exact Hres|].
  exact (getGroupedCards_flat _ _ _ _ _ _ Hlen Hres).
Defined.

Lemma getGroupedCards_fresh_arrays_witness :
  (∃ grouping, grouping ∈ [G_none; G_type] ∧ grouping ≠ G_none)
  ∧ getGroupedCards_ref [G_none; G_type] [card_b; card_a] by_code
      empty_metadata tt
    = Some (GroupedRefs.mk
              [GroupRef.mk (Created [card_b]) "all|asset" "none|type";
               GroupRef.mk (Created [card_a]) "all|event" "none|type"]
              (list_to_map
                 [("all", GroupTreeEntry.mk "all" "none" 2 None);
                  ("all|asset",
                   GroupTreeEntry.mk "all|asset" "none|type" 1 (Some "all"));
                  ("all|event",
                   GroupTreeEntry.mk "all|event" "none|type" 1 (Some "all"))]),
            [card_b; card_a])
  ∧ [card_b; card_a] = [card_b; card_a]
  ∧ Forall (λ g, GroupRef.cards g ≠ Passed)
      [GroupRef.mk (Created [card_b]) "all|asset" "none|type";
       GroupRef.mk (Created [card_a]) "all|event" "none|type"].
Proof.
  assert (∃ grouping, grouping ∈ [G_none; G_type] ∧ grouping ≠ G_none) as Hg.
  { exists G_type. split; [right; left|discriminate]. }
  assert (getGroupedCards_ref [G_none; G_type] [card_b; card_a] by_code
            empty_metadata tt
          = Some (GroupedRefs.mk
                    [GroupRef.mk (Created [card_b]) "all|asset" "none|type";
                     GroupRef.mk (Created [card_a]) "all|event" "none|type"]
                    (list_to_map
                       [("all", GroupTreeEntry.mk "all" "none" 2 None);
                        ("all|asset",
                         GroupTreeEntry.mk "all|asset" "none|type" 1
                           (Some "all"));
                        ("all|event",
                         GroupTreeEntry.mk "all|event" "none|type" 1
                           (Some "all"))]),
                  [card_b; card_a])) as Hres by (vm_compute; reflexivity).
  split; [exact Hg|]. split; [exact Hres|].
  exact (getGroupedCards_fresh_arrays _ _ _ _ _ _ _ Hg Hres).
Defined.

Lemma getGroupingKeyLabel_reads_witness :
  ("cycle" = "cycle" →
     Metadata.cycles scenario_C_metadata !! "abc"
     = Metadata.cycles
         (Metadata.mk ∅ (Metadata.cycles scenario_C_metadata) ∅) !! "abc")
  ∧ getGroupingKeyLabel "cycle" "abc" scenario_C_metadata
    = getGroupingKeyLabel "cycle" "abc"
        (Metadata.mk ∅ (Metadata.cycles scenario_C_metadata) ∅).
Proof.
  assert ("cycle" = "cycle" →
    Metadata.cycles scenario_C_metadata !! "abc"
    = Metadata.cycles
        (Metadata.mk ∅ (Metadata.cycles scenario_C_metadata) ∅) !! "abc")
    as Hcycle by reflexivity.
  split; [exact Hcycle|].
  apply (getGroupingKeyLabel_reads "cycle" "abc" scenario_C_metadata
           (Metadata.mk ∅ (Metadata.cycles scenario_C_metadata) ∅) Hcycle);
    discriminate.
Defined.

Lemma getGroupedCards_returns_witness :
  (∀ grouping c, grouping ∈ [G_type; G_cost] → c ∈ scenario_A →
     reads_inherited grouping empty_metadata c = false)
  ∧ (G_cycle ∈ [G_type; G_cost] ∨ G_pack ∈ [G_type; G_cost] →
       referential_integrity empty_metadata scenario_A)
  ∧ is_Some (getGroupedCards [G_type; G_cost] scenario_A by_code
               empty_metadata tt).
Proof.
  assert (∀ grouping c, grouping ∈ [G_type; G_cost] → c ∈ scenario_A →
    reads_inherited grouping empty_metadata c = false) as Hread.
  { intros grouping c Hg Hc. by_cases Hg; by_cases Hc; reflexivity. }
  assert (G_cycle ∈ [G_type; G_cost] ∨ G_pack ∈ [G_type; G_cost] →
    referential_integrity empty_metadata scenario_A) as Hmeta.
  { intros [Hin|Hin]; no_member Hin. }
  split; [exact Hread|]. split; [exact Hmeta|].
  exact (getGroupedCards_returns [G_type; G_cost] scenario_A by_code
           empty_metadata tt Hread Hmeta).
Defined.

Lemma getGroupedCards_leaf_keys_witness :
  getGroupedCards [G_type; G_cost] scenario_A by_code empty_metadata tt
  = Some scenario_A_result
  ∧ GroupingResult.mk [asset_2] "asset|2" "type|cost"
    ∈ GroupedCards.data scenario_A_result
  ∧ asset_2 ∈ [asset_2]
  ∧ ∃ segments,
      Forall2 (λ grouping segment,
                 dimension_key grouping empty_metadata asset_2 = Some segment)
        (effective [G_type; G_cost]) segments
      ∧ "asset|2" = join_bar segments.
Proof.
  assert (getGroupedCards [G_type; G_cost] scenario_A by_code empty_metadata tt
          = Some scenario_A_result) as Hres by (vm_compute; reflexivity).
  assert (GroupingResult.mk [asset_2] "asset|2" "type|cost"
          ∈ GroupedCards.data scenario_A_result) as Hleaf by (right; left).
  assert (asset_2 ∈ [asset_2]) as Hc by left.
  split; [exact Hres|]. split; [exact Hleaf|]. split; [exact Hc|].
  exact (getGroupedCards_leaf_keys _ _ _ _ _ _ _ asset_2 Hres Hleaf Hc).
Defined.

Lemma getGroupedCards_sorted_witness :
  Transitive (λ a b, (cost_of a ≤ cost_of b)%Z)
  ∧ consistent_comparator (λ a b, (cost_of a ≤ cost_of b)%Z) by_cost
  ∧ getGroupedCards [G_type] scenario_A by_cost empty_metadata tt
    = Some scenario_A_by_cost
  ∧ GroupingResult.mk [asset_free; asset_2] "asset" "type"
    ∈ GroupedCards.data scenario_A_by_cost
  ∧ StronglySorted (λ a b, (cost_of a ≤ cost_of b)%Z) [asset_free; asset_2].
Proof.
  assert (Transitive (λ a b, (cost_of a ≤ cost_of b)%Z)) as Htrans.
  { intros a b c. lia. }
  assert (consistent_comparator (λ a b, (cost_of a ≤ cost_of b)%Z) by_cost)
    as Hcmp.
  { split; intros a b; unfold by_cost; lia. }
  assert (getGroupedCards [G_type] scenario_A by_cost empty_metadata tt
          = Some scenario_A_by_cost) as Hres by (vm_compute; reflexivity).
  assert (GroupingResult.mk [asset_free; asset_2] "asset" "type"
          ∈ GroupedCards.data scenario_A_by_cost) as Hleaf by left.
  split; [exact Htrans|]. split; [exact Hcmp|]. split; [exact Hres|].
  split; [exact Hleaf|].
  exact (getGroupedCards_sorted _ _ _ _ _ _ _ _ Htrans Hcmp Hres Hleaf).
Defined.

End Examples.
